(** * Barista Buddy: the text pipeline of the voice assistant

    A shallow embedding of the three text stages of the assistant
    (pronunciation normaliser, topic filter, answer retriever) and of the
    orchestrator [process_query], together with the part of Python's
    [difflib] that the retriever relies on.

    Conventions of the model.
    - A Python [str] is a [list ascii]; case folding acts on the ASCII
      letters.  Code points above 127 are outside the model: there
      Python's [lower] can lengthen a string and depends on the neighbours
      of a character, so what is stated about lengths and about longer
      texts is stated on the lower-cased text.
    - A Python exception is a value [Raise e] of the [result] type.
    - The floats that [difflib] computes are ratios [2*m/t] of small
      integers; they are modelled as exact rationals ([Q]), on which the
      comparisons of the source agree for every string that fits in memory.
    - Insertion-ordered dictionaries whose order is observable are
      association lists; records read with [.get] are [gmap]s. *)

From Stdlib Require Import Ascii String QArith.
From stdpp Require Import base tactics option list sorting gmap gmultiset strings.

Local Open Scope nat_scope.
Local Open Scope list_scope.

(** ** Strings *)

Module Str.

Abbreviation str := (list ascii).

(** A literal of the source, written as a Rocq string. *)
Definition py (s : string) : str := list_ascii_of_string s.

(** [c.lower()] on one ASCII character. *)
Definition lower_char (c : ascii) : ascii :=
  let n := nat_of_ascii c in
  if (65 <=? n) && (n <=? 90) then ascii_of_nat (n + 32) else c.

(** [s.lower()] *)
Definition lower (s : str) : str := map lower_char s.

(** [s.startswith(p)] *)
Fixpoint is_prefix (p s : str) : bool :=
  match p, s with
  | [], _ => true
  | _ :: _, [] => false
  | x :: p', y :: s' => bool_decide (x = y) && is_prefix p' s'
  end.

(** [sub in s]: [sub] occurs in [s] as a contiguous run. *)
Fixpoint contains (sub s : str) : bool :=
  is_prefix sub s ||
  match s with
  | [] => false
  | _ :: s' => contains sub s'
  end.

(** The relation that [contains] decides. *)
Definition occurs_in (sub s : str) : Prop :=
  ∃ pre post, s = pre ++ sub ++ post.

(** The scan of [s.replace(old, new)] for a non-empty [old]: left to
    right, non-overlapping.  [skip] counts the characters of the
    occurrence just replaced that are still to be passed over. *)
Fixpoint replace_from (old new : str) (skip : nat) (s : str) : str :=
  match s with
  | [] => []
  | c :: s' =>
      match skip with
      | S n => replace_from old new n s'
      | 0 =>
          if is_prefix old s
          then new ++ replace_from old new (length old - 1) s'
          else c :: replace_from old new 0 s'
      end
  end.

(** [s.replace(old, new)].  With an empty [old] Python inserts [new]
    before every character and at the end. *)
Definition replace (old new s : str) : str :=
  match old with
  | [] => new ++ flat_map (λ c, c :: new) s
  | _ :: _ => replace_from old new 0 s
  end.

(** Whitespace of [str.strip()] in the ASCII range. *)
Definition is_space (c : ascii) : bool :=
  let n := nat_of_ascii c in
  ((9 <=? n) && (n <=? 13)) || ((28 <=? n) && (n <=? 32)).

Fixpoint lstrip (s : str) : str :=
  match s with
  | c :: s' => if is_space c then lstrip s' else s
  | [] => []
  end.

(** [s.strip()] *)
Definition strip (s : str) : str := rev (lstrip (rev (lstrip s))).

(** Python's [<] on [str]: lexicographic on code points. *)
Fixpoint compare (s t : str) : comparison :=
  match s, t with
  | [], [] => Eq
  | [], _ :: _ => Lt
  | _ :: _, [] => Gt
  | x :: s', y :: t' =>
      match Nat.compare (nat_of_ascii x) (nat_of_ascii y) with
      | Eq => compare s' t'
      | o => o
      end
  end.

(** The strings that [lower] leaves alone. *)
Definition is_lower (s : str) : Prop := Forall (λ c, lower_char c = c) s.

End Str.
Import Str.

(** ** Exceptions *)

Inductive exn : Type :=
| IndexError
| KeyError
| TypeError
| ValueError.

Inductive result (A : Type) : Type :=
| Ok (a : A)
| Raise (e : exn).
Arguments Ok {A} a.
Arguments Raise {A} e.

#[export] Instance result_ret : MRet result := λ A, Ok.
#[export] Instance result_bind : MBind result := λ A B k r,
  match r with
  | Ok a => k a
  | Raise e => Raise e
  end.

(** ** Pronunciation normaliser (barista_buddy.py, class FuzzyMatcher) *)

(** A value of the pronunciation table as [json.load] delivers it.  The
    code tells a string and a list apart from everything else, and of a list
    it reads the first element only, where again only a string counts. *)
Inductive scalar : Type :=
| SStr (s : str)
| SOther.

Inductive pron_value : Type :=
| VStr (s : str)
| VList (l : list scalar)
| VOther.

(** The table itself: a dict, iterated in insertion order. *)
Abbreviation pron_dict := (list (str * pron_value)).

(** One turn of the loop of [correct_text]:
<<
    if isinstance(correct, list): correct = correct[0]
    if isinstance(correct, str):  text = text.replace(wrong.lower(), correct.lower())
>> *)
Definition correct_step (text : str) (wrong : str) (correct : pron_value)
  : result str :=
  correct' ← match correct with
             | VList [] => Raise IndexError
             | VList (x :: _) => Ok x
             | VStr s => Ok (SStr s)
             | VOther => Ok SOther
             end;
  match correct' with
  | SStr c => Ok (replace (lower wrong) (lower c) text)
  | SOther => Ok text
  end.

Fixpoint correct_loop (d : pron_dict) (text : str) : result str :=
  match d with
  | [] => Ok text
  | (wrong, correct) :: d' =>
      text' ← correct_step text wrong correct;
      correct_loop d' text'
  end.

Definition correct_text (d : pron_dict) (text : str) : result str :=
  correct_loop d (lower text).

(** ** Topic filter (barista_buddy.py and src/topic_filter.py) *)

(** [any(kw in text.lower() for kw in self.keywords)] *)
Definition is_coffee_related (keywords : list str) (text : str) : bool :=
  existsb (λ kw, contains kw (lower text)) keywords.

(** The loader of src/topic_filter.py: [[k.strip() for k in f.readlines()]]. *)
Definition load_keywords (lines : list str) : list str := map strip lines.

(** The loader of barista_buddy.py:
    [[l.strip().lower() for l in f if l.strip()]]. *)
Definition load_keywords_main (lines : list str) : list str :=
  map (λ l, lower (strip l))
      (filter (λ l, strip l ≠ []) lines).

(** ** difflib (Python standard library), as far as the retriever uses it *)

Module Difflib.

(** [Match(a, b, size)] *)
Record Match : Type := mkMatch { m_a : nat; m_b : nat; m_size : nat }.

(** The number of occurrences of [c] in [b] ([len(b2j[c])] before the
    purge). *)
Definition occurrences (c : ascii) (b : str) : nat :=
  length (filter (λ x, x = c) b).

(** The "popular" elements of [__chain_b]: with [autojunk] on and
    [n = len(b) >= 200], those occurring more than [n // 100 + 1] times.
    They are removed from [b2j] but are not junk. *)
Definition popular (b : str) (c : ascii) : bool :=
  (200 <=? length b) && (length b / 100 + 1 <? occurrences c b).

(** The indices [j0 + j] with [b[j] == c], ascending. *)
Fixpoint indices_from (c : ascii) (b : str) (j0 : nat) : list nat :=
  match b with
  | [] => []
  | x :: b' =>
      if bool_decide (x = c)
      then j0 :: indices_from c b' (S j0)
      else indices_from c b' (S j0)
  end.

(** [b2j.get(c, nothing)] once [__chain_b] has run (no junk predicate is
    given, so only the popular elements are purged). *)
Definition b2j_get (b : str) (c : ascii) : list nat :=
  if popular b c then [] else indices_from c b 0.

(** [j2len.get(j-1, 0)]: the key [-1] is never present. *)
Definition j2len_get_pred (j2len : gmap nat nat) (j : nat) : nat :=
  match j with
  | 0 => 0
  | S j' => default 0 (j2len !! j')
  end.

(** The inner loop of [find_longest_match], over the indices [js] of
    [a[i]] in [b]:
<<
    for j in b2j.get(a[i], nothing):
        if j < blo: continue
        if j >= bhi: break
        k = newj2len[j] = j2lenget(j-1, 0) + 1
        if k > bestsize:
            besti, bestj, bestsize = i-k+1, j-k+1, k
>>
    [k <= i+1] and [k <= j+1] hold there, so [i-k+1] is written
    [i+1-k] on [nat]. *)
Fixpoint scan_row (js : list nat) (i blo bhi : nat)
    (j2len newj2len : gmap nat nat) (best : Match) : gmap nat nat * Match :=
  match js with
  | [] => (newj2len, best)
  | j :: js' =>
      if j <? blo then scan_row js' i blo bhi j2len newj2len best
      else if bhi <=? j then (newj2len, best)
      else
        let k := j2len_get_pred j2len j + 1 in
        let best' :=
          if m_size best <? k then mkMatch (i + 1 - k) (j + 1 - k) k else best in
        scan_row js' i blo bhi j2len (<[j:=k]> newj2len) best'
  end.

(** The outer loop, [for i in range(alo, ahi)], over the list [rows] of the
    values of [i]. *)
Fixpoint scan_rows (a b : str) (rows : list nat) (blo bhi : nat)
    (j2len : gmap nat nat) (best : Match) : Match :=
  match rows with
  | [] => best
  | i :: rows' =>
      let js := match a !! i with
                | Some c => b2j_get b c
                | None => []
                end in
      let '(newj2len, best') := scan_row js i blo bhi j2len ∅ best in
      scan_rows a b rows' blo bhi newj2len best'
  end.

(** [a[i] == b[j]] for indices in range. *)
Definition same_at (a b : str) (i j : nat) : bool :=
  match a !! i, b !! j with
  | Some x, Some y => bool_decide (x = y)
  | _, _ => false
  end.

(** The first extension loop:
<<
    while besti > alo and bestj > blo and not isbjunk(b[bestj-1]) and \
          a[besti-1] == b[bestj-1]:
        besti, bestj, bestsize = besti-1, bestj-1, bestsize+1
>>
    No junk predicate is given, so [isbjunk] is constantly false. *)
Fixpoint extend_left (a b : str) (alo blo : nat)
    (besti bestj bestsize : nat) : Match :=
  match besti, bestj with
  | S i', S j' =>
      if (alo <=? i') && (blo <=? j') && same_at a b i' j'
      then extend_left a b alo blo i' j' (S bestsize)
      else mkMatch besti bestj bestsize
  | _, _ => mkMatch besti bestj bestsize
  end.

(** The second extension loop; [fuel] bounds the number of turns and
    [ahi - (besti + bestsize)] turns are always enough.
<<
    while besti+bestsize < ahi and bestj+bestsize < bhi and \
          not isbjunk(b[bestj+bestsize]) and \
          a[besti+bestsize] == b[bestj+bestsize]:
        bestsize += 1
>> *)
Fixpoint extend_right (a b : str) (ahi bhi : nat) (besti bestj : nat)
    (fuel : nat) (bestsize : nat) : nat :=
  match fuel with
  | 0 => bestsize
  | S fuel' =>
      if (besti + bestsize <? ahi) && (bestj + bestsize <? bhi)
         && same_at a b (besti + bestsize) (bestj + bestsize)
      then extend_right a b ahi bhi besti bestj fuel' (S bestsize)
      else bestsize
  end.

(** [find_longest_match(alo, ahi, blo, bhi)].  The two closing loops of
    the source, which absorb junk on both sides, never run: they ask for
    [isbjunk(...)], which is false throughout. *)
Definition find_longest_match (a b : str) (alo ahi blo bhi : nat) : Match :=
  let best := scan_rows a b (seq alo (ahi - alo)) blo bhi ∅ (mkMatch alo blo 0) in
  let best := extend_left a b alo blo (m_a best) (m_b best) (m_size best) in
  let size := extend_right a b ahi bhi (m_a best) (m_b best)
                (ahi - (m_a best + m_size best)) (m_size best) in
  mkMatch (m_a best) (m_b best) size.

(** The work list of [get_matching_blocks], as the recursion it unfolds:
    the longest match of a window, then the windows left and right of it.
<<
    i, j, k = x = self.find_longest_match(alo, ahi, blo, bhi)
    if k:
        matching_blocks.append(x)
        if alo < i and blo < j:       queue.append((alo, i, blo, j))
        if i+k < ahi and j+k < bhi:   queue.append((i+k, ahi, j+k, bhi))
>>
    Every window pushed is strictly narrower in [a] than the one it comes
    from, so [fuel > ahi - alo] is never used up. *)
Fixpoint blocks (a b : str) (fuel : nat) (alo ahi blo bhi : nat) : list Match :=
  match fuel with
  | 0 => []
  | S fuel' =>
      let x := find_longest_match a b alo ahi blo bhi in
      let '(mkMatch i j k) := x in
      if k =? 0 then []
      else
        x :: (if (alo <? i) && (blo <? j)
              then blocks a b fuel' alo i blo j else [])
          ++ (if (i + k <? ahi) && (j + k <? bhi)
              then blocks a b fuel' (i + k) ahi (j + k) bhi else [])
  end.

(** The blocks that [get_matching_blocks] collects.  The source then
    sorts them, merges adjacent ones and appends the sentinel
    [(la, lb, 0)]; none of that changes the sum of the sizes, which is
    all that [ratio] reads. *)
Definition matching_blocks (a b : str) : list Match :=
  blocks a b (S (length a)) 0 (length a) 0 (length b).

(** [_calculate_ratio(matches, length)] *)
Definition calculate_ratio (matches length : nat) : Q :=
  match length with
  | 0 => 1%Q
  | S _ => (Z.of_nat (2 * matches) # Pos.of_nat length)%Q
  end.

(** [SequenceMatcher(None, a, b).ratio()] *)
Definition ratio (a b : str) : Q :=
  let matches := sum_list (map m_size (matching_blocks a b)) in
  calculate_ratio matches (length a + length b).

(** [fullbcount] of [quick_ratio] *)
Definition fullbcount (b : str) : gmap ascii nat :=
  foldl (λ m elt, <[elt := default 0 (m !! elt) + 1]> m) ∅ b.

(** The loop of [quick_ratio]:
<<
    for elt in self.a:
        if availhas(elt): numb = avail[elt]
        else:             numb = fullbcount.get(elt, 0)
        avail[elt] = numb - 1
        if numb > 0:
            matches = matches + 1
>> *)
Fixpoint quick_loop (full : gmap ascii nat) (avail : gmap ascii Z)
    (matches : nat) (a : str) : nat :=
  match a with
  | [] => matches
  | elt :: a' =>
      let numb := match avail !! elt with
                  | Some n => n
                  | None => Z.of_nat (default 0 (full !! elt))
                  end in
      quick_loop full (<[elt := (numb - 1)%Z]> avail)
        (if (0 <? numb)%Z then S matches else matches) a'
  end.

(** [quick_ratio()] *)
Definition quick_ratio (a b : str) : Q :=
  calculate_ratio (quick_loop (fullbcount b) ∅ 0 a) (length a + length b).

(** [real_quick_ratio()] *)
Definition real_quick_ratio (a b : str) : Q :=
  calculate_ratio (length a `min` length b) (length a + length b).

(** Python's order on the tuples [(score, x)]: the scores decide unless
    they are equal, then the strings do. *)
Definition tuple_compare (p q : Q * str) : comparison :=
  match (p.1 ?= q.1)%Q with
  | Eq => Str.compare p.2 q.2
  | o => o
  end.

Definition tuple_lt (p q : Q * str) : bool :=
  match tuple_compare p q with Lt => true | _ => false end.

(** [sorted(l, reverse=True)]: descending and stable, so [x] goes in front
    of the first element it is not smaller than. *)
Fixpoint insert_desc (x : Q * str) (l : list (Q * str)) : list (Q * str) :=
  match l with
  | [] => [x]
  | y :: l' => if tuple_lt x y then y :: insert_desc x l' else x :: l
  end.

Definition sorted_desc (l : list (Q * str)) : list (Q * str) :=
  foldr insert_desc [] l.

(** [heapq.nlargest(n, l)], which is [sorted(l, reverse=True)[:n]]. *)
Definition nlargest (n : nat) (l : list (Q * str)) : list (Q * str) :=
  take n (sorted_desc l).

(** The candidates that pass the three tests of [get_close_matches], each
    with its score:
<<
    for x in possibilities:
        s.set_seq1(x)
        if s.real_quick_ratio() >= cutoff and \
           s.quick_ratio() >= cutoff and \
           s.ratio() >= cutoff:
            result.append((s.ratio(), x))
>> *)
Definition close_enough (word : str) (cutoff : Q) (x : str) : bool :=
  Qle_bool cutoff (real_quick_ratio x word)
  && Qle_bool cutoff (quick_ratio x word)
  && Qle_bool cutoff (ratio x word).

Definition scored (word : str) (cutoff : Q) (possibilities : list str)
  : list (Q * str) :=
  map (λ x, (ratio x word, x)) (filter (λ x, close_enough word cutoff x = true) possibilities).

(** [get_close_matches(word, possibilities, n, cutoff)] *)
Definition get_close_matches (word : str) (possibilities : list str)
    (n : Z) (cutoff : Q) : result (list str) :=
  if negb (0 <? n)%Z then Raise ValueError
  else if negb (Qle_bool 0 cutoff && Qle_bool cutoff 1) then Raise ValueError
  else Ok (map snd (nlargest (Z.to_nat n) (scored word cutoff possibilities))).

End Difflib.

(** ** The matcher of src/fuzzy_matcher.py *)

Module FuzzyMatcherModule.

(** [text in variants].  A list holds [text] when one of its elements
    equals it, a string when [text] occurs in it; a number, a boolean or
    [None] raises [TypeError].  (A value that is itself a JSON object is
    outside the model.) *)
Definition holds (text : str) (variants : pron_value) : result bool :=
  match variants with
  | VList l =>
      Ok (existsb (λ x, match x with
                        | SStr s => bool_decide (s = text)
                        | SOther => false
                        end) l)
  | VStr s => Ok (contains text s)
  | VOther => Raise TypeError
  end.

(** [normalize(text)]: here the table maps a canonical term to its
    variants.
<<
    for correct, variants in self.pronunciations.items():
        if text in variants:
            return correct
    return text
>> *)
Fixpoint normalize (pronunciations : pron_dict) (text : str) : result str :=
  match pronunciations with
  | [] => Ok text
  | (correct, variants) :: rest =>
      match holds text variants with
      | Ok true => Ok correct
      | Ok false => normalize rest text
      | Raise e => Raise e
      end
  end.

(** [fuzzy_match(text)]:
<<
    keys = list(self.pronunciations.keys())
    match = get_close_matches(text, keys, n=1, cutoff=0.7)
    return match[0] if match else text
>> *)
Definition fuzzy_match (pronunciations : pron_dict) (text : str) : result str :=
  let keys := map fst pronunciations in
  found ← Difflib.get_close_matches text keys 1 (7 # 10);
  Ok (match found with
      | k :: _ => k
      | [] => text
      end).

End FuzzyMatcherModule.

(** ** Answer retriever (barista_buddy.py, class RetrievalSystem) *)

(** A knowledge record as [json.load] delivers it: a dict read with [.get]. *)
Abbreviation item := (gmap string str).

(** [self.knowledge_dict]: question to answer, in insertion order. *)
Abbreviation knowledge := (list (str * str)).

(** [d[k] = v]: a key already present keeps its place. *)
Fixpoint dict_set (k v : str) (d : knowledge) : knowledge :=
  match d with
  | [] => [(k, v)]
  | (k', v') :: d' =>
      if bool_decide (k' = k) then (k', v) :: d' else (k', v') :: dict_set k v d'
  end.

(** [d[k]] *)
Fixpoint dict_get (k : str) (d : knowledge) : result str :=
  match d with
  | [] => Raise KeyError
  | (k', v) :: d' => if bool_decide (k' = k) then Ok v else dict_get k d'
  end.

Record RetrievalSystem : Type := mkRetrievalSystem {
  knowledge_dict : knowledge;
  cutoff : Q
}.

(** One element of the result of [retrieve]:
    [{"question": k, "answer": self.knowledge_dict[k]}]. *)
Record hit : Type := mkHit { question : str; answer : str }.

Module Retrieval.

(** One turn of the loop of [__init__]:
<<
    question = item.get("question", "").lower()
    answer = item.get("answer", "")
    if question and answer:
        self.knowledge_dict[question] = answer
>> *)
Definition load_item (d : knowledge) (it : item) : knowledge :=
  let question := lower (default [] (it !! "question"%string)) in
  let answer := default [] (it !! "answer"%string) in
  if bool_decide (question ≠ []) && bool_decide (answer ≠ [])
  then dict_set question answer d
  else d.

(** [RetrievalSystem(knowledge_list, cutoff)] *)
Definition init (knowledge_list : list item) (cutoff : Q) : RetrievalSystem :=
  {| knowledge_dict := foldl load_item [] knowledge_list; cutoff := cutoff |}.

(** [retrieve(query, top_k)] *)
Definition retrieve (rs : RetrievalSystem) (query : str) (top_k : Z)
  : result (list hit) :=
  let query := lower query in
  let keys := map fst (knowledge_dict rs) in
  matches ← Difflib.get_close_matches query keys top_k (cutoff rs);
  mapM (λ k, v ← dict_get k (knowledge_dict rs); Ok (mkHit k v)) matches.

End Retrieval.

(** ** The single-best retriever of src/retrieval_system.py *)

Module RetrievalModule.

(** [item[key]] *)
Definition getitem (it : item) (key : string) : result str :=
  match it !! key with
  | Some v => Ok v
  | None => Raise KeyError
  end.

(** [similarity(a, b)] *)
Definition similarity (a b : str) : Q := Difflib.ratio a b.

(** The loop of [retrieve], from the current best score and answer. *)
Fixpoint best_loop (query : str) (knowledge : list item)
    (best_score : Q) (best_answer : option str) : result (Q * option str) :=
  match knowledge with
  | [] => Ok (best_score, best_answer)
  | it :: rest =>
      q ← getitem it "question";
      let score := similarity (lower query) (lower q) in
      if negb (Qle_bool score best_score)
      then a ← getitem it "answer"; best_loop query rest score (Some a)
      else best_loop query rest best_score best_answer
  end.

(** [retrieve(query)]: [best_answer if best_score > 0.5 else None] *)
Definition retrieve (knowledge : list item) (query : str) : result (option str) :=
  '(best_score, best_answer) ← best_loop query knowledge 0%Q None;
  Ok (if negb (Qle_bool best_score (1 # 2)) then best_answer else None).

End RetrievalModule.

(** ** Orchestrator (barista_buddy.py, class BaristaBuddy) *)

(** What [process_query] does to the outside and to its components, in the
    order in which it does it. *)
Inductive call : Type :=
| CorrectText (text : str)
| Printed (text : str)
| IsCoffeeRelated (text : str)
| Retrieve (query : str)
| LLMQuery (text : str).

(** A computation that may raise and that appends to the log of calls. *)
Definition traced (A : Type) : Type := list call → result (A * list call).

#[export] Instance traced_ret : MRet traced := λ A a log, Ok (a, log).
#[export] Instance traced_bind : MBind traced := λ A B k m log,
  match m log with
  | Ok (a, log') => k a log'
  | Raise e => Raise e
  end.

(** The call [c], whose outcome is [r], made and logged. *)
Definition invoke {A} (c : call) (r : result A) : traced A :=
  λ log, a ← r; Ok (a, log ++ [c]).

Record BaristaBuddy : Type := mkBaristaBuddy {
  fuzzy_matcher : pron_dict;
  topic_filter : list str;
  retrieval : RetrievalSystem;
  (** the response of the generative collaborator to the text of the one
      call that a query makes of it; the collaborator samples, so two
      queries are answered by two such functions, and its own failures are
      not modelled *)
  llm : str → str
}.

(** The components that [BaristaBuddy.__init__] builds from the three data
    files; the retriever gets [cutoff=0.5]. *)
Definition BaristaBuddy_init (keyword_lines : list str)
    (knowledge_list : list item) (pronunciation : pron_dict)
    (llm : str → str) : BaristaBuddy :=
  {| fuzzy_matcher := pronunciation;
     topic_filter := load_keywords_main keyword_lines;
     retrieval := Retrieval.init knowledge_list (1 # 2);
     llm := llm |}.

Definition refusal : str :=
  py "Sorry, I can only help with coffee-related questions.".

(** [retrieve(query)] with the default [top_k=3]. *)
Definition default_top_k : Z := 3.

(** [process_query(query)] *)
Definition process_query (app : BaristaBuddy) (query : str) : traced str :=
  query ← invoke (CorrectText query) (correct_text (fuzzy_matcher app) query);
  _ ← invoke (Printed query) (Ok ());
  related ← invoke (IsCoffeeRelated query)
              (Ok (is_coffee_related (topic_filter app) query));
  if negb related then mret refusal
  else
    results ← invoke (Retrieve query)
                (Retrieval.retrieve (retrieval app) query default_top_k);
    match results with
    | r :: _ => mret (answer r)
    | [] => invoke (LLMQuery query) (Ok (llm app query))
    end.

(** One query, from an empty log. *)
Definition run_query (app : BaristaBuddy) (query : str) : result (str * list call) :=
  process_query app query [].

(** ** The generative fallback (barista_buddy.py, class LLMHandler) *)

Module LLMHandler.

(** The line feed of the prompt. *)
Definition nl : ascii := "010"%char.

(** The mark after which the assistant's part of the response begins. *)
Definition marker : str := py "Barista Buddy:".

(** The prompt that [query] builds around the user's text. *)
Definition prompt (text : str) : str :=
  py "You are Barista Buddy, a coffee-only assistant. "
  ++ py "Only answer questions related to coffee. "
  ++ py "If the question is not about coffee, say: 'Sorry, I can only answer coffee questions.'"
  ++ [nl; nl]
  ++ py "User: " ++ text ++ [nl] ++ marker.

(** The scan of [s.split(sep)] for a non-empty [sep]: left to right,
    non-overlapping.  [piece] is the piece being collected and [skip]
    counts the characters of the separator just found that are still to be
    passed over. *)
Fixpoint split_from (sep : str) (skip : nat) (piece : str) (s : str) : list str :=
  match s with
  | [] => [piece]
  | c :: s' =>
      match skip with
      | S n => split_from sep n piece s'
      | 0 =>
          if is_prefix sep s
          then piece :: split_from sep (length sep - 1) [] s'
          else split_from sep 0 (piece ++ [c]) s'
      end
  end.

(** [s.split(sep)]; an empty separator raises [ValueError]. *)
Definition split (sep s : str) : result (list str) :=
  match sep with
  | [] => Raise ValueError
  | _ :: _ => Ok (split_from sep 0 [] s)
  end.

(** [l[-1]] *)
Definition last_item (l : list str) : result str :=
  match last l with
  | Some x => Ok x
  | None => Raise IndexError
  end.

(** [query(text)].  The tokenizer and the sampled generation are one opaque
    function [generate] from the prompt to the decoded response:
<<
    response = self.tokenizer.decode(outputs[0], skip_special_tokens=True)
    return response.split("Barista Buddy:")[-1].strip()
>> *)
Definition query (generate : str → str) (text : str) : result str :=
  let response := generate (prompt text) in
  pieces ← split marker response;
  piece ← last_item pieces;
  Ok (strip piece).

End LLMHandler.

(** ** The voice loop (barista_buddy.py, BaristaBuddy.run) *)

(** What one call of [self.stt.listen] brings: a transcription (empty when
    nothing was understood), or the user's interrupt while the loop waits
    there. *)
Inductive heard : Type :=
| Heard (query : str)
| KeyboardInterrupt.

Definition greeting : str := py "Hello! I'm Barista Buddy. How can I help you?".
Definition not_caught : str := py "I didn't catch that. Please say it again.".
Definition farewell : str := py "Goodbye! Happy brewing!".
Definition exiting : str := py "Exiting Barista Buddy. Goodbye!".
Definition exit_words : list str := [py "exit"; py "quit"; py "goodbye"].

(** The [while True] loop of [run] over the successive outcomes of
    [listen]: what is spoken, in order, and whether the loop was left.  An
    exception of [process_query] is not caught and ends the run.
<<
    query = self.stt.listen(timeout=5, phrase_time_limit=4)
    if not query.strip():
        self.tts.speak("I didn't catch that. Please say it again.")
        continue
    if query.lower() in ["exit", "quit", "goodbye"]:
        self.tts.speak("Goodbye! Happy brewing!")
        break
    answer = self.process_query(query)
    self.tts.speak(answer)
>> *)
Fixpoint run_loop (app : BaristaBuddy) (script : list heard)
  : result (list str * bool) :=
  match script with
  | [] => Ok ([], false)
  | KeyboardInterrupt :: _ => Ok ([exiting], true)
  | Heard query :: rest =>
      if bool_decide (strip query = []) then
        '(spoken, ended) ← run_loop app rest;
        Ok (not_caught :: spoken, ended)
      else if bool_decide (lower query ∈ exit_words) then
        Ok ([farewell], true)
      else
        '(answer, _) ← run_query app query;
        '(spoken, ended) ← run_loop app rest;
        Ok (answer :: spoken, ended)
  end.

(** [run()]: the greeting, then the loop. *)
Definition run (app : BaristaBuddy) (script : list heard)
  : result (list str * bool) :=
  '(spoken, ended) ← run_loop app script;
  Ok (greeting :: spoken, ended).

(** ** Notions used in the statements *)

(** The canonical term that a value of the pronunciation table names: the
    string itself, or the first element of a list. *)
Definition canonical (v : pron_value) : option str :=
  match v with
  | VStr c => Some c
  | VList (SStr c :: _) => Some c
  | _ => None
  end.

(** A pronunciation table on which [correct[0]] is defined: no value is an
    empty list. *)
Definition pron_wf (d : pron_dict) : Prop :=
  Forall (λ e, e.2 ≠ VList []) d.

(** The keys of the table, none of which occurs in [text] when case is
    ignored. *)
Definition no_variant_in (d : pron_dict) (text : str) : Prop :=
  Forall (λ e, ¬ occurs_in (lower e.1) (lower text)) d.

(** A cutoff that [get_close_matches] accepts. *)
Definition valid_cutoff (c : Q) : Prop := (0 <= c)%Q ∧ (c <= 1)%Q.

(** [a[i:i+k]] and [b[j:j+k]] exist and are equal. *)
Definition matches_at (a b : str) (i j k : nat) : Prop :=
  ∀ d, d < k → ∃ c, a !! (i + d) = Some c ∧ b !! (j + d) = Some c.

(** [m] is a common run of the windows [a[alo:ahi]] and [b[blo:bhi]]. *)
Definition is_match (a b : str) (alo ahi blo bhi : nat) (m : Difflib.Match) : Prop :=
  alo ≤ Difflib.m_a m ∧ Difflib.m_a m + Difflib.m_size m ≤ ahi
  ∧ blo ≤ Difflib.m_b m ∧ Difflib.m_b m + Difflib.m_size m ≤ bhi
  ∧ matches_at a b (Difflib.m_a m) (Difflib.m_b m) (Difflib.m_size m).

(** What [j2len] holds when row [e] of [a] is about to be scanned: for each
    [j], the length of a common run that ends at [a[e-1]] and [b[j]] and
    stays inside the windows. *)
Definition runs_end (a b : str) (alo blo e : nat) (j2len : gmap nat nat) : Prop :=
  ∀ j k, j2len !! j = Some k →
    1 ≤ k ∧ alo + k ≤ e ∧ blo + k ≤ j + 1 ∧ matches_at a b (e - k) (j + 1 - k) k.

(** The slice [l[lo:hi]]. *)
Definition window (l : str) (lo hi : nat) : str := take (hi - lo) (drop lo l).

(** The number of characters that two strings share, as multisets. *)
Definition common (a b : str) : nat :=
  size ((list_to_set_disj a : gmultiset ascii) ∩ list_to_set_disj b).

(** [p] is not smaller than [q] in Python's order on tuples. *)
Definition tuple_ge (p q : Q * str) : Prop := Difflib.tuple_lt p q = false.

(** The similarity of a stored question to a query, as [retrieve] computes
    it: the query is lower-cased first, and the question is the first
    sequence of the matcher. *)
Definition score (query question : str) : Q :=
  Difflib.ratio question (lower query).

(** The field [key] of a knowledge record is present and not empty. *)
Definition has_text (it : item) (key : string) : bool :=
  match it !! key with
  | Some (_ :: _) => true
  | _ => false
  end.

(** A knowledge record with a question and an answer. *)
Definition complete (it : item) : bool :=
  has_text it "question" && has_text it "answer".

(** The stored questions that pass the tests of [get_close_matches] for a
    query, each with its score. *)
Definition candidates (rs : RetrievalSystem) (query : str) : list (Q * str) :=
  Difflib.scored (lower query) (cutoff rs) (map fst (knowledge_dict rs)).

(** What ends the voice loop: the interrupt, or one of the exit words in
    any capitals. *)
Definition is_stop (h : heard) : Prop :=
  match h with
  | KeyboardInterrupt => True
  | Heard query => lower query ∈ exit_words
  end.

(** Two assistants with the same normaliser, filter and retriever, whose
    collaborators may answer differently. *)
Definition same_core (app app' : BaristaBuddy) : Prop :=
  fuzzy_matcher app = fuzzy_matcher app'
  ∧ topic_filter app = topic_filter app'
  ∧ retrieval app = retrieval app'.

(** The answer of a run of [process_query], without the log. *)
Definition answer_of (r : result (str * list call)) : result str :=
  match r with
  | Ok (a, _) => Ok a
  | Raise e => Raise e
  end.

(** When a string is matched against itself: the length of the run of
    characters that are not "popular", inside the window that begins at
    [lo], that ends at index [r]. *)
Fixpoint diag_run (s : str) (lo r : nat) : nat :=
  match s !! r with
  | Some c =>
      if (lo <=? r) && negb (Difflib.popular s c)
      then S (match r with
              | 0 => 0
              | S r' => diag_run s lo r'
              end)
      else 0
  | None => 0
  end.

(** The same run, ending just before index [e]. *)
Definition diag_run_before (s : str) (lo e : nat) : nat :=
  match e with
  | 0 => 0
  | S r => diag_run s lo r
  end.

(** What [j2len] holds when row [e] of a string matched against itself is
    about to be scanned: no run is longer than the diagonal run of its
    column (left of the diagonal) or of the row (right of it), and the
    entry on the diagonal is the diagonal run. *)
Definition diag_rows (s : str) (lo e : nat) (j2len : gmap nat nat) : Prop :=
  (∀ j k, j2len !! j = Some k →
     (j < e → k ≤ diag_run s lo j) ∧ (e ≤ S j → k ≤ diag_run_before s lo e))
  ∧ Difflib.j2len_get_pred j2len e = diag_run_before s lo e.

(** The best match so far lies on the diagonal and is at least as long as
    every diagonal run that ends before row [e]. *)
Definition diag_best (s : str) (lo e : nat) (best : Difflib.Match) : Prop :=
  Difflib.m_a best = Difflib.m_b best
  ∧ ∀ r, r < e → diag_run s lo r ≤ Difflib.m_size best.

(** ** Data of the examples *)

(** A table in which an earlier variant occurs inside a later one. *)
Definition table_overlap : pron_dict :=
  [ (py "presso", VStr (py "x"));
    (py "expresso", VStr (py "espresso")) ].

(** A table as the test suite of the repository expects it. *)
Definition table_tests : pron_dict :=
  [ (py "expresso", VStr (py "espresso"));
    (py "machiato", VList [SStr (py "macchiato")]);
    (py "capuccino", VStr (py "cappuccino"));
    (py "lattay", VStr (py "latte")) ].

(** A small knowledge base: two questions that tie for the query "a", and a
    record without an answer. *)
Definition kb_ties : list item :=
  [ {[ "question"%string := py "ab"; "answer"%string := py "first" ]};
    {[ "question"%string := py "ac"; "answer"%string := py "second" ]};
    {[ "question"%string := py "zzzz" ]} ].

(** A knowledge base in the style of the repository's data. *)
Definition kb_coffee : list item :=
  [ {[ "question"%string := py "How to make espresso";
       "answer"%string := py "Use finely ground coffee and nine bars." ]};
    {[ "question"%string := py "what is a latte";
       "answer"%string := py "Espresso with steamed milk." ]};
    {[ "question"%string := py "how to make a latte";
       "answer"%string := py "Pour steamed milk over espresso." ]} ].

(** An assistant over [kb_coffee] whose generative collaborator echoes its
    prompt behind a mark. *)
Definition app_example : BaristaBuddy :=
  BaristaBuddy_init [py "espresso"; py "Latte "; py ""; py "coffee"]
    kb_coffee table_tests (λ q, py "LLM:" ++ q).

(** The same assistant with a collaborator that answers otherwise. *)
Definition app_resampled : BaristaBuddy :=
  BaristaBuddy_init [py "espresso"; py "Latte "; py ""; py "coffee"]
    kb_coffee table_tests (λ q, py "Well: " ++ q).

(** Two pronunciation tables with the same keys and canonical terms, entry
    by entry, when case is ignored. *)
Definition same_table (d d' : pron_dict) : Prop :=
  Forall2 (λ e e', lower e.1 = lower e'.1
                   ∧ lower <$> canonical e.2 = lower <$> canonical e'.2) d d'.

Definition table_plain : pron_dict :=
  [ (py "expresso", VStr (py "espresso")) ].

(** Records in which a question comes back in other capitals with another
    answer, and once more without an answer. *)
Definition latte_old : item :=
  {[ "question"%string := py "What is a Latte"; "answer"%string := py "old" ]}.
Definition mocha : item :=
  {[ "question"%string := py "what is mocha"; "answer"%string := py "chocolate" ]}.
Definition latte_new : item :=
  {[ "question"%string := py "what is a latte"; "answer"%string := py "new" ]}.
Definition latte_blank : item :=
  {[ "question"%string := py "what is a latte" ]}.

(** * Properties *)

(** ** Strings *)

Section str_facts.
Implicit Types s t old new sub : str.

Lemma lower_char_idemp c : lower_char (lower_char c) = lower_char c.
Proof. by destruct c as [[] [] [] [] [] [] [] []]. Qed.

Lemma lower_idemp s : lower (lower s) = lower s.
Proof.
  unfold lower. rewrite <- list_fmap_compose.
  apply list_fmap_ext. intros _ c _. apply lower_char_idemp.
Qed.

Lemma lower_app s t : lower (s ++ t) = lower s ++ lower t.
Proof. apply fmap_app. Qed.

Lemma is_prefix_spec p s : is_prefix p s = true ↔ ∃ t, s = p ++ t.
Proof.
  revert s. induction p as [|x p IH]; intros s; simpl.
  - split; [eauto | done].
  - destruct s as [|y s].
    + split; [done | by intros [t ?]].
    + rewrite andb_true_iff, bool_decide_eq_true, IH. split.
      * intros [-> [t ->]]. eauto.
      * intros [t [= -> ->]]. eauto.
Qed.

Lemma is_prefix_nil s : is_prefix [] s = true.
Proof. by destruct s. Qed.

Lemma is_prefix_refl s : is_prefix s s = true.
Proof. apply is_prefix_spec. exists []. by rewrite app_nil_r. Qed.

Lemma contains_spec sub s : contains sub s = true ↔ occurs_in sub s.
Proof.
  unfold occurs_in. induction s as [|c s IH]; simpl.
  - rewrite orb_false_r, is_prefix_spec. split.
    + intros [t E]. by exists [], t.
    + intros (pre & post & E). symmetry in E.
      apply app_eq_nil in E as [-> E]. apply app_eq_nil in E as [-> ->].
      by exists [].
  - rewrite orb_true_iff, is_prefix_spec, IH. split.
    + intros [[t E] | (pre & post & ->)].
      * by exists [], t.
      * by exists (c :: pre), post.
    + intros ([|c' pre] & post & E).
      * left. by exists post.
      * right. injection E as -> ->. eauto.
Qed.

Lemma contains_nil s : contains [] s = true.
Proof. apply contains_spec. by exists [], s. Qed.

Lemma contains_refl s : contains s s = true.
Proof. apply contains_spec. exists [], []. by rewrite app_nil_r. Qed.

(** A text in which [old] does not occur is left alone by [replace]. *)
Lemma replace_from_absent old new s :
  contains old s = false → replace_from old new 0 s = s.
Proof.
  induction s as [|c s IH]; [done|].
  cbn [contains replace_from]. intros [Hp Hc]%orb_false_iff.
  rewrite Hp. f_equal. by apply IH.
Qed.

Lemma replace_absent old new s :
  contains old s = false → replace old new s = s.
Proof.
  destruct old as [|x old]; [by rewrite contains_nil|].
  apply replace_from_absent.
Qed.

Lemma replace_from_skip_all old new n s :
  length s ≤ n → replace_from old new n s = [].
Proof.
  revert n. induction s as [|c s IH]; intros n Hn; [done|].
  destruct n as [|n]; simpl in *; [lia|]. apply IH. lia.
Qed.

(** Replacing [old] in [old] itself gives [new]. *)
Lemma replace_self old new : replace old new old = new.
Proof.
  destruct old as [|x old]; simpl.
  - by rewrite app_nil_r.
  - rewrite bool_decide_eq_true_2, is_prefix_refl by done. simpl.
    rewrite replace_from_skip_all by lia. by rewrite app_nil_r.
Qed.

Lemma replace_from_Forall (P : ascii → Prop) old new n s :
  Forall P new → Forall P s → Forall P (replace_from old new n s).
Proof.
  intros Hnew. revert n. induction s as [|c s IH]; intros n Hs; [done|].
  apply Forall_cons in Hs as [Hc Hs]. cbn [replace_from].
  destruct n as [|n]; [|by apply IH].
  destruct (is_prefix old (c :: s)).
  - apply Forall_app. split; [done | by apply IH].
  - apply Forall_cons. split; [done | by apply IH].
Qed.

Lemma replace_Forall (P : ascii → Prop) old new s :
  Forall P new → Forall P s → Forall P (replace old new s).
Proof.
  intros Hnew Hs. destruct old as [|x old]; [|by apply replace_from_Forall].
  simpl. apply Forall_app. split; [done|].
  induction Hs as [|c s Hc Hs IH]; [done|]. simpl.
  apply Forall_cons. split; [done|]. apply Forall_app. by split.
Qed.

Lemma lower_is_lower s : is_lower (lower s).
Proof. apply Forall_fmap, Forall_true. intros c. apply lower_char_idemp. Qed.

Lemma is_lower_fixed s : is_lower s → lower s = s.
Proof.
  induction 1 as [|c s Hc Hs IH]; [done|]. simpl. by rewrite Hc, IH.
Qed.

End str_facts.

(** ** Pronunciation normaliser *)

Section normaliser.
Implicit Types (d : pron_dict) (text t : str).

Lemma correct_step_absent text wrong v :
  v ≠ VList [] →
  ¬ occurs_in (lower wrong) text →
  correct_step text wrong v = Ok text.
Proof.
  intros Hv Hno. rewrite <- contains_spec in Hno.
  apply not_true_is_false in Hno.
  unfold correct_step.
  destruct v as [c|[|[c|] l]|]; simpl;
    [by rewrite replace_absent | congruence | by rewrite replace_absent
    | done | done].
Qed.

Lemma correct_loop_absent d text :
  pron_wf d →
  Forall (λ e, ¬ occurs_in (lower e.1) text) d →
  correct_loop d text = Ok text.
Proof.
  induction d as [|[wrong v] d IH]; intros Hwf Hno; [done|].
  apply Forall_cons in Hwf as [Hv Hwf].
  apply Forall_cons in Hno as [Hw Hno]. simpl in *.
  rewrite correct_step_absent by done. simpl. by apply IH.
Qed.

Lemma correct_step_total text wrong v :
  v ≠ VList [] → ∃ t, correct_step text wrong v = Ok t.
Proof.
  unfold correct_step. destruct v as [c|[|[c|] l]|]; simpl; eauto. congruence.
Qed.

Lemma correct_loop_total d text :
  pron_wf d → ∃ t, correct_loop d text = Ok t.
Proof.
  revert text. induction d as [|[wrong v] d IH]; intros text Hwf; simpl.
  - eauto.
  - apply Forall_cons in Hwf as [Hv Hwf].
    destruct (correct_step_total text wrong v Hv) as [t ->]. simpl. eauto.
Qed.

(** A table on which the loop came to its end has no empty list. *)
Lemma correct_loop_Ok_wf d text t :
  correct_loop d text = Ok t → pron_wf d.
Proof.
  revert text. induction d as [|[wrong v] d IH]; intros text E.
  - constructor.
  - simpl in E. destruct (correct_step text wrong v) as [t'|] eqn:Es; [|done].
    constructor; [|by eapply IH]. simpl. by intros ->.
Qed.

Lemma correct_step_is_lower text wrong v t :
  is_lower text → correct_step text wrong v = Ok t → is_lower t.
Proof.
  intros Ht. unfold correct_step.
  destruct v as [c|[|[c|] l]|]; simpl; intros [= <-]; try done;
    (apply replace_Forall; [apply lower_is_lower | done]).
Qed.

Lemma correct_loop_is_lower d text t :
  is_lower text → correct_loop d text = Ok t → is_lower t.
Proof.
  revert text. induction d as [|[wrong v] d IH]; intros text Ht E; simpl in E.
  - by injection E as <-.
  - destruct (correct_step text wrong v) as [t'|] eqn:Es; [|done].
    eapply IH; [|done]. by eapply correct_step_is_lower.
Qed.

(** The result of the normaliser is lower-cased. *)
Lemma correct_text_is_lower d text t :
  correct_text d text = Ok t → is_lower t.
Proof. apply correct_loop_is_lower, lower_is_lower. Qed.

Lemma correct_step_canonical wrong v c :
  canonical v = Some c →
  correct_step (lower wrong) wrong v = Ok (lower c).
Proof.
  unfold correct_step.
  destruct v as [c'|[|[c'|] l]|]; simpl; intros [= ->];
    by rewrite replace_self.
Qed.

End normaliser.

(** C5, as the specification states it, fails: in [table_overlap] the
    earlier variant "presso" is replaced inside "expresso" before the
    entry of "expresso" is reached, and the result "exx" does not contain
    the canonical term "espresso". *)
Lemma correct_text_variant_overlap :
  (py "expresso", VStr (py "espresso")) ∈ table_overlap
  ∧ canonical (VStr (py "espresso")) = Some (py "espresso")
  ∧ correct_text table_overlap (py "expresso") = Ok (py "exx")
  ∧ ¬ occurs_in (py "espresso") (py "exx").
Proof.
  split; [set_solver|]. split; [done|]. split; [done|].
  rewrite <- contains_spec. by vm_compute.
Qed.

(** C5, amended: for a variant/canonical pair of a pronunciation table
    without empty lists, if no earlier key of the table occurs in the
    variant and no later key occurs in the canonical term (case ignored),
    then normalising the variant gives exactly the lower-cased canonical
    term, which in particular occurs in the result. *)
Theorem correct_text_variant (d1 d2 : pron_dict) (wrong : str)
    (v : pron_value) (c : str) :
  canonical v = Some c →
  pron_wf (d1 ++ (wrong, v) :: d2) →
  no_variant_in d1 wrong →
  no_variant_in d2 c →
  ∃ t, correct_text (d1 ++ (wrong, v) :: d2) wrong = Ok t
       ∧ t = lower c ∧ occurs_in (lower c) t.
Proof.
  intros Hc Hwf H1 H2. exists (lower c).
  split; [|split; [done | by exists [], []; rewrite app_nil_r]].
  apply Forall_app in Hwf as [Hwf1 Hwf2].
  apply Forall_cons in Hwf2 as [_ Hwf2].
  unfold correct_text.
  assert (∀ d d' t t', correct_loop d t = Ok t' →
            correct_loop (d ++ d') t = correct_loop d' t') as Happ.
  { clear. induction d as [|[w u] d IH]; intros d' t t' E; simpl in *.
    - by injection E as ->.
    - destruct (correct_step t w u); [|done]. simpl in *. by apply IH. }
  rewrite (Happ _ _ _ (lower wrong)) by by apply correct_loop_absent.
  simpl. rewrite (correct_step_canonical _ _ c) by done. simpl.
  by apply correct_loop_absent.
Qed.

Lemma correct_text_variant_witness :
  ∃ t, correct_text table_tests (py "machiato") = Ok t
       ∧ t = lower (py "macchiato") ∧ occurs_in (lower (py "macchiato")) t.
Proof.
  apply (correct_text_variant
           [(py "expresso", VStr (py "espresso"))]
           [(py "capuccino", VStr (py "cappuccino"));
            (py "lattay", VStr (py "latte"))]
           (py "machiato") (VList [SStr (py "macchiato")])).
  - reflexivity.
  - repeat constructor; simpl; discriminate.
  - repeat constructor; simpl; rewrite <- contains_spec; by vm_compute.
  - repeat constructor; simpl; rewrite <- contains_spec; by vm_compute.
Defined.

(** The inputs of the repository's test suite. *)
Example correct_text_tests :
  correct_text table_tests (py "expresso") = Ok (py "espresso")
  ∧ correct_text table_tests (py "machiato") = Ok (py "macchiato")
  ∧ correct_text table_tests (py "capuccino") = Ok (py "cappuccino")
  ∧ correct_text table_tests (py "lattay") = Ok (py "latte")
  ∧ correct_text table_tests (py "how to make expresso")
    = Ok (py "how to make espresso")
  ∧ correct_text table_tests [] = Ok [].
Proof. by vm_compute. Qed.

(** The lookup of src/fuzzy_matcher.py returns the canonical term of the
    first entry that lists the text among its variants; the text must be
    there letter for letter. *)
Lemma normalize_variant (d1 d2 : pron_dict) (c v : str) (vs : list scalar) :
  Forall (λ e, FuzzyMatcherModule.holds v e.2 = Ok false) d1 →
  SStr v ∈ vs →
  FuzzyMatcherModule.normalize (d1 ++ (c, VList vs) :: d2) v = Ok c.
Proof.
  intros Hd1 Hv. induction Hd1 as [|[c' vs'] d1 Hh _ IH]; simpl in *.
  - replace (existsb _ vs) with true; [done|]. symmetry.
    apply existsb_exists. exists (SStr v).
    split; [by apply list_elem_of_In | by apply bool_decide_eq_true].
  - by rewrite Hh.
Qed.

(** C6: if the normalised text [y] of an input contains no variant of the
    table any more (case ignored), normalising [y] again gives [y]. *)
Theorem correct_text_idempotent (d : pron_dict) (x y : str) :
  correct_text d x = Ok y →
  no_variant_in d y →
  correct_text d y = Ok y.
Proof.
  intros E Hno. pose proof (correct_text_is_lower _ _ _ E) as Hlow.
  unfold correct_text in *. unfold no_variant_in in Hno.
  rewrite is_lower_fixed in * by done.
  apply correct_loop_absent; [|done]. by eapply correct_loop_Ok_wf.
Qed.

Lemma correct_text_idempotent_witness :
  correct_text table_tests (py "how to make Expresso") = Ok (py "how to make espresso")
  ∧ correct_text table_tests (py "how to make espresso") = Ok (py "how to make espresso").
Proof.
  split; [reflexivity|].
  apply (correct_text_idempotent table_tests (py "how to make Expresso")).
  - reflexivity.
  - repeat constructor; simpl; rewrite <- contains_spec; by vm_compute.
Defined.

(** The hypothesis of C6 ignores case, as the normaliser does.  Read letter
    for letter it would not be enough: "Ab" does not occur in "abab", and
    yet the entry "Ab" rewrites "abab". *)
Example correct_text_case_matters :
  correct_text [(py "Ab", VStr (py "abab"))] (py "ab") = Ok (py "abab")
  ∧ contains (py "Ab") (py "abab") = false
  ∧ correct_text [(py "Ab", VStr (py "abab"))] (py "abab") = Ok (py "abababab").
Proof. by vm_compute. Qed.

(** ** Topic filter *)

(** C2: the filter reports a text as related exactly when some keyword of
    the set occurs in the lower-cased text. *)
Theorem is_coffee_related_iff (keywords : list str) (text : str) :
  is_coffee_related keywords text = true
  ↔ ∃ kw, kw ∈ keywords ∧ occurs_in kw (lower text).
Proof.
  unfold is_coffee_related. rewrite existsb_exists.
  setoid_rewrite contains_spec. by setoid_rewrite list_elem_of_In.
Qed.

(** A blank line of the keyword file becomes the empty keyword in the
    loader of src/topic_filter.py. *)
Lemma load_keywords_blank (lines : list str) (l : str) :
  l ∈ lines → forallb is_space l = true → [] ∈ load_keywords lines.
Proof.
  intros Hin Hsp. unfold load_keywords. apply list_elem_of_fmap.
  exists l. split; [|done].
  assert (lstrip l = []) as E.
  { clear Hin. induction l as [|c l IH]; [done|]. simpl in *.
    apply andb_true_iff in Hsp as [-> Hsp]. by apply IH. }
  unfold strip. by rewrite E.
Qed.

(** The loader of barista_buddy.py never produces the empty keyword. *)
Lemma load_keywords_main_nonempty (lines : list str) :
  [] ∉ load_keywords_main lines.
Proof.
  unfold load_keywords_main. intros (l & E & Hl)%list_elem_of_fmap.
  apply list_elem_of_filter in Hl as [Hne _].
  destruct (strip l); [done | discriminate].
Qed.

(** C10: with the empty string among the keywords, every text, the empty
    one too, is reported as related. *)
Theorem is_coffee_related_empty_keyword (keywords : list str) (text : str) :
  [] ∈ keywords → is_coffee_related keywords text = true.
Proof.
  intros Hin. unfold is_coffee_related. apply existsb_exists.
  exists []. split; [by apply list_elem_of_In | apply contains_nil].
Qed.

Lemma is_coffee_related_empty_keyword_witness :
  is_coffee_related (load_keywords [py "espresso"; py " "; py "latte"]) [] = true.
Proof.
  apply is_coffee_related_empty_keyword.
  apply (load_keywords_blank _ (py " ")); [set_solver | reflexivity].
Defined.

(** ** difflib: the longest match of a window *)

Section longest_match.
Import Difflib.
Context (a b : str).
Implicit Types (m best : Match) (j2len : gmap nat nat).

Lemma matches_at_0 i j : matches_at a b i j 0.
Proof. intros d Hd. lia. Qed.

Lemma matches_at_eq i j k i' j' k' :
  matches_at a b i j k → i = i' → j = j' → k = k' → matches_at a b i' j' k'.
Proof. by intros ? <- <- <-. Qed.

Lemma same_at_spec i j :
  same_at a b i j = true ↔ ∃ c, a !! i = Some c ∧ b !! j = Some c.
Proof.
  unfold same_at. destruct (a !! i) as [x|], (b !! j) as [y|];
    rewrite ?bool_decide_eq_true; [|split; [done|by intros (? & ? & ?)]..].
  split; [intros ->; eauto | by intros (? & [= ->] & [= ->])].
Qed.

Lemma matches_at_snoc i j k :
  matches_at a b i j k → same_at a b (i + k) (j + k) = true →
  matches_at a b i j (S k).
Proof.
  intros Hm Hs d Hd. destruct (decide (d = k)) as [->|].
  - by apply same_at_spec.
  - apply Hm. lia.
Qed.

Lemma matches_at_cons i j k :
  same_at a b i j = true → matches_at a b (S i) (S j) k →
  matches_at a b i j (S k).
Proof.
  intros Hs Hm [|d] Hd.
  - rewrite !Nat.add_0_r. by apply same_at_spec.
  - replace (i + S d) with (S i + d) by lia.
    replace (j + S d) with (S j + d) by lia. apply Hm. lia.
Qed.

Lemma indices_from_lookup c l j0 j :
  j ∈ indices_from c l j0 → j0 ≤ j ∧ l !! (j - j0) = Some c.
Proof.
  revert j0. induction l as [|x l IH]; intros j0; simpl; [by intros ?%elem_of_nil|].
  intros Hj. assert (j ∈ indices_from c l (S j0) → j0 ≤ j ∧ (x :: l) !! (j - j0) = Some c).
  { intros [? E]%IH. split; [lia|].
    by replace (j - j0) with (S (j - S j0)) by lia. }
  case_bool_decide as Hx; [|by auto].
  apply elem_of_cons in Hj as [->|Hj]; [|by auto].
  split; [done|]. replace (j0 - j0) with 0 by lia. by subst.
Qed.

Lemma b2j_get_lookup c j : j ∈ b2j_get b c → b !! j = Some c.
Proof.
  unfold b2j_get. destruct (popular b c); [by intros ?%elem_of_nil|].
  intros [_ E]%indices_from_lookup. by rewrite Nat.sub_0_r in E.
Qed.

Section row.
Context (alo ahi blo bhi i : nat) (c : ascii).
Hypothesis (Hi : alo ≤ i < ahi) (Hc : a !! i = Some c).

Lemma scan_row_ok js j2len newj2len best :
  Forall (λ j, b !! j = Some c) js →
  runs_end a b alo blo i j2len →
  runs_end a b alo blo (S i) newj2len →
  is_match a b alo ahi blo bhi best →
  runs_end a b alo blo (S i) (scan_row js i blo bhi j2len newj2len best).1
  ∧ is_match a b alo ahi blo bhi (scan_row js i blo bhi j2len newj2len best).2.
Proof.
  intros Hjs Hold. revert newj2len best.
  induction Hjs as [|j js Hj Hjs IH]; intros newj2len best Hnew Hbest; [done|].
  cbn [scan_row]. destruct (j <? blo) eqn:Hlo; [by apply IH|].
  destruct (bhi <=? j) eqn:Hhi; [done|].
  apply Nat.ltb_ge in Hlo. apply Nat.leb_gt in Hhi.
  set (k := j2len_get_pred j2len j + 1).
  assert (1 ≤ k ∧ alo + k ≤ S i ∧ blo + k ≤ j + 1
          ∧ matches_at a b (S i - k) (j + 1 - k) k) as Hk.
  { assert (matches_at a b i j 1) as Hone.
    { intros d Hd. replace d with 0 by lia. rewrite !Nat.add_0_r. eauto. }
    subst k. destruct j as [|j']; cbn [j2len_get_pred].
    { split_and!; try lia. by eapply matches_at_eq; [apply Hone|lia..]. }
    destruct (j2len !! j') as [k'|] eqn:Hk'; cbn [from_option id].
    - destruct (Hold _ _ Hk') as (? & ? & ? & Hm).
      split_and!; try lia.
      eapply (matches_at_eq (i - k') (j' + 1 - k') (S k')); [|lia..].
      apply matches_at_snoc; [done|]. apply same_at_spec. exists c.
      split; [rewrite <- Hc | rewrite <- Hj]; f_equal; lia.
    - split_and!; try lia. by eapply matches_at_eq; [apply Hone|lia..]. }
  apply IH.
  - intros j0 k0. destruct (decide (j = j0)) as [<-|Hne].
    + rewrite lookup_insert_eq. by intros [= <-].
    + rewrite lookup_insert_ne by done. apply Hnew.
  - destruct (m_size best <? k); [|done].
    destruct Hk as (? & ? & ? & Hm). unfold is_match. simpl.
    split_and!; try lia. by eapply matches_at_eq; [apply Hm|lia..].
Qed.
End row.

Lemma scan_rows_ok alo ahi blo bhi n i j2len best :
  alo ≤ i → i + n ≤ ahi → ahi ≤ length a →
  runs_end a b alo blo i j2len →
  is_match a b alo ahi blo bhi best →
  is_match a b alo ahi blo bhi (scan_rows a b (seq i n) blo bhi j2len best).
Proof.
  revert i j2len best. induction n as [|n IH]; intros i j2len best ? ? ? Hruns Hbest; [done|].
  cbn [seq scan_rows].
  destruct (lookup_lt_is_Some_2 a i) as [c Hc]; [lia|]. rewrite Hc.
  destruct (scan_row (b2j_get b c) i blo bhi j2len ∅ best) as [new best'] eqn:E.
  destruct (scan_row_ok alo ahi blo bhi i c ltac:(lia) Hc (b2j_get b c) j2len ∅ best)
    as [Hnew' Hbest'].
  { apply Forall_forall. intros j. apply b2j_get_lookup. }
  { done. }
  { intros j k. by rewrite lookup_empty. }
  { done. }
  rewrite E in Hnew', Hbest'. apply IH; try done; lia.
Qed.

Lemma extend_left_ok alo ahi blo bhi besti bestj bestsize :
  is_match a b alo ahi blo bhi (mkMatch besti bestj bestsize) →
  let m := extend_left a b alo blo besti bestj bestsize in
  is_match a b alo ahi blo bhi m ∧ m_a m + m_size m = besti + bestsize.
Proof.
  revert bestj bestsize. induction besti as [|i' IH]; intros bestj bestsize Hm; simpl.
  { done. }
  destruct bestj as [|j']; [done|].
  destruct ((alo <=? i') && (blo <=? j') && same_at a b i' j') eqn:E; [|done].
  apply andb_true_iff in E as [[Hi Hj]%andb_true_iff Hs].
  apply Nat.leb_le in Hi, Hj.
  destruct Hm as (? & ? & ? & ? & Hm); simpl in *.
  destruct (IH j' (S bestsize)) as [Hm' Hend].
  { unfold is_match; simpl. split_and!; try lia. by apply matches_at_cons. }
  split; [done|]. lia.
Qed.

Lemma extend_right_ok alo ahi blo bhi besti bestj fuel bestsize :
  is_match a b alo ahi blo bhi (mkMatch besti bestj bestsize) →
  is_match a b alo ahi blo bhi
    (mkMatch besti bestj (extend_right a b ahi bhi besti bestj fuel bestsize)).
Proof.
  revert bestsize. induction fuel as [|fuel IH]; intros bestsize Hm; simpl; [done|].
  destruct ((besti + bestsize <? ahi) && (bestj + bestsize <? bhi)
            && same_at a b (besti + bestsize) (bestj + bestsize)) eqn:E; [|done].
  apply andb_true_iff in E as [[Hi Hj]%andb_true_iff Hs].
  apply Nat.ltb_lt in Hi, Hj.
  destruct Hm as (? & ? & ? & ? & Hm); simpl in *.
  apply IH. unfold is_match; simpl. split_and!; try lia.
  by apply matches_at_snoc.
Qed.

(** The loop [extend_right] has stopped by itself when the fuel
    [ahi - (besti + bestsize)] is used up: more fuel changes nothing. *)
Lemma extend_right_fuel ahi bhi besti bestj fuel bestsize :
  ahi - (besti + bestsize) ≤ fuel →
  extend_right a b ahi bhi besti bestj fuel bestsize
  = extend_right a b ahi bhi besti bestj (ahi - (besti + bestsize)) bestsize.
Proof.
  revert bestsize. induction fuel as [|fuel IH]; intros bestsize Hf.
  { by replace (ahi - (besti + bestsize)) with 0 by lia. }
  destruct (decide (besti + bestsize < ahi)) as [Hlt|Hge].
  - replace (ahi - (besti + bestsize)) with (S (ahi - (besti + S bestsize))) by lia.
    simpl. destruct (_ && _ && _); [|done]. apply IH. lia.
  - replace (ahi - (besti + bestsize)) with 0 by lia. simpl.
    by replace (besti + bestsize <? ahi) with false by (symmetry; apply Nat.ltb_ge; lia).
Qed.

(** [find_longest_match] returns a common run of the two windows. *)
Lemma find_longest_match_ok alo ahi blo bhi :
  alo ≤ ahi → ahi ≤ length a → blo ≤ bhi →
  is_match a b alo ahi blo bhi (find_longest_match a b alo ahi blo bhi).
Proof.
  intros ? ? ?. unfold find_longest_match.
  set (m0 := scan_rows _ _ _ _ _ _ _).
  assert (is_match a b alo ahi blo bhi m0) as Hm0.
  { apply scan_rows_ok; try lia.
    - intros j k. by rewrite lookup_empty.
    - unfold is_match; simpl. split_and!; try lia. apply matches_at_0. }
  destruct m0 as [i0 j0 k0]. simpl.
  destruct (extend_left_ok alo ahi blo bhi i0 j0 k0 Hm0) as [Hm1 _].
  destruct (extend_left a b alo blo i0 j0 k0) as [i1 j1 k1]. simpl.
  by apply extend_right_ok.
Qed.

End longest_match.

(** ** difflib: [ratio] is bounded by [quick_ratio] and [real_quick_ratio] *)

Section common.
Implicit Types (x y : str) (X Y : gmultiset ascii).

Lemma size_list_to_set_disj x :
  size (list_to_set_disj x : gmultiset ascii) = length x.
Proof.
  induction x as [|c x IH]; [done|].
  rewrite list_to_set_disj_cons, gmultiset_size_disj_union,
    gmultiset_size_singleton, IH. done.
Qed.

Lemma common_refl x : common x x = length x.
Proof.
  unfold common. rewrite (idemp_L (∩)). apply size_list_to_set_disj.
Qed.

Lemma common_le_l x y : common x y ≤ length x.
Proof.
  unfold common. rewrite <- (size_list_to_set_disj x).
  apply gmultiset_subseteq_size. multiset_solver.
Qed.

Lemma common_le_r x y : common x y ≤ length y.
Proof.
  unfold common. rewrite <- (size_list_to_set_disj y).
  apply gmultiset_subseteq_size. multiset_solver.
Qed.

(** Characters shared piece by piece are shared by the whole. *)
Lemma common_app x1 x2 y1 y2 :
  common x1 y1 + common x2 y2 ≤ common (x1 ++ x2) (y1 ++ y2).
Proof.
  unfold common. rewrite !list_to_set_disj_app, <- gmultiset_size_disj_union.
  apply gmultiset_subseteq_size. multiset_solver.
Qed.

Lemma common_app3 x1 x2 x3 y1 y2 y3 :
  common x1 y1 + common x2 y2 + common x3 y3
  ≤ common (x1 ++ x2 ++ x3) (y1 ++ y2 ++ y3).
Proof.
  pose proof (common_app x1 (x2 ++ x3) y1 (y2 ++ y3)).
  pose proof (common_app x2 x3 y2 y3). lia.
Qed.

(** One more character on the left adds one shared character exactly when
    the right side still has a spare copy. *)
Lemma size_intersection_add X Y c :
  size ((X ⊎ {[+ c +]}) ∩ Y)
  = size (X ∩ Y) + (if decide (multiplicity c X < multiplicity c Y) then 1 else 0).
Proof.
  case_decide as Hc.
  - replace ((X ⊎ {[+ c +]}) ∩ Y) with ((X ∩ Y) ⊎ {[+ c +]}).
    { by rewrite gmultiset_size_disj_union, gmultiset_size_singleton. }
    apply gmultiset_eq. intros z.
    rewrite !multiplicity_intersection, !multiplicity_disj_union,
      !multiplicity_intersection, multiplicity_singleton.
    case_decide; subst; lia.
  - replace ((X ⊎ {[+ c +]}) ∩ Y) with (X ∩ Y); [lia|].
    apply gmultiset_eq. intros z.
    rewrite !multiplicity_intersection, !multiplicity_disj_union,
      multiplicity_singleton.
    case_decide; subst; lia.
Qed.

End common.

Section windows.
Implicit Types (l : str).

Lemma window_full l : window l 0 (length l) = l.
Proof. unfold window. rewrite Nat.sub_0_r. apply firstn_all. Qed.

Lemma window_split l lo mid hi :
  lo ≤ mid ≤ hi → window l lo hi = window l lo mid ++ window l mid hi.
Proof.
  intros ?. unfold window.
  replace (hi - lo) with ((mid - lo) + (hi - mid)) by lia.
  rewrite <- take_take_drop, drop_drop. do 3 f_equal. lia.
Qed.

Lemma window_match a b i j k :
  matches_at a b i j k → window a i (i + k) = window b j (j + k).
Proof.
  intros Hm. unfold window.
  replace (i + k - i) with k by lia. replace (j + k - j) with k by lia.
  apply list_eq. intros d. rewrite !lookup_take, !lookup_drop.
  case_decide as Hd; [|done].
  destruct (Hm d Hd) as (c & -> & ->). done.
Qed.

Lemma window_match_length a b i j k :
  matches_at a b i j k → length (window a i (i + k)) = k.
Proof.
  intros Hm. unfold window. replace (i + k - i) with k by lia.
  rewrite length_take, length_drop.
  destruct k as [|k]; [lia|]. destruct (Hm k) as (c & Ha & _); [lia|].
  apply lookup_lt_Some in Ha. lia.
Qed.

End windows.

Lemma sum_list_cons_app (x : nat) (l1 l2 : list nat) :
  sum_list (x :: l1 ++ l2) = x + sum_list l1 + sum_list l2.
Proof. simpl. rewrite sum_list_with_app. unfold id. lia. Qed.

Section ratio_bounds.
Import Difflib.
Context (a b : str).

(** The blocks found in a window pair are no more than the characters
    that the two windows share. *)
Lemma blocks_sum_le fuel alo ahi blo bhi :
  alo ≤ ahi → ahi ≤ length a → blo ≤ bhi →
  sum_list (map m_size (blocks a b fuel alo ahi blo bhi))
  ≤ common (window a alo ahi) (window b blo bhi).
Proof.
  revert alo ahi blo bhi.
  induction fuel as [|fuel IH]; intros alo ahi blo bhi ? ? ?; [simpl; lia|].
  cbn [blocks].
  pose proof (find_longest_match_ok a b alo ahi blo bhi) as Hm.
  destruct (find_longest_match a b alo ahi blo bhi) as [i j k].
  destruct Hm as (? & ? & ? & ? & Hm); [done..|]. simpl in *.
  destruct (k =? 0); [simpl; lia|].
  rewrite (window_split a alo i ahi), (window_split a i (i + k) ahi) by lia.
  rewrite (window_split b blo j bhi), (window_split b j (j + k) bhi) by lia.
  etrans; [|apply common_app3].
  rewrite <- (window_match a b i j k) by done.
  rewrite common_refl, (window_match_length a b i j k) by done.
  assert (∀ (c : bool) l1 (n : nat),
            (c = true → sum_list (map m_size l1) ≤ n) →
            sum_list (map m_size (if c then l1 else [])) ≤ n) as Hif.
  { intros [] l1 n Hn; [by apply Hn | simpl; lia]. }
  pose proof (Hif ((alo <? i) && (blo <? j)) (blocks a b fuel alo i blo j)
    (common (window a alo i) (window b blo j))
    (λ _, IH alo i blo j ltac:(lia) ltac:(lia) ltac:(lia))) as Hleft.
  pose proof (Hif ((i + k <? ahi) && (j + k <? bhi))
    (blocks a b fuel (i + k) ahi (j + k) bhi)
    (common (window a (i + k) ahi) (window b (j + k) bhi))
    (λ _, IH (i + k) ahi (j + k) bhi ltac:(lia) ltac:(lia) ltac:(lia))) as Hright.
  rewrite map_cons, map_app, sum_list_cons_app. simpl.
  lia.
Qed.

(** The recursion of [blocks] never runs out of fuel once the fuel
    exceeds the width of the window of [a]: more fuel gives the same
    blocks. *)
Lemma blocks_fuel fuel1 fuel2 alo ahi blo bhi :
  alo ≤ ahi → ahi ≤ length a → blo ≤ bhi →
  ahi - alo < fuel1 → ahi - alo < fuel2 →
  blocks a b fuel1 alo ahi blo bhi = blocks a b fuel2 alo ahi blo bhi.
Proof.
  revert fuel2 alo ahi blo bhi.
  induction fuel1 as [|fuel1 IH]; intros [|fuel2] alo ahi blo bhi ? ? ? ? ?;
    try lia.
  cbn [blocks].
  pose proof (find_longest_match_ok a b alo ahi blo bhi) as Hm.
  destruct (find_longest_match a b alo ahi blo bhi) as [i j k].
  destruct Hm as (? & ? & ? & ? & Hm); [done..|]. simpl in *.
  destruct (k =? 0) eqn:Hk0; [done|]. apply Nat.eqb_neq in Hk0.
  f_equal. f_equal.
  - destruct ((alo <? i) && (blo <? j)); [|done]. apply IH; lia.
  - destruct ((i + k <? ahi) && (j + k <? bhi)); [|done]. apply IH; lia.
Qed.

Lemma matching_blocks_fuel fuel :
  length a < fuel →
  blocks a b fuel 0 (length a) 0 (length b) = matching_blocks a b.
Proof. intros ?. apply blocks_fuel; lia. Qed.

Lemma matching_blocks_sum_le :
  sum_list (map m_size (matching_blocks a b)) ≤ common a b.
Proof.
  unfold matching_blocks.
  pose proof (blocks_sum_le (S (length a)) 0 (length a) 0 (length b)) as H.
  rewrite !window_full in H. apply H; lia.
Qed.

Lemma fullbcount_multiplicity c :
  default 0 (fullbcount b !! c) = multiplicity c (list_to_set_disj b : gmultiset ascii).
Proof.
  unfold fullbcount.
  assert (∀ l (m : gmap ascii nat),
    default 0 (foldl (λ m elt, <[elt := default 0 (m !! elt) + 1]> m) m l !! c)
    = default 0 (m !! c) + multiplicity c (list_to_set_disj l : gmultiset ascii)) as H.
  { induction l as [|x l IH]; intros m; simpl.
    - rewrite multiplicity_empty. lia.
    - rewrite IH, multiplicity_disj_union, multiplicity_singleton.
      destruct (decide (c = x)) as [->|Hne].
      + rewrite lookup_insert_eq. simpl. lia.
      + rewrite lookup_insert_ne by done. lia. }
  rewrite H, lookup_empty. done.
Qed.

(** The loop of [quick_ratio], started after the characters [X] of [a]
    have been seen, counts the characters shared with [b]. *)
Lemma quick_loop_spec (X : gmultiset ascii) (avail : gmap ascii Z) matches l :
  (∀ c, match avail !! c with
        | Some n => n = (Z.of_nat (multiplicity c (list_to_set_disj b : gmultiset ascii))
                         - Z.of_nat (multiplicity c X))%Z
        | None => multiplicity c X = 0
        end) →
  matches = size (X ∩ list_to_set_disj b) →
  quick_loop (fullbcount b) avail matches l
  = size ((X ⊎ list_to_set_disj l) ∩ list_to_set_disj b).
Proof.
  revert X avail matches. induction l as [|x l IH]; intros X avail matches Hav Hm.
  { simpl. by rewrite (right_id_L ∅ (⊎)). }
  cbn [quick_loop]. set (B := list_to_set_disj b : gmultiset ascii) in *.
  set (numb := match avail !! x with Some n => n | None => _ end).
  assert (numb = (Z.of_nat (multiplicity x B) - Z.of_nat (multiplicity x X))%Z) as Hn.
  { subst numb. specialize (Hav x). destruct (avail !! x) as [n|]; [done|].
    subst B. rewrite fullbcount_multiplicity. lia. }
  rewrite (IH (X ⊎ {[+ x +]})).
  - f_equal. rewrite list_to_set_disj_cons. f_equal. multiset_solver.
  - intros c. destruct (decide (x = c)) as [<-|Hne].
    + rewrite lookup_insert_eq, multiplicity_disj_union, multiplicity_singleton_eq. lia.
    + rewrite lookup_insert_ne by done. specialize (Hav c).
      rewrite multiplicity_disj_union, multiplicity_singleton_ne by done.
      destruct (avail !! c); lia.
  - rewrite size_intersection_add, Hm. fold B.
    destruct (0 <? numb)%Z eqn:Hpos; case_decide; lia.
Qed.

Lemma quick_loop_common : quick_loop (fullbcount b) ∅ 0 a = common a b.
Proof.
  rewrite (quick_loop_spec ∅).
  - unfold common. by rewrite (left_id_L ∅ (⊎)).
  - intros c. by rewrite lookup_empty, multiplicity_empty.
  - by rewrite (left_absorb_L ∅ (∩)).
Qed.

Lemma calculate_ratio_mono m1 m2 t :
  m1 ≤ m2 → (calculate_ratio m1 t <= calculate_ratio m2 t)%Q.
Proof.
  intros Hle. destruct t as [|t]; simpl; [apply Qle_refl|].
  unfold Qle. simpl. nia.
Qed.

(** [quick_ratio] is an upper bound of [ratio]. *)
Lemma ratio_le_quick_ratio : (ratio a b <= quick_ratio a b)%Q.
Proof.
  unfold ratio, quick_ratio. apply calculate_ratio_mono.
  rewrite quick_loop_common. apply matching_blocks_sum_le.
Qed.

(** [real_quick_ratio] is an upper bound of [ratio]. *)
Lemma ratio_le_real_quick_ratio : (ratio a b <= real_quick_ratio a b)%Q.
Proof.
  unfold ratio, real_quick_ratio. apply calculate_ratio_mono.
  pose proof matching_blocks_sum_le.
  pose proof (common_le_l a b). pose proof (common_le_r a b). lia.
Qed.

(** The three tests of [get_close_matches] amount to the last one. *)
Lemma close_enough_iff cutoff :
  close_enough b cutoff a = true ↔ (cutoff <= ratio a b)%Q.
Proof.
  unfold close_enough. rewrite !andb_true_iff, !Qle_bool_iff. split; [tauto|].
  intros Hc. split_and!; [|  |done].
  - eapply Qle_trans; [done|]. apply ratio_le_real_quick_ratio.
  - eapply Qle_trans; [done|]. apply ratio_le_quick_ratio.
Qed.

End ratio_bounds.

(** ** The order of Python on strings and on (score, string) tuples *)

Section str_order.
Implicit Types s t u : str.

Lemma compare_refl s : Str.compare s s = Eq.
Proof. induction s as [|x s IH]; [done|]. simpl. by rewrite Nat.compare_refl. Qed.

Lemma compare_eq s t : Str.compare s t = Eq → s = t.
Proof.
  revert t. induction s as [|x s IH]; intros [|y t]; simpl; try done.
  destruct (Nat.compare_spec (nat_of_ascii x) (nat_of_ascii y)) as [E| |]; try done.
  intros ->%IH. f_equal.
  by rewrite <- (ascii_nat_embedding x), <- (ascii_nat_embedding y), E.
Qed.

Lemma compare_antisym s t : Str.compare t s = CompOpp (Str.compare s t).
Proof.
  revert t. induction s as [|x s IH]; intros [|y t]; simpl; try done.
  rewrite (Nat.compare_antisym (nat_of_ascii x)).
  destruct (nat_of_ascii x ?= nat_of_ascii y); simpl; auto.
Qed.

Lemma compare_lt_trans s t u :
  Str.compare s t = Lt → Str.compare t u = Lt → Str.compare s u = Lt.
Proof.
  revert t u. induction s as [|x s IH]; intros [|y t] [|z u]; simpl; try done.
  destruct (Nat.compare_spec (nat_of_ascii x) (nat_of_ascii y)),
           (Nat.compare_spec (nat_of_ascii y) (nat_of_ascii z)),
           (Nat.compare_spec (nat_of_ascii x) (nat_of_ascii z));
    try done; try lia; eauto.
Qed.

Lemma compare_ge_trans s t u :
  Str.compare s t ≠ Lt → Str.compare t u ≠ Lt → Str.compare s u ≠ Lt.
Proof.
  intros Hst Htu Hsu.
  destruct (Str.compare s t) eqn:E1; [|done|].
  { apply compare_eq in E1 as ->. done. }
  destruct (Str.compare t u) eqn:E2; [|done|].
  { apply compare_eq in E2 as ->. congruence. }
  assert (Str.compare t s = Lt) as E1' by (by rewrite compare_antisym, E1).
  assert (Str.compare u t = Lt) as E2' by (by rewrite compare_antisym, E2).
  pose proof (compare_lt_trans _ _ _ E2' E1') as E3.
  rewrite compare_antisym, Hsu in E3. done.
Qed.

End str_order.

Section tuple_order.
Import Difflib.
Implicit Types p q r : Q * str.

Lemma tuple_lt_spec p q :
  tuple_lt p q = true
  ↔ (p.1 < q.1)%Q ∨ ((p.1 == q.1)%Q ∧ Str.compare p.2 q.2 = Lt).
Proof.
  unfold tuple_lt, tuple_compare. rewrite Qlt_alt, Qeq_alt.
  destruct (p.1 ?= q.1)%Q; [|intuition discriminate..].
  destruct (Str.compare p.2 q.2); intuition discriminate.
Qed.

Lemma tuple_ge_spec p q :
  tuple_ge p q
  ↔ (q.1 < p.1)%Q ∨ ((q.1 == p.1)%Q ∧ Str.compare p.2 q.2 ≠ Lt).
Proof.
  unfold tuple_ge, tuple_lt, tuple_compare.
  rewrite Qlt_alt, Qeq_alt, <- (Qcompare_antisym p.1 q.1).
  destruct (p.1 ?= q.1)%Q; simpl; [|intuition discriminate..].
  destruct (Str.compare p.2 q.2); intuition discriminate.
Qed.

Lemma tuple_ge_score p q : tuple_ge p q → (q.1 <= p.1)%Q.
Proof.
  intros [H|[H _]]%tuple_ge_spec; [by apply Qlt_le_weak|].
  rewrite H. apply Qle_refl.
Qed.

Lemma tuple_ge_trans p q r : tuple_ge p q → tuple_ge q r → tuple_ge p r.
Proof.
  rewrite !tuple_ge_spec. intros [H1|[H1 S1]] [H2|[H2 S2]].
  - left. by eapply Qlt_trans.
  - left. by rewrite H2.
  - left. by rewrite <- H1.
  - right. split; [by rewrite H2|]. by eapply compare_ge_trans.
Qed.

Lemma tuple_lt_ge p q : tuple_lt p q = true → tuple_ge q p.
Proof.
  rewrite tuple_lt_spec, tuple_ge_spec. intros [H|[H S]]; [by left|].
  right. split; [done|]. rewrite compare_antisym, S. done.
Qed.

Lemma insert_desc_perm p l : insert_desc p l ≡ₚ p :: l.
Proof.
  induction l as [|q l IH]; [done|]. simpl.
  destruct (tuple_lt p q); [|done]. rewrite IH. apply Permutation_swap.
Qed.

Lemma sorted_desc_perm l : sorted_desc l ≡ₚ l.
Proof.
  induction l as [|p l IH]; [done|]. simpl.
  by rewrite insert_desc_perm, IH.
Qed.

Lemma insert_desc_sorted p l :
  StronglySorted tuple_ge l → StronglySorted tuple_ge (insert_desc p l).
Proof.
  induction 1 as [|q l Hl IH Hq]; simpl.
  { repeat constructor. }
  destruct (tuple_lt p q) eqn:E.
  - constructor; [done|]. rewrite insert_desc_perm.
    constructor; [by apply tuple_lt_ge | done].
  - constructor; [by constructor|]. constructor; [done|].
    eapply Forall_impl; [done|]. intros r Hr. by eapply tuple_ge_trans.
Qed.

Lemma sorted_desc_sorted l : StronglySorted tuple_ge (sorted_desc l).
Proof.
  induction l as [|p l IH]; simpl; [constructor|]. by apply insert_desc_sorted.
Qed.

Lemma StronglySorted_lookup {A} (R : A → A → Prop) (l : list A) i j x y :
  StronglySorted R l → i < j → l !! i = Some x → l !! j = Some y → R x y.
Proof.
  intros Hs. revert i j. induction Hs as [|z l Hl IH Hz]; intros i j Hij Hi Hj.
  { done. }
  destruct j as [|j]; [lia|]. destruct i as [|i]; simpl in *.
  - injection Hi as ->. rewrite Forall_forall in Hz. apply Hz.
    by eapply list_elem_of_lookup_2.
  - eapply IH; [|done..]. lia.
Qed.

End tuple_order.

(** ** The knowledge dict *)

Section dict.
Implicit Types (d : knowledge) (k v : str).

Lemma dict_set_keys k v d :
  map fst (dict_set k v d)
  = if bool_decide (k ∈ map fst d) then map fst d else map fst d ++ [k].
Proof.
  induction d as [|[k' v'] d IH]; cbn [dict_set map fst].
  { by rewrite bool_decide_eq_false_2 by apply not_elem_of_nil. }
  destruct (decide (k' = k)) as [->|Hk].
  - rewrite bool_decide_eq_true_2 by done.
    by rewrite (bool_decide_eq_true_2 (k ∈ _)) by apply list_elem_of_here.
  - rewrite bool_decide_eq_false_2 by done. cbn [map fst]. rewrite IH.
    destruct (decide (k ∈ map fst d)) as [Hin|Hin].
    + rewrite (bool_decide_eq_true_2 (k ∈ map fst d)) by done.
      by rewrite (bool_decide_eq_true_2 (k ∈ _ :: _))
        by by apply list_elem_of_further.
    + rewrite (bool_decide_eq_false_2 (k ∈ map fst d)) by done.
      rewrite (bool_decide_eq_false_2 (k ∈ _ :: _)); [done|].
      intros [->|?]%elem_of_cons; done.
Qed.

Lemma dict_set_NoDup k v d :
  NoDup (map fst d) → NoDup (map fst (dict_set k v d)).
Proof.
  intros Hd. rewrite dict_set_keys. case_bool_decide as Hin; [done|].
  apply NoDup_app. split_and!; [done| |apply NoDup_singleton].
  intros x Hx ->%list_elem_of_singleton. done.
Qed.

Lemma elem_of_dict_set k v d k' v' :
  (k', v') ∈ dict_set k v d → (k' = k ∧ v' = v) ∨ (k', v') ∈ d.
Proof.
  induction d as [|[k0 v0] d IH]; simpl.
  { intros [= -> ->]%list_elem_of_singleton. by left. }
  case_bool_decide as Hk.
  - subst k0. intros [[= -> ->]|?]%elem_of_cons; [by left|].
    right. by apply list_elem_of_further.
  - intros [[= -> ->]|[?|?]%IH]%elem_of_cons.
    + right. apply list_elem_of_here.
    + by left.
    + right. by apply list_elem_of_further.
Qed.

Lemma dict_get_key k d :
  k ∈ map fst d → ∃ v, dict_get k d = Ok v ∧ (k, v) ∈ d.
Proof.
  induction d as [|[k' v'] d IH]; simpl; [by intros ?%elem_of_nil|].
  intros Hin. case_bool_decide as Hk.
  - subst k'. exists v'. split; [done | apply list_elem_of_here].
  - apply elem_of_cons in Hin as [->|Hin]; [done|].
    destruct (IH Hin) as (v & -> & ?). exists v.
    split; [done | by apply list_elem_of_further].
Qed.

Lemma dict_get_elem k v d :
  NoDup (map fst d) → (k, v) ∈ d → dict_get k d = Ok v.
Proof.
  induction d as [|[k' v'] d IH]; simpl; [by intros _ ?%elem_of_nil|].
  intros [Hk' Hd]%NoDup_cons [[= -> ->]|Hin]%elem_of_cons.
  - by rewrite bool_decide_eq_true_2.
  - rewrite bool_decide_eq_false_2; [by apply IH|].
    intros ->. apply Hk'. apply list_elem_of_fmap. by exists (k, v).
Qed.

End dict.

Section loading.
Import Retrieval.
Implicit Types (d : knowledge) (it : item) (kl : list item).

Lemma lower_nil_iff (s : str) : lower s = [] ↔ s = [].
Proof. by destruct s. Qed.

Lemma complete_spec it :
  complete it = true
  ↔ lower (default [] (it !! "question"%string)) ≠ []
    ∧ default [] (it !! "answer"%string) ≠ [].
Proof.
  unfold complete, has_text. rewrite andb_true_iff, lower_nil_iff.
  destruct (it !! "question"%string) as [[|]|], (it !! "answer"%string) as [[|]|];
    simpl; intuition discriminate.
Qed.

Lemma load_item_complete d it :
  complete it = true →
  load_item d it
  = dict_set (lower (default [] (it !! "question"%string)))
      (default [] (it !! "answer"%string)) d.
Proof.
  intros [Hq Ha]%complete_spec. unfold load_item.
  by rewrite !bool_decide_eq_true_2.
Qed.

Lemma load_item_incomplete d it : complete it = false → load_item d it = d.
Proof.
  intros Hc. unfold load_item.
  destruct (bool_decide _ && bool_decide _) eqn:E; [|done].
  apply andb_true_iff in E as [Hq%bool_decide_eq_true Ha%bool_decide_eq_true].
  assert (complete it = true) by by apply complete_spec. congruence.
Qed.

Lemma load_filter d kl :
  foldl load_item d kl = foldl load_item d (filter (λ it, complete it = true) kl).
Proof.
  revert d. induction kl as [|it kl IH]; intros d; [done|].
  rewrite filter_cons. simpl. case_decide as Hc; simpl.
  - apply IH.
  - apply not_true_is_false in Hc. rewrite load_item_incomplete by done. apply IH.
Qed.

Lemma load_NoDup d kl :
  NoDup (map fst d) → NoDup (map fst (foldl load_item d kl)).
Proof.
  revert d. induction kl as [|it kl IH]; intros d Hd; [done|].
  simpl. apply IH. unfold load_item.
  destruct (_ && _); [by apply dict_set_NoDup | done].
Qed.

Lemma load_elem d kl q a :
  (q, a) ∈ foldl load_item d kl →
  (q, a) ∈ d
  ∨ ∃ it, it ∈ kl ∧ complete it = true
          ∧ lower (default [] (it !! "question"%string)) = q
          ∧ default [] (it !! "answer"%string) = a.
Proof.
  revert d. induction kl as [|it kl IH]; intros d; simpl; [by left|].
  intros [Hin|(it' & ? & ?)]%IH.
  - destruct (complete it) eqn:Hc.
    + rewrite load_item_complete in Hin by done.
      apply elem_of_dict_set in Hin as [[-> ->]|?]; [|by left].
      right. exists it. split_and!; [apply list_elem_of_here|done..].
    + rewrite load_item_incomplete in Hin by done. by left.
  - right. exists it'. split; [by apply list_elem_of_further | done].
Qed.

Lemma init_NoDup kl c : NoDup (map fst (knowledge_dict (init kl c))).
Proof. apply load_NoDup. constructor. Qed.

End loading.

(** C9: after loading, every stored question and answer is non-empty and
    every stored question is lower-cased; each stored pair comes from a
    complete record of the input; and the records with an empty or missing
    question or answer leave no trace: the mapping is the one that the
    complete records alone produce. *)
Theorem init_stores_complete_records (knowledge_list : list item) (cutoff : Q) :
  let d := knowledge_dict (Retrieval.init knowledge_list cutoff) in
  Forall (λ e, e.1 ≠ [] ∧ e.2 ≠ [] ∧ lower e.1 = e.1) d
  ∧ (∀ q a, (q, a) ∈ d →
       ∃ it, it ∈ knowledge_list ∧ complete it = true
             ∧ lower (default [] (it !! "question"%string)) = q
             ∧ default [] (it !! "answer"%string) = a)
  ∧ d = knowledge_dict
          (Retrieval.init (filter (λ it, complete it = true) knowledge_list) cutoff).
Proof.
  simpl.
  assert (∀ q a, (q, a) ∈ foldl Retrieval.load_item [] knowledge_list →
       ∃ it, it ∈ knowledge_list ∧ complete it = true
             ∧ lower (default [] (it !! "question"%string)) = q
             ∧ default [] (it !! "answer"%string) = a) as Hsrc.
  { intros q a [Hin|Hit]%load_elem; [by apply elem_of_nil in Hin | done]. }
  split_and!; [|done|apply load_filter].
  apply Forall_forall. intros [q a] (it & _ & [Hq Ha]%complete_spec & <- & <-)%Hsrc.
  simpl. split_and!; [done..|apply lower_idemp].
Qed.

(** ** difflib: [nlargest] and [get_close_matches] *)

Section close_matches.
Import Difflib.
Implicit Types (p q : Q * str) (l : list (Q * str)).

Lemma nlargest_length n l : length (nlargest n l) = n `min` length l.
Proof.
  unfold nlargest. by rewrite length_take, (Permutation_length (sorted_desc_perm l)).
Qed.

Lemma nlargest_elem n l p : p ∈ nlargest n l → p ∈ l.
Proof.
  unfold nlargest. intros (i & Hi & _)%elem_of_take.
  rewrite <- (sorted_desc_perm l). by eapply list_elem_of_lookup_2.
Qed.

Lemma nlargest_sorted n l : StronglySorted tuple_ge (nlargest n l).
Proof.
  unfold nlargest. pose proof (sorted_desc_sorted l) as Hs.
  rewrite <- (take_drop n (sorted_desc l)) in Hs.
  by apply StronglySorted_app_1_l in Hs.
Qed.

(** What [nlargest] leaves out is no larger than what it keeps, and it
    leaves something out only when it is full. *)
Lemma nlargest_complete n l p :
  p ∈ l →
  p ∈ nlargest n l
  ∨ (length (nlargest n l) = n ∧ ∀ q, q ∈ nlargest n l → tuple_ge q p).
Proof.
  unfold nlargest. intros Hp. pose proof (sorted_desc_sorted l) as Hs.
  rewrite <- (sorted_desc_perm l), <- (take_drop n (sorted_desc l)) in Hp.
  rewrite <- (take_drop n (sorted_desc l)) in Hs.
  apply elem_of_app in Hp as [Hp|Hp]; [by left|]. right. split.
  - rewrite length_take. apply list_elem_of_lookup_1 in Hp as [i Hi].
    apply lookup_lt_Some in Hi. rewrite length_drop in Hi. lia.
  - intros q Hq. by eapply StronglySorted_app_1_elem_of.
Qed.

Lemma elem_of_scored word cutoff poss p :
  p ∈ scored word cutoff poss
  ↔ ∃ x, p = (ratio x word, x) ∧ x ∈ poss ∧ (cutoff <= ratio x word)%Q.
Proof.
  unfold scored. rewrite list_elem_of_fmap.
  setoid_rewrite list_elem_of_filter. setoid_rewrite close_enough_iff.
  split; intros (x & -> & ? & ?); by exists x.
Qed.

Lemma scored_snd word cutoff poss :
  map snd (scored word cutoff poss)
  = filter (λ x, close_enough word cutoff x = true) poss.
Proof.
  unfold scored. induction (filter _ poss) as [|x l IH]; [done|].
  simpl. by rewrite IH.
Qed.

Lemma scored_length word cutoff poss :
  length (scored word cutoff poss)
  = length (filter (λ x, Qle_bool cutoff (ratio x word) = true) poss).
Proof.
  unfold scored. rewrite length_map. f_equal. apply list_filter_iff.
  intros x. by rewrite close_enough_iff, Qle_bool_iff.
Qed.

Lemma get_close_matches_Ok word poss n cutoff :
  valid_cutoff cutoff → (1 ≤ n)%Z →
  get_close_matches word poss n cutoff
  = Ok (map snd (nlargest (Z.to_nat n) (scored word cutoff poss))).
Proof.
  intros [H0 H1] Hn. unfold get_close_matches.
  replace (0 <? n)%Z with true by (symmetry; apply Z.ltb_lt; lia). simpl.
  apply Qle_bool_iff in H0, H1. by rewrite H0, H1.
Qed.

Lemma get_close_matches_bad_n word poss n cutoff :
  (n ≤ 0)%Z → get_close_matches word poss n cutoff = Raise ValueError.
Proof.
  intros Hn. unfold get_close_matches.
  by replace (0 <? n)%Z with false by (symmetry; apply Z.ltb_ge; lia).
Qed.

End close_matches.

(** ** Answer retriever *)

Section retriever.
Import Difflib Retrieval.
Implicit Types (rs : RetrievalSystem) (query : str) (h : hit).

Lemma mapM_Ok {A B} (f : A → result B) (l : list A) :
  (∀ x, x ∈ l → ∃ y, f x = Ok y) →
  ∃ k, mapM f l = Ok k ∧ Forall2 (λ x y, f x = Ok y) l k.
Proof.
  induction l as [|x l IH]; intros Hl; simpl.
  { exists []. by split. }
  destruct (Hl x) as [y Hy]; [apply list_elem_of_here|].
  destruct IH as (k & Hk & HF).
  { intros x' ?. apply Hl. by apply list_elem_of_further. }
  exists (y :: k). rewrite Hy. simpl. rewrite Hk. simpl.
  split; [done | by constructor].
Qed.

Lemma Forall2_impl_elem {A B} (P P' : A → B → Prop) (l : list A) (k : list B) :
  Forall2 P l k → (∀ x y, x ∈ l → P x y → P' x y) → Forall2 P' l k.
Proof.
  induction 1 as [|x y l k Hxy HF IH]; intros Himp; constructor.
  - apply Himp; [apply list_elem_of_here | done].
  - apply IH. intros x' y' ?. apply Himp. by apply list_elem_of_further.
Qed.

Lemma retrieve_Ok rs query top_k :
  valid_cutoff (cutoff rs) → (1 ≤ top_k)%Z →
  ∃ res, retrieve rs query top_k = Ok res
    ∧ Forall2 (λ p h, question h = p.2 ∧ p.1 = score query p.2
                      ∧ (cutoff rs <= p.1)%Q
                      ∧ (p.2, answer h) ∈ knowledge_dict rs)
        (nlargest (Z.to_nat top_k) (candidates rs query)) res.
Proof.
  intros Hc Hk. unfold retrieve.
  rewrite get_close_matches_Ok by done. simpl.
  fold (candidates rs query).
  set (top := nlargest _ _).
  assert (∀ p, p ∈ top → p.1 = score query p.2 ∧ (cutoff rs <= p.1)%Q
                         ∧ p.2 ∈ map fst (knowledge_dict rs)) as Htop.
  { intros p (x & -> & ? & ?)%nlargest_elem%elem_of_scored. done. }
  destruct (mapM_Ok (λ k, v ← dict_get k (knowledge_dict rs); Ok (mkHit k v))
              (map snd top)) as (res & -> & HF).
  { intros k (p & -> & Hp)%list_elem_of_fmap.
    destruct (Htop p Hp) as (_ & _ & Hin).
    destruct (dict_get_key _ _ Hin) as (v & -> & _). simpl. eauto. }
  exists res. split; [done|].
  apply Forall2_fmap_l in HF. eapply Forall2_impl_elem; [done|].
  intros p h Hp Hh. simpl in Hh. destruct (Htop p Hp) as (? & ? & Hin).
  destruct (dict_get_key _ _ Hin) as (v & Hv & ?).
  rewrite Hv in Hh. simpl in Hh. injection Hh as <-. done.
Qed.

End retriever.

Section retrieve_spec.
Import Difflib Retrieval.
Context (rs : RetrievalSystem) (query : str) (top_k : Z).
Hypothesis (Hcut : valid_cutoff (cutoff rs)) (Hk : (1 ≤ top_k)%Z).
Hypothesis (Hkeys : NoDup (map fst (knowledge_dict rs))).

Lemma retrieve_ranked :
  ∃ res, retrieve rs query top_k = Ok res
    ∧ Forall2 (λ p h, question h = p.2 ∧ p.1 = score query p.2
                      ∧ (cutoff rs <= p.1)%Q
                      ∧ (p.2, answer h) ∈ knowledge_dict rs)
        (nlargest (Z.to_nat top_k) (candidates rs query)) res.
Proof. by apply retrieve_Ok. Qed.

Lemma candidate_of_entry x a :
  (x, a) ∈ knowledge_dict rs → (cutoff rs <= score query x)%Q →
  (score query x, x) ∈ candidates rs query.
Proof.
  intros Hin Hs. apply elem_of_scored. exists x. split_and!; [done| |done].
  apply list_elem_of_fmap. by exists (x, a).
Qed.

Lemma retrieve_properties :
  ∃ res, retrieve rs query top_k = Ok res
    ∧ length res ≤ Z.to_nat top_k
    ∧ (∀ h, h ∈ res →
         (question h, answer h) ∈ knowledge_dict rs
         ∧ (cutoff rs <= score query (question h))%Q)
    ∧ (∀ i j hi hj, i < j → res !! i = Some hi → res !! j = Some hj →
         tuple_ge (score query (question hi), question hi)
                  (score query (question hj), question hj))
    ∧ (∀ x a, (x, a) ∈ knowledge_dict rs → (cutoff rs <= score query x)%Q →
         mkHit x a ∈ res
         ∨ (length res = Z.to_nat top_k
            ∧ ∀ h, h ∈ res →
                tuple_ge (score query (question h), question h) (score query x, x)))
    ∧ NoDup (map question res)
    ∧ length res
      = Z.to_nat top_k
        `min` length (filter (λ x, Qle_bool (cutoff rs) (score query x) = true)
                        (map fst (knowledge_dict rs))).
Proof.
  destruct retrieve_ranked as (res & Hres & HF). exists res.
  set (top := nlargest (Z.to_nat top_k) (candidates rs query)) in *.
  assert (∀ i p h, top !! i = Some p → res !! i = Some h →
            p = (score query (question h), question h)
            ∧ (question h, answer h) ∈ knowledge_dict rs
            ∧ (cutoff rs <= score query (question h))%Q) as Hrel.
  { intros i [s x] h Hp Hh.
    destruct (Forall2_lookup_lr _ _ _ _ _ _ HF Hp Hh) as (Hq & Hs & Hc & Hin).
    simpl in *. subst. done. }
  assert (∀ i h, res !! i = Some h → ∃ p, top !! i = Some p) as Hback.
  { intros i h Hh.
    destruct (Forall2_lookup_r _ _ _ _ _ HF Hh) as (p & ? & _). eauto. }
  assert (length res = length top) as Hlen by (symmetry; by eapply Forall2_length).
  split_and!; [done|..].
  - rewrite Hlen. unfold top. rewrite nlargest_length. lia.
  - intros h [i Hh]%list_elem_of_lookup_1. destruct (Hback _ _ Hh) as [p Hp].
    by destruct (Hrel _ _ _ Hp Hh) as (_ & ? & ?).
  - intros i j hi hj Hij Hi Hj.
    destruct (Hback _ _ Hi) as [pi Hpi]. destruct (Hback _ _ Hj) as [pj Hpj].
    destruct (Hrel _ _ _ Hpi Hi) as (<- & _). destruct (Hrel _ _ _ Hpj Hj) as (<- & _).
    eapply StronglySorted_lookup; [apply nlargest_sorted|done..].
  - intros x a Hin Hs.
    destruct (nlargest_complete (Z.to_nat top_k) _ _ (candidate_of_entry x a Hin Hs))
      as [Htop|[Hfull Hge]].
    + left. apply list_elem_of_lookup_1 in Htop as [i Hp].
      destruct (Forall2_lookup_l _ _ _ _ _ HF Hp) as (h & Hh & Hq & _ & _ & Hin').
      simpl in *. apply list_elem_of_lookup. exists i. rewrite Hh. f_equal.
      destruct h as [q' a']; simpl in *. subst q'. f_equal.
      pose proof (dict_get_elem _ _ _ Hkeys Hin) as E1.
      pose proof (dict_get_elem _ _ _ Hkeys Hin') as E2. congruence.
    + right. split; [by rewrite Hlen|].
      intros h [i Hh]%list_elem_of_lookup_1. destruct (Hback _ _ Hh) as [p Hp].
      destruct (Hrel _ _ _ Hp Hh) as (-> & _). apply Hge.
      by eapply list_elem_of_lookup_2.
  - assert (map question res = map snd top) as ->.
    { apply list_eq. intros i. rewrite !list_lookup_fmap.
      destruct (res !! i) as [h|] eqn:Hh; simpl.
      - destruct (Hback _ _ Hh) as [p Hp]. rewrite Hp. simpl.
        by destruct (Hrel _ _ _ Hp Hh) as (-> & _).
      - apply lookup_ge_None in Hh. rewrite Hlen in Hh.
        apply lookup_ge_None in Hh. by rewrite Hh. }
    unfold top, nlargest.
    eapply sublist_NoDup; [|apply fmap_sublist, sublist_take].
    rewrite sorted_desc_perm. unfold candidates.
    rewrite scored_snd. by apply NoDup_filter.
  - rewrite Hlen. unfold top. rewrite nlargest_length.
    unfold candidates. by rewrite scored_length.
Qed.

End retrieve_spec.

Lemma retrieve_Ok_inv (rs : RetrievalSystem) (query : str) (top_k : Z) res :
  Retrieval.retrieve rs query top_k = Ok res →
  valid_cutoff (cutoff rs) ∧ (1 ≤ top_k)%Z.
Proof.
  unfold Retrieval.retrieve, Difflib.get_close_matches.
  destruct (0 <? top_k)%Z eqn:Hk; simpl; [|done].
  apply Z.ltb_lt in Hk.
  destruct (Qle_bool 0 (cutoff rs)) eqn:H0, (Qle_bool (cutoff rs) 1) eqn:H1;
    simpl; try done.
  intros _. apply Qle_bool_iff in H0, H1. split; [by split | lia].
Qed.

Lemma valid_cutoff_half : valid_cutoff (1 # 2).
Proof. by split. Qed.

(** C3: for a cutoff in [0,1] and [top_k >= 1], [retrieve] returns
    distinct entries of the knowledge base, each scoring at or above the
    cutoff, in order of non-increasing score, at most [top_k] of them and
    as many as qualify up to that number; an entry that qualifies and is
    left out scores no higher than any entry returned; and nothing is
    returned when no entry qualifies. *)
Theorem retrieve_top_k (knowledge_list : list item) (c : Q)
    (query : str) (top_k : Z) :
  valid_cutoff c → (1 ≤ top_k)%Z →
  let rs := Retrieval.init knowledge_list c in
  let qualifying :=
    filter (λ x, Qle_bool c (score query x) = true) (map fst (knowledge_dict rs)) in
  ∃ res, Retrieval.retrieve rs query top_k = Ok res
    ∧ length res = Z.to_nat top_k `min` length qualifying
    ∧ length res ≤ Z.to_nat top_k
    ∧ NoDup (map question res)
    ∧ (∀ h, h ∈ res →
         (question h, answer h) ∈ knowledge_dict rs
         ∧ (c <= score query (question h))%Q)
    ∧ (∀ i j hi hj, i < j → res !! i = Some hi → res !! j = Some hj →
         (score query (question hj) <= score query (question hi))%Q)
    ∧ (∀ x a, (x, a) ∈ knowledge_dict rs → (c <= score query x)%Q →
         mkHit x a ∈ res
         ∨ (length res = Z.to_nat top_k
            ∧ ∀ h, h ∈ res → (score query x <= score query (question h))%Q))
    ∧ (qualifying = [] → res = []).
Proof.
  intros Hc Hk rs qualifying.
  destruct (retrieve_properties rs query top_k Hc Hk (init_NoDup _ _))
    as (res & Hres & Hle & Hin & Hsort & Hex & Hnd & Hlen).
  exists res. split_and!; try done.
  - intros i j hi hj Hij Hi Hj.
    by apply (tuple_ge_score _ _ (Hsort i j hi hj Hij Hi Hj)).
  - intros x a Hx Hs. destruct (Hex x a Hx Hs) as [?|[Hfull Hge]]; [by left|].
    right. split; [done|]. intros h Hh. by apply (tuple_ge_score _ _ (Hge h Hh)).
  - intros Hq.
    assert (length res = Z.to_nat top_k `min` length qualifying) as Hlen'
      by exact Hlen.
    rewrite Hq in Hlen'. simpl in Hlen'. apply length_zero_iff_nil. lia.
Qed.

Lemma retrieve_top_k_witness :
  ∃ res, Retrieval.retrieve (Retrieval.init kb_coffee (1 # 2))
           (py "How to make a Latte") 1 = Ok res
    ∧ length res ≤ 1.
Proof.
  destruct (retrieve_top_k kb_coffee (1 # 2) (py "How to make a Latte") 1)
    as (res & Hres & _ & Hle & _); [apply valid_cutoff_half | lia |].
  exists res. split; [exact Hres | exact Hle].
Defined.

(** ** The single-best retriever *)

Section single_best.
Import RetrievalModule.
Implicit Types (kn : list item) (it : item).

Lemma getitem_Ok it key v : getitem it key = Ok v ↔ it !! key = Some v.
Proof. unfold getitem. destruct (it !! key); split; congruence. Qed.

Lemma best_loop_first_max query kn s0 a0 s a :
  best_loop query kn s0 a0 = Ok (s, a) →
  (s = s0 ∧ a = a0
   ∧ ∀ j it q, kn !! j = Some it → it !! "question"%string = Some q →
       (similarity (lower query) (lower q) <= s0)%Q)
  ∨ (∃ i it q ans,
       kn !! i = Some it ∧ it !! "question"%string = Some q
       ∧ it !! "answer"%string = Some ans ∧ a = Some ans
       ∧ s = similarity (lower query) (lower q) ∧ (s0 < s)%Q
       ∧ (∀ j it' q', j < i → kn !! j = Some it' →
            it' !! "question"%string = Some q' →
            (similarity (lower query) (lower q') < s)%Q)
       ∧ (∀ j it' q', kn !! j = Some it' →
            it' !! "question"%string = Some q' →
            (similarity (lower query) (lower q') <= s)%Q)).
Proof.
  revert s0 a0. induction kn as [|it kn IH]; intros s0 a0; simpl.
  { intros [= <- <-]. left. split_and!; [done..|]. by intros j it q ?. }
  destruct (getitem it "question") as [q|] eqn:Hq; simpl; [|done].
  apply getitem_Ok in Hq.
  set (sc := similarity (lower query) (lower q)).
  destruct (Qle_bool sc s0) eqn:Hle; simpl.
  - apply Qle_bool_iff in Hle. intros [(-> & -> & Hall)|Hex]%IH.
    + left. split_and!; [done..|]. intros [|j] it' q' Hj Hq'; simpl in Hj.
      * injection Hj as <-. rewrite Hq in Hq'. by injection Hq' as <-.
      * by eapply Hall.
    + destruct Hex as (i & it1 & q1 & ans & ? & ? & ? & -> & -> & Hlt & Hbefore & Hall).
      right. exists (S i), it1, q1, ans. split_and!; try done.
      * intros [|j] it' q' Hj Hit' Hq'; simpl in Hit'.
        -- injection Hit' as <-. rewrite Hq in Hq'. injection Hq' as <-.
           by eapply Qle_lt_trans.
        -- eapply Hbefore; [|done..]. lia.
      * intros [|j] it' q' Hit' Hq'; simpl in Hit'.
        -- injection Hit' as <-. rewrite Hq in Hq'. injection Hq' as <-.
           apply Qlt_le_weak. by eapply Qle_lt_trans.
        -- by eapply Hall.
  - assert (s0 < sc)%Q as Hlt.
    { apply Qnot_le_lt. intros ?%Qle_bool_iff. congruence. }
    destruct (getitem it "answer") as [ans0|] eqn:Ha; simpl; [|done].
    apply getitem_Ok in Ha.
    intros [(-> & -> & Hall)|Hex]%IH.
    + right. exists 0, it, q, ans0. split_and!; try done.
      * intros j it' q' Hj. lia.
      * intros [|j] it' q' Hit' Hq'; simpl in Hit'.
        -- injection Hit' as <-. rewrite Hq in Hq'. injection Hq' as <-.
           apply Qle_refl.
        -- by eapply Hall.
    + destruct Hex as (i & it1 & q1 & ans & ? & ? & ? & -> & -> & Hlt' & Hbefore & Hall).
      right. exists (S i), it1, q1, ans. split_and!; try done.
      * by eapply Qlt_trans.
      * intros [|j] it' q' Hj Hit' Hq'; simpl in Hit'.
        -- injection Hit' as <-. rewrite Hq in Hq'. by injection Hq' as <-.
        -- eapply Hbefore; [|done..]. lia.
      * intros [|j] it' q' Hit' Hq'; simpl in Hit'.
        -- injection Hit' as <-. rewrite Hq in Hq'. injection Hq' as <-.
           by apply Qlt_le_weak.
        -- by eapply Hall.
Qed.

(** The answer that the single-best [retrieve] returns is that of the
    first record, in the order of the knowledge base, whose score is the
    largest; and that score is above one half. *)
Lemma retrieve_first_max kn query ans :
  retrieve kn query = Ok (Some ans) →
  ∃ i it q,
    kn !! i = Some it ∧ it !! "question"%string = Some q
    ∧ it !! "answer"%string = Some ans
    ∧ (1 # 2 < similarity (lower query) (lower q))%Q
    ∧ (∀ j it' q', j < i → kn !! j = Some it' →
         it' !! "question"%string = Some q' →
         (similarity (lower query) (lower q')
          < similarity (lower query) (lower q))%Q)
    ∧ (∀ j it' q', kn !! j = Some it' →
         it' !! "question"%string = Some q' →
         (similarity (lower query) (lower q')
          <= similarity (lower query) (lower q))%Q).
Proof.
  unfold retrieve.
  destruct (best_loop query kn 0%Q None) as [[s a]|] eqn:E; simpl; [|done].
  destruct (Qle_bool s (1 # 2)) eqn:Hs; simpl; [done|]. intros [= ->].
  apply best_loop_first_max in E as [(_ & [=] & _)|Hex].
  destruct Hex as (i & it & q & ans' & ? & ? & ? & [= <-] & -> & _ & ? & ?).
  exists i, it, q. split_and!; try done.
  apply Qnot_le_lt. intros ?%Qle_bool_iff. congruence.
Qed.

End single_best.

(** The two retrievers differ at the threshold: "ab" scores exactly one
    half against "abcdef", which [retrieve] of barista_buddy.py (cutoff 0.5,
    at or above) returns and [retrieve] of src/retrieval_system.py
    (strictly above 0.5) does not. *)
Example retrieve_at_threshold :
  (score (py "ab") (py "abcdef") == 1 # 2)%Q
  ∧ Retrieval.retrieve
      (Retrieval.init [ {[ "question"%string := py "abcdef";
                           "answer"%string := py "yes" ]} ] (1 # 2))
      (py "ab") 3
    = Ok [mkHit (py "abcdef") (py "yes")]
  ∧ RetrievalModule.retrieve
      [ {[ "question"%string := py "abcdef"; "answer"%string := py "yes" ]} ]
      (py "ab")
    = Ok None.
Proof. split_and!; by vm_compute. Qed.

(** ** Ties *)

(** C4, as the specification states it, fails: "ab" is stored before "ac",
    both score 2/3 for the query "a", and [retrieve] returns "ac" first;
    with [top_k=1] it returns "ac" alone. *)
Lemma retrieve_ties_not_stable :
  let rs := Retrieval.init kb_ties (1 # 2) in
  knowledge_dict rs = [(py "ab", py "first"); (py "ac", py "second")]
  ∧ (score (py "a") (py "ab") == score (py "a") (py "ac"))%Q
  ∧ Retrieval.retrieve rs (py "a") 3
    = Ok [mkHit (py "ac") (py "second"); mkHit (py "ab") (py "first")]
  ∧ Retrieval.retrieve rs (py "a") 1 = Ok [mkHit (py "ac") (py "second")].
Proof. split_and!; by vm_compute. Qed.

(** C4, amended: among the entries that [retrieve] returns with equal
    scores, the one with the larger question string (in code-point order)
    comes first, whatever their order in the knowledge base; a stored entry
    that ties with a returned one and is left out has a smaller question
    string than it; with [top_k = 1] the one entry returned has the largest
    score of the knowledge base and, among the entries with that score, the
    largest question string; the single-best [retrieve] of
    src/retrieval_system.py returns the answer of the first record, in
    knowledge-base order, that attains the largest score. *)
Theorem retrieve_ties_order (knowledge_list : list item) (c : Q)
    (query : str) (top_k : Z) (res : list hit)
    (knowledge : list item) (ans : str) :
  Retrieval.retrieve (Retrieval.init knowledge_list c) query top_k = Ok res →
  RetrievalModule.retrieve knowledge query = Ok (Some ans) →
  (∀ i j hi hj, i < j → res !! i = Some hi → res !! j = Some hj →
     (score query (question hi) == score query (question hj))%Q →
     Str.compare (question hi) (question hj) = Gt)
  ∧ (∀ h x a, h ∈ res →
       (x, a) ∈ knowledge_dict (Retrieval.init knowledge_list c) →
       (score query x == score query (question h))%Q →
       mkHit x a ∈ res ∨ Str.compare (question h) x = Gt)
  ∧ (top_k = 1%Z → ∀ h, h ∈ res →
       res = [h]
       ∧ ∀ x a, (x, a) ∈ knowledge_dict (Retrieval.init knowledge_list c) →
           (score query x <= score query (question h))%Q
           ∧ ((score query x == score query (question h))%Q →
              x = question h ∨ Str.compare (question h) x = Gt))
  ∧ (∃ i it q,
       knowledge !! i = Some it ∧ it !! "question"%string = Some q
       ∧ it !! "answer"%string = Some ans
       ∧ (∀ j it' q', j < i → knowledge !! j = Some it' →
            it' !! "question"%string = Some q' →
            (RetrievalModule.similarity (lower query) (lower q')
             < RetrievalModule.similarity (lower query) (lower q))%Q)
       ∧ (∀ j it' q', knowledge !! j = Some it' →
            it' !! "question"%string = Some q' →
            (RetrievalModule.similarity (lower query) (lower q')
             <= RetrievalModule.similarity (lower query) (lower q))%Q)).
Proof.
  intros Hres Hbest.
  destruct (retrieve_Ok_inv _ _ _ _ Hres) as [Hc Hk].
  pose proof (init_NoDup knowledge_list c) as Hkeys.
  destruct (retrieve_properties _ query top_k Hc Hk Hkeys)
    as (res' & Hres' & Hle & Hin & Hsort & Hex & Hnd & _).
  rewrite Hres in Hres'. injection Hres' as <-.
  assert (∀ h x a, h ∈ res →
            (x, a) ∈ knowledge_dict (Retrieval.init knowledge_list c) →
            (score query x == score query (question h))%Q →
            mkHit x a ∈ res ∨ Str.compare (question h) x = Gt) as Hsel.
  { intros h x a Hh Hx Heq. destruct (Hin h Hh) as [Hd Hs].
    assert (c <= score query x)%Q as Hsx by (by rewrite Heq).
    destruct (Hex x a Hx Hsx) as [?|[_ Hge]]; [by left|].
    pose proof (Hge h Hh) as Hgeh.
    apply tuple_ge_spec in Hgeh as [Hlt|[_ Hcmp]]; simpl in *.
    { rewrite Heq in Hlt. by apply Qlt_irrefl in Hlt. }
    destruct (Str.compare (question h) x) eqn:E; [|done|by right].
    apply compare_eq in E. subst x. left.
    pose proof (dict_get_elem _ _ _ Hkeys Hx) as E1.
    pose proof (dict_get_elem _ _ _ Hkeys Hd) as E2.
    rewrite E1 in E2. injection E2 as ->. by destruct h. }
  split_and!.
  - intros i j hi hj Hij Hi Hj Heq.
    pose proof (Hsort i j hi hj Hij Hi Hj) as Hge.
    apply tuple_ge_spec in Hge as [Hlt|[_ Hcmp]]; simpl in *.
    { rewrite Heq in Hlt. by apply Qlt_irrefl in Hlt. }
    destruct (Str.compare (question hi) (question hj)) eqn:E; [|done..].
    apply compare_eq in E.
    assert (i = j); [|lia].
    eapply NoDup_lookup; [done| |]; rewrite list_lookup_fmap.
    + by rewrite Hi.
    + rewrite Hj. simpl. by rewrite E.
  - exact Hsel.
  - intros -> h Hh.
    assert (res = [h]) as Hone.
    { destruct res as [|h0 [|h1 res]]; simpl in Hle.
      - by apply elem_of_nil in Hh.
      - by apply list_elem_of_singleton in Hh as ->.
      - lia. }
    split; [done|]. intros x a Hx. split.
    + destruct (Hin h Hh) as [_ Hs].
      destruct (Qlt_le_dec (score query x) c) as [Hlt|Hsx].
      { apply Qlt_le_weak. by eapply Qlt_le_trans. }
      destruct (Hex x a Hx Hsx) as [Hm|[_ Hge]].
      * rewrite Hone in Hm. apply list_elem_of_singleton in Hm as <-.
        apply Qle_refl.
      * by apply (tuple_ge_score _ _ (Hge h Hh)).
    + intros Heq. destruct (Hsel h x a Hh Hx Heq) as [Hm|?]; [|by right].
      rewrite Hone in Hm. apply list_elem_of_singleton in Hm as <-. by left.
  - destruct (retrieve_first_max _ _ _ Hbest)
      as (i & it & q & ? & ? & ? & _ & ? & ?).
    by exists i, it, q.
Qed.

Lemma retrieve_ties_order_witness :
  (∀ i j hi hj, i < j →
     [mkHit (py "ac") (py "second")] !! i = Some hi →
     [mkHit (py "ac") (py "second")] !! j = Some hj →
     (score (py "a") (question hi) == score (py "a") (question hj))%Q →
     Str.compare (question hi) (question hj) = Gt)
  ∧ (∀ h x a, h ∈ [mkHit (py "ac") (py "second")] →
       (x, a) ∈ knowledge_dict (Retrieval.init kb_ties (1 # 2)) →
       (score (py "a") x == score (py "a") (question h))%Q →
       mkHit x a ∈ [mkHit (py "ac") (py "second")]
       ∨ Str.compare (question h) x = Gt)
  ∧ (1%Z = 1%Z → ∀ h, h ∈ [mkHit (py "ac") (py "second")] →
       [mkHit (py "ac") (py "second")] = [h]
       ∧ ∀ x a, (x, a) ∈ knowledge_dict (Retrieval.init kb_ties (1 # 2)) →
           (score (py "a") x <= score (py "a") (question h))%Q
           ∧ ((score (py "a") x == score (py "a") (question h))%Q →
              x = question h ∨ Str.compare (question h) x = Gt))
  ∧ (∃ i it q,
       kb_ties !! i = Some it ∧ it !! "question"%string = Some q
       ∧ it !! "answer"%string = Some (py "first")
       ∧ (∀ j it' q', j < i → kb_ties !! j = Some it' →
            it' !! "question"%string = Some q' →
            (RetrievalModule.similarity (lower (py "a")) (lower q')
             < RetrievalModule.similarity (lower (py "a")) (lower q))%Q)
       ∧ (∀ j it' q', kb_ties !! j = Some it' →
            it' !! "question"%string = Some q' →
            (RetrievalModule.similarity (lower (py "a")) (lower q')
             <= RetrievalModule.similarity (lower (py "a")) (lower q))%Q)).
Proof.
  apply (retrieve_ties_order kb_ties (1 # 2) (py "a") 1 _ kb_ties (py "first"));
    by vm_compute.
Defined.

(** ** Empty collections and totality *)

(** C7: with an empty keyword set the filter reports every text as not
    related; with an empty knowledge base [retrieve] returns the empty list
    for every query and every [top_k >= 1], the cutoff being one that the
    retriever can be configured with (in [0,1]), and the single-best
    [retrieve] returns [None]; none of them raises. *)
Theorem empty_collections_degrade (rs : RetrievalSystem) (text query : str)
    (top_k : Z) :
  knowledge_dict rs = [] → valid_cutoff (cutoff rs) → (1 ≤ top_k)%Z →
  is_coffee_related [] text = false
  ∧ Retrieval.retrieve rs query top_k = Ok []
  ∧ RetrievalModule.retrieve [] query = Ok None.
Proof.
  intros Hd Hc Hk. split_and!; [done| |done].
  unfold Retrieval.retrieve. rewrite Hd. simpl.
  rewrite get_close_matches_Ok by done.
  unfold Difflib.nlargest, Difflib.scored. simpl. by rewrite take_nil.
Qed.

Lemma empty_collections_degrade_witness :
  is_coffee_related [] (py "how to make espresso") = false
  ∧ Retrieval.retrieve (Retrieval.init [] (1 # 2)) (py "how to make espresso") 3
    = Ok []
  ∧ RetrievalModule.retrieve [] (py "how to make espresso") = Ok None.
Proof.
  apply (empty_collections_degrade (Retrieval.init [] (1 # 2)));
    [reflexivity | apply valid_cutoff_half | lia].
Defined.

(** C8: on a pronunciation table without empty lists, with a cutoff in
    [0,1] and [top_k >= 1], the three stages return for every text:
    none of them raises. *)
Theorem stages_total (d : pron_dict) (keywords : list str)
    (knowledge_list : list item) (c : Q) (text : str) (top_k : Z) :
  pron_wf d → valid_cutoff c → (1 ≤ top_k)%Z →
  (∃ t, correct_text d text = Ok t)
  ∧ (∃ r, is_coffee_related keywords text = r)
  ∧ (∃ res, Retrieval.retrieve (Retrieval.init knowledge_list c) text top_k = Ok res).
Proof.
  intros Hd Hc Hk. split_and!.
  - by apply correct_loop_total.
  - eauto.
  - destruct (retrieve_Ok (Retrieval.init knowledge_list c) text top_k Hc Hk)
      as (res & ? & _). eauto.
Qed.

Lemma table_tests_wf : pron_wf table_tests.
Proof. repeat constructor; discriminate. Qed.

Lemma stages_total_witness :
  (∃ t, correct_text table_tests (py "Capuccino recipe") = Ok t)
  ∧ (∃ r, is_coffee_related [py "coffee"; py "cappuccino"] (py "Capuccino recipe") = r)
  ∧ (∃ res, Retrieval.retrieve (Retrieval.init kb_coffee (1 # 2))
              (py "Capuccino recipe") 3 = Ok res).
Proof.
  apply (stages_total table_tests [py "coffee"; py "cappuccino"] kb_coffee
           (1 # 2) (py "Capuccino recipe") 3);
    [apply table_tests_wf | apply valid_cutoff_half | lia].
Defined.

(** ** Orchestrator *)

Lemma invoke_bind {A B} (c : call) (r : result A) (a : A)
    (k : A → traced B) (log : list call) :
  r = Ok a → (invoke c r ≫= k) log = k a (log ++ [c]).
Proof. intros ->. done. Qed.

(** One run of [process_query], for any assistant whose table has no empty
    list and whose cutoff is in [0,1]. *)
Lemma process_query_run (app : BaristaBuddy) (raw : str) :
  pron_wf (fuzzy_matcher app) → valid_cutoff (cutoff (retrieval app)) →
  ∃ q, correct_text (fuzzy_matcher app) raw = Ok q
    ∧ if is_coffee_related (topic_filter app) q
      then ∃ results,
             Retrieval.retrieve (retrieval app) q default_top_k = Ok results
             ∧ match results with
               | r :: _ =>
                   run_query app raw
                   = Ok (answer r,
                         [CorrectText raw; Printed q; IsCoffeeRelated q; Retrieve q])
               | [] =>
                   run_query app raw
                   = Ok (llm app q,
                         [CorrectText raw; Printed q; IsCoffeeRelated q; Retrieve q;
                          LLMQuery q])
               end
      else run_query app raw
           = Ok (refusal, [CorrectText raw; Printed q; IsCoffeeRelated q]).
Proof.
  intros Hwf Hc.
  destruct (correct_loop_total (fuzzy_matcher app) (lower raw) Hwf) as [q Hq].
  exists q. split; [done|].
  unfold run_query, process_query.
  rewrite (invoke_bind _ _ q) by done.
  rewrite (invoke_bind _ _ ()) by done.
  rewrite (invoke_bind _ _ (is_coffee_related (topic_filter app) q)) by done.
  destruct (is_coffee_related (topic_filter app) q); simpl; [|done].
  destruct (retrieve_Ok (retrieval app) q default_top_k Hc) as (results & Hres & _);
    [done|].
  exists results. split; [done|].
  rewrite (invoke_bind _ _ results) by done.
  by destruct results.
Qed.

(** C1: for an assistant built by [BaristaBuddy.__init__] on a
    pronunciation table without empty lists, [process_query] normalises the
    raw text first (and prints the result), then asks the topic filter
    about the normalised text.  If the filter rejects, the answer is the
    fixed refusal and neither the retriever nor the collaborator is called.
    If it accepts, the retriever is called on the normalised text; a
    non-empty result gives the answer of its first entry, without a call of
    the collaborator; an empty one makes exactly one call of the
    collaborator, with the normalised text, whose response is returned as it
    is. *)
Theorem process_query_sequence (keyword_lines : list str)
    (knowledge_list : list item) (pronunciation : pron_dict)
    (llm_response : str → str) (raw : str) :
  pron_wf pronunciation →
  let app := BaristaBuddy_init keyword_lines knowledge_list pronunciation
               llm_response in
  ∃ q, correct_text pronunciation raw = Ok q
    ∧ if is_coffee_related (topic_filter app) q
      then ∃ results,
             Retrieval.retrieve (retrieval app) q default_top_k = Ok results
             ∧ match results with
               | r :: _ =>
                   run_query app raw
                   = Ok (answer r,
                         [CorrectText raw; Printed q; IsCoffeeRelated q; Retrieve q])
               | [] =>
                   run_query app raw
                   = Ok (llm_response q,
                         [CorrectText raw; Printed q; IsCoffeeRelated q; Retrieve q;
                          LLMQuery q])
               end
      else run_query app raw
           = Ok (refusal, [CorrectText raw; Printed q; IsCoffeeRelated q]).
Proof.
  intros Hwf app.
  apply (process_query_run app raw); [done | apply valid_cutoff_half].
Qed.

Lemma process_query_sequence_witness :
  ∃ q, correct_text table_tests (py "Capuccino weather") = Ok q
    ∧ if is_coffee_related (topic_filter app_example) q
      then ∃ results,
             Retrieval.retrieve (retrieval app_example) q default_top_k = Ok results
             ∧ match results with
               | r :: _ =>
                   run_query app_example (py "Capuccino weather")
                   = Ok (answer r,
                         [CorrectText (py "Capuccino weather"); Printed q;
                          IsCoffeeRelated q; Retrieve q])
               | [] =>
                   run_query app_example (py "Capuccino weather")
                   = Ok (py "LLM:" ++ q,
                         [CorrectText (py "Capuccino weather"); Printed q;
                          IsCoffeeRelated q; Retrieve q; LLMQuery q])
               end
      else run_query app_example (py "Capuccino weather")
           = Ok (refusal,
                 [CorrectText (py "Capuccino weather"); Printed q; IsCoffeeRelated q]).
Proof.
  apply (process_query_sequence
           [py "espresso"; py "Latte "; py ""; py "coffee"]
           kb_coffee table_tests (λ q, py "LLM:" ++ q) (py "Capuccino weather")).
  apply table_tests_wf.
Defined.

(** The three outcomes of [process_query] on [app_example]: a refusal, an
    answer of the knowledge base, and a delegation to the collaborator. *)
Example process_query_rejects :
  run_query app_example (py "What is the weather today")
  = Ok (refusal,
        [CorrectText (py "What is the weather today");
         Printed (py "what is the weather today");
         IsCoffeeRelated (py "what is the weather today")]).
Proof. by vm_compute. Qed.

Example process_query_answers :
  run_query app_example (py "how to make Expresso")
  = Ok (py "Use finely ground coffee and nine bars.",
        [CorrectText (py "how to make Expresso");
         Printed (py "how to make espresso");
         IsCoffeeRelated (py "how to make espresso");
         Retrieve (py "how to make espresso")]).
Proof. by vm_compute. Qed.

Example process_query_delegates :
  run_query app_example (py "coffee")
  = Ok (py "LLM:coffee",
        [CorrectText (py "coffee"); Printed (py "coffee");
         IsCoffeeRelated (py "coffee"); Retrieve (py "coffee");
         LLMQuery (py "coffee")]).
Proof. by vm_compute. Qed.

(** With an empty list in the table the normaliser raises, and so does
    [process_query], before any other stage. *)
Example process_query_raises :
  run_query (BaristaBuddy_init [py "coffee"] kb_coffee
               [(py "expresso", VList [])] (λ q, q)) (py "coffee")
  = Raise IndexError.
Proof. by vm_compute. Qed.

(** * Further properties of the code *)

(** ** Normaliser: errors, shapes of the values, case *)

Section normaliser_more.
Implicit Types (d : pron_dict) (text t : str).

Lemma correct_loop_app d1 d2 text :
  correct_loop (d1 ++ d2) text = correct_loop d1 text ≫= correct_loop d2.
Proof.
  revert text. induction d1 as [|[w v] d1 IH]; intros text; [done|].
  simpl. destruct (correct_step text w v) as [t|e]; simpl; [apply IH | done].
Qed.

Lemma pron_wf_or_not d : pron_wf d ∨ Exists (λ e, e.2 = VList []) d.
Proof.
  induction d as [|[w v] d [IH|IH]].
  - left. constructor.
  - destruct v as [c|[|x l]|].
    + left. by constructor.
    + right. by constructor.
    + left. by constructor.
    + left. by constructor.
  - right. by apply Exists_cons_tl.
Qed.

Lemma correct_loop_raises d text :
  Exists (λ e, e.2 = VList []) d → correct_loop d text = Raise IndexError.
Proof.
  intros Hex. revert text. induction Hex as [[w v] d Hv|[w v] d Hex IH]; intros text.
  - simpl in Hv. subst v. done.
  - simpl. destruct (correct_step text w v) as [t|e] eqn:E; simpl; [apply IH|].
    unfold correct_step in E. by destruct v as [c|[|[c|] l]|]; simplify_eq/=.
Qed.

Lemma correct_step_same text w v w' v' :
  lower w = lower w' →
  lower <$> canonical v = lower <$> canonical v' →
  v ≠ VList [] → v' ≠ VList [] →
  correct_step text w v = correct_step text w' v'.
Proof.
  intros Hw Hc Hv Hv'. unfold correct_step.
  destruct v as [c|[|[c|] l]|], v' as [c'|[|[c'|] l']|];
    simplify_eq/=; try done; by rewrite Hw, ?Hc.
Qed.

Lemma correct_loop_same d d' text :
  same_table d d' → pron_wf d → pron_wf d' →
  correct_loop d text = correct_loop d' text.
Proof.
  intros Hs. revert text.
  induction Hs as [|[w v] [w' v'] d d' [Hw Hc] Hs IH]; intros text Hd Hd'; [done|].
  apply Forall_cons in Hd as [Hv Hd]. apply Forall_cons in Hd' as [Hv' Hd'].
  simpl in *. rewrite (correct_step_same text w v w' v') by done.
  destruct (correct_step text w' v'); simpl; [by apply IH | done].
Qed.

End normaliser_more.

(** X1: whatever the table, a text that the normaliser returns is
    lower-cased: lower-casing it again changes nothing. *)
Theorem correct_text_lower_cased (d : pron_dict) (text t : str) :
  correct_text d text = Ok t → lower t = t.
Proof.
  intros E. apply is_lower_fixed.
  by apply (correct_loop_is_lower d (lower text)); [apply lower_is_lower|].
Qed.

Lemma correct_text_lower_cased_witness :
  lower (py "how to make espresso") = py "how to make espresso".
Proof.
  apply (correct_text_lower_cased table_tests (py "How To Make EXPRESSO")).
  reflexivity.
Defined.

(** X2: the normaliser either returns a text, exactly when no value of the
    table is an empty list, or raises [IndexError], exactly when one is; it
    raises nothing else, and an empty list raises even when its key does not
    occur in the text. *)
Theorem correct_text_error (d : pron_dict) (text : str) :
  (pron_wf d ∧ ∃ t, correct_text d text = Ok t)
  ∨ (Exists (λ e, e.2 = VList []) d ∧ correct_text d text = Raise IndexError).
Proof.
  destruct (pron_wf_or_not d) as [Hwf|Hex].
  - left. split; [done|]. by apply correct_loop_total.
  - right. split; [done|]. by apply correct_loop_raises.
Qed.

(** X3: on a table without empty lists, a text in which no key occurs
    (case ignored) comes back lower-cased and otherwise unchanged; so does
    the empty text when no key is empty. *)
Theorem correct_text_no_variant (d : pron_dict) (text : str) :
  pron_wf d → no_variant_in d text →
  correct_text d text = Ok (lower text)
  ∧ (Forall (λ e, e.1 ≠ []) d → correct_text d [] = Ok []).
Proof.
  intros Hwf Hno. split; [by apply correct_loop_absent|].
  intros Hkeys. apply (correct_loop_absent d []); [done|].
  eapply Forall_impl; [exact Hkeys|]. intros [w v] Hw (pre & post & E). simpl in *.
  symmetry in E. apply app_eq_nil in E as [_ E]. apply app_eq_nil in E as [E _].
  by destruct w.
Qed.

Lemma correct_text_no_variant_witness :
  correct_text table_tests (py "Arabica vs Robusta") = Ok (lower (py "Arabica vs Robusta"))
  ∧ (Forall (λ e, e.1 ≠ []) table_tests → correct_text table_tests [] = Ok []).
Proof.
  apply (correct_text_no_variant table_tests (py "Arabica vs Robusta")).
  - repeat constructor; discriminate.
  - repeat constructor; simpl; rewrite <- contains_spec; by vm_compute.
Defined.

(** X4: an entry whose value is neither a string nor a list that begins
    with a string has no effect: the table without it gives the same
    result. *)
Theorem correct_text_skips_other (d1 d2 : pron_dict) (wrong : str)
    (v : pron_value) (text : str) :
  canonical v = None → v ≠ VList [] →
  correct_text (d1 ++ (wrong, v) :: d2) text = correct_text (d1 ++ d2) text.
Proof.
  intros Hc Hv. unfold correct_text. rewrite !correct_loop_app.
  destruct (correct_loop d1 (lower text)) as [t|e]; simpl; [|done].
  unfold correct_step. by destruct v as [c|[|[c|] l]|].
Qed.

Lemma correct_text_skips_other_witness :
  correct_text ([(py "expresso", VStr (py "espresso"))]
                ++ (py "lattay", VList [SOther; SStr (py "latte")]) :: [])
    (py "lattay and expresso")
  = correct_text ([(py "expresso", VStr (py "espresso"))] ++ [])
      (py "lattay and expresso").
Proof.
  apply (correct_text_skips_other _ _ (py "lattay")
           (VList [SOther; SStr (py "latte")])); [reflexivity | discriminate].
Defined.

(** X5: the result depends on the table only through its keys and its
    canonical terms, both with case ignored, and on the text only with case
    ignored: a list counts for its first element, and capitals in keys,
    terms or text change nothing. *)
Theorem correct_text_same_table (d d' : pron_dict) (text text' : str) :
  same_table d d' → pron_wf d → pron_wf d' → lower text = lower text' →
  correct_text d text = correct_text d' text'.
Proof.
  intros Hs Hd Hd' Ht. unfold correct_text. rewrite Ht.
  by apply correct_loop_same.
Qed.

Lemma correct_text_same_table_witness :
  correct_text [(py "Expresso", VList [SStr (py "Espresso"); SStr (py "x")])]
    (py "An EXPRESSO please")
  = correct_text table_plain (py "an expresso Please").
Proof.
  apply correct_text_same_table; [|repeat constructor; discriminate..|reflexivity].
  repeat constructor.
Defined.

(** ** [str.strip] *)

Section strip_facts.
Implicit Types s r : str.

Lemma lstrip_split s :
  ∃ ws, s = ws ++ lstrip s ∧ forallb is_space ws = true.
Proof.
  induction s as [|c s (ws & E & Hws)]; [by exists []|].
  simpl. destruct (is_space c) eqn:Hc.
  - exists (c :: ws). simpl. rewrite Hc, Hws. split; [by f_equal | done].
  - by exists [].
Qed.

Lemma lstrip_head s c r : lstrip s = c :: r → is_space c = false.
Proof.
  induction s as [|x s IH]; [done|]. simpl.
  destruct (is_space x) eqn:Hx; [done|]. by intros [= <- _].
Qed.

Lemma lstrip_fixed c r : is_space c = false → lstrip (c :: r) = c :: r.
Proof. intros Hc. simpl. by rewrite Hc. Qed.

Lemma lstrip_idemp s : lstrip (lstrip s) = lstrip s.
Proof.
  destruct (lstrip s) as [|c r] eqn:E; [done|].
  apply lstrip_fixed. by eapply lstrip_head.
Qed.

Lemma strip_idemp s : strip (strip s) = strip s.
Proof.
  unfold strip. set (u := lstrip s). set (w := lstrip (rev u)).
  assert (lstrip (rev w) = rev w) as E1.
  { destruct (rev w) as [|c r] eqn:Ew; [done|]. apply lstrip_fixed.
    destruct (lstrip_split (rev u)) as (ws & Eu & _). fold w in Eu.
    apply (f_equal (@rev ascii)) in Eu. rewrite rev_involutive, rev_app_distr, Ew in Eu.
    simpl in Eu. by apply (lstrip_head s c (r ++ rev ws)). }
  rewrite E1, rev_involutive. subst w. by rewrite lstrip_idemp.
Qed.

Lemma strip_infix s : ∃ pre post, s = pre ++ strip s ++ post.
Proof.
  unfold strip. destruct (lstrip_split s) as (ws1 & E1 & _).
  destruct (lstrip_split (rev (lstrip s))) as (ws2 & E2 & _).
  exists ws1, (rev ws2). rewrite <- rev_app_distr, <- E2, rev_involutive. done.
Qed.

Lemma is_space_lower_char c : is_space (lower_char c) = is_space c.
Proof. by destruct c as [[] [] [] [] [] [] [] []]. Qed.

Lemma lstrip_lower s : lstrip (lower s) = lower (lstrip s).
Proof.
  induction s as [|c s IH]; [done|]. simpl.
  rewrite is_space_lower_char. by destruct (is_space c).
Qed.

Lemma rev_lower s : rev (lower s) = lower (rev s).
Proof. unfold lower. by rewrite map_rev. Qed.

Lemma strip_lower s : strip (lower s) = lower (strip s).
Proof.
  unfold strip. by rewrite lstrip_lower, rev_lower, lstrip_lower, rev_lower.
Qed.

End strip_facts.

(** ** Topic filter: capitals, loaders, longer texts *)

Section filter_more.
Implicit Types (kw text : str) (keywords : list str).

Lemma contains_lower_fixed kw text :
  contains kw (lower text) = true → lower kw = kw.
Proof.
  intros (pre & post & E)%contains_spec.
  pose proof (lower_idemp text) as Hl. rewrite E, !lower_app in Hl.
  apply app_inj_1 in Hl as [_ Hl]; [|by unfold lower; rewrite length_map].
  apply app_inj_1 in Hl as [Hl _]; [done|by unfold lower; rewrite length_map].
Qed.

Lemma contains_nil_r kw : kw ≠ [] → contains kw [] = false.
Proof. by destruct kw. Qed.

Lemma contains_app kw pre s post :
  contains kw s = true → contains kw (pre ++ s ++ post) = true.
Proof.
  rewrite !contains_spec. intros (p & q & ->).
  exists (pre ++ p), (q ++ post). by rewrite <- !app_assoc.
Qed.

End filter_more.

(** X6: a keyword with a capital letter never matches, since the text is
    lower-cased and the keyword is not (the loader of src/topic_filter.py
    keeps keywords as they are written): a filter with only such keywords
    rejects every text. *)
Theorem capital_keywords_never_match (keywords : list str) (text : str) :
  Forall (λ kw, lower kw ≠ kw) keywords →
  is_coffee_related keywords text = false.
Proof.
  intros Hk. unfold is_coffee_related. apply not_true_is_false.
  intros (kw & Hin & Hc)%existsb_exists.
  rewrite Forall_forall in Hk. apply (Hk kw); [by apply list_elem_of_In|].
  by apply (contains_lower_fixed kw text).
Qed.

Lemma capital_keywords_never_match_witness :
  is_coffee_related (load_keywords [py "Espresso"; py "Latte "])
    (py "how to make Espresso") = false.
Proof.
  apply capital_keywords_never_match.
  repeat constructor; by vm_compute.
Defined.

(** X7: every keyword that the loader of barista_buddy.py produces is
    non-empty, lower-cased and free of surrounding whitespace. *)
Theorem load_keywords_main_clean (lines : list str) :
  Forall (λ kw, kw ≠ [] ∧ lower kw = kw ∧ strip kw = kw)
    (load_keywords_main lines).
Proof.
  apply Forall_forall. intros kw (l & -> & Hl)%list_elem_of_fmap.
  apply list_elem_of_filter in Hl as [Hne _]. split_and!.
  - by rewrite lower_nil_iff.
  - apply lower_idemp.
  - by rewrite strip_lower, strip_idemp.
Qed.

(** X8: with the keywords of the loader of barista_buddy.py the empty text
    is never related, whatever the keyword file holds (blank lines
    included). *)
Theorem load_keywords_main_rejects_empty (lines : list str) :
  is_coffee_related (load_keywords_main lines) [] = false.
Proof.
  unfold is_coffee_related. apply not_true_is_false.
  intros (kw & Hin%list_elem_of_In & Hc)%existsb_exists.
  change (lower []) with (@nil ascii) in Hc.
  rewrite contains_nil_r in Hc; [done|].
  intros ->. by apply (load_keywords_main_nonempty lines).
Qed.

(** X9: matching only grows: a text that is related stays related in
    every text whose lower-cased form contains its lower-cased form, and
    when keywords are added. *)
Theorem is_coffee_related_grows (keywords more : list str) (text longer : str) :
  occurs_in (lower text) (lower longer) →
  is_coffee_related keywords text = true →
  is_coffee_related (keywords ++ more) longer = true.
Proof.
  intros (pre & post & Hl). unfold is_coffee_related. rewrite !existsb_exists.
  intros (kw & Hin & Hc). exists kw. split.
  - apply in_or_app. by left.
  - rewrite Hl. by apply contains_app.
Qed.

Lemma is_coffee_related_grows_witness :
  is_coffee_related ([py "latte"] ++ [py "mocha"]) (py "my ChocoLatte melted")
  = true.
Proof.
  apply (is_coffee_related_grows [py "latte"] [py "mocha"] (py "CHOCOLATTE")).
  - by exists (py "my "), (py " melted").
  - reflexivity.
Defined.

(** ** Loading the knowledge base: the last record wins *)

Section dict_more.
Implicit Types (d : knowledge) (k v : str).

Lemma dict_get_set_eq k v d : dict_get k (dict_set k v d) = Ok v.
Proof.
  induction d as [|[k' v'] d IH]; simpl.
  { by rewrite bool_decide_eq_true_2. }
  destruct (decide (k' = k)) as [->|Hne].
  - rewrite bool_decide_eq_true_2 by done. simpl. by rewrite bool_decide_eq_true_2.
  - rewrite bool_decide_eq_false_2 by done. simpl.
    by rewrite bool_decide_eq_false_2.
Qed.

Lemma dict_get_set_ne k k' v d :
  k ≠ k' → dict_get k' (dict_set k v d) = dict_get k' d.
Proof.
  intros Hne. induction d as [|[k0 v0] d IH]; simpl.
  { by rewrite bool_decide_eq_false_2. }
  destruct (decide (k0 = k)) as [->|Hne0].
  - rewrite bool_decide_eq_true_2 by done. simpl.
    by rewrite !bool_decide_eq_false_2.
  - rewrite bool_decide_eq_false_2 by done. simpl. by rewrite IH.
Qed.

Lemma load_keeps d (kl : list item) k v :
  dict_get k d = Ok v →
  Forall (λ it, complete it = true →
                lower (default [] (it !! "question"%string)) ≠ k) kl →
  dict_get k (foldl Retrieval.load_item d kl) = Ok v.
Proof.
  intros Hget Hkl. revert d Hget.
  induction Hkl as [|it kl Hit _ IH]; intros d Hget; [done|].
  simpl. apply IH. destruct (complete it) eqn:Hc.
  - rewrite load_item_complete by done. rewrite dict_get_set_ne; [done|].
    by apply Hit.
  - by rewrite load_item_incomplete.
Qed.

End dict_more.

(** X10: when several complete records have the same question up to case,
    the answer of the last one is what the loaded mapping holds for the
    lower-cased question, and it holds no other answer for it. *)
Theorem init_last_wins (kl1 kl2 : list item) (it : item) (c : Q) :
  complete it = true →
  Forall (λ it', complete it' = true →
                 lower (default [] (it' !! "question"%string))
                 ≠ lower (default [] (it !! "question"%string))) kl2 →
  let d := knowledge_dict (Retrieval.init (kl1 ++ it :: kl2) c) in
  let k := lower (default [] (it !! "question"%string)) in
  dict_get k d = Ok (default [] (it !! "answer"%string))
  ∧ ∀ v, (k, v) ∈ d → v = default [] (it !! "answer"%string).
Proof.
  intros Hc Hlater d k.
  assert (dict_get k d = Ok (default [] (it !! "answer"%string))) as Hget.
  { subst d. simpl. rewrite foldl_app. simpl. apply load_keeps; [|done].
    rewrite load_item_complete by done. apply dict_get_set_eq. }
  split; [done|]. intros v Hin.
  pose proof (dict_get_elem k v d (init_NoDup _ c) Hin) as Hget'.
  congruence.
Qed.

Lemma init_last_wins_witness :
  let d := knowledge_dict
             (Retrieval.init ([latte_old; mocha] ++ latte_new :: [latte_blank])
                (1 # 2)) in
  let k := lower (default [] (latte_new !! "question"%string)) in
  dict_get k d = Ok (default [] (latte_new !! "answer"%string))
  ∧ ∀ v, (k, v) ∈ d → v = default [] (latte_new !! "answer"%string).
Proof.
  apply (init_last_wins [latte_old; mocha] [latte_blank] latte_new (1 # 2)).
  - reflexivity.
  - repeat constructor. intros Hc. by vm_compute in Hc.
Defined.

(** The same, computed: the old answer is gone, the place of the question
    is that of its first record. *)
Example init_last_wins_computed :
  knowledge_dict (Retrieval.init [latte_old; mocha; latte_new; latte_blank] (1 # 2))
  = [(py "what is a latte", py "new"); (py "what is mocha", py "chocolate")].
Proof. by vm_compute. Qed.

(** ** The retriever: errors, prefixes, independence of the order *)

Section retriever_more.
Import Difflib Retrieval.
Implicit Types (rs : RetrievalSystem) (query : str) (d : knowledge).

Lemma valid_cutoff_bool c :
  valid_cutoff c ↔ Qle_bool 0 c && Qle_bool c 1 = true.
Proof.
  unfold valid_cutoff. by rewrite andb_true_iff, !Qle_bool_iff.
Qed.

Lemma retrieve_bad_cutoff rs query top_k :
  ¬ valid_cutoff (cutoff rs) → (1 ≤ top_k)%Z →
  retrieve rs query top_k = Raise ValueError.
Proof.
  intros Hc Hk. unfold retrieve, get_close_matches.
  replace (0 <? top_k)%Z with true by (symmetry; apply Z.ltb_lt; lia). simpl.
  rewrite valid_cutoff_bool in Hc. apply not_true_is_false in Hc.
  by rewrite Hc.
Qed.

Lemma retrieve_bad_top_k rs query top_k :
  (top_k ≤ 0)%Z → retrieve rs query top_k = Raise ValueError.
Proof.
  intros Hk. unfold retrieve. by rewrite get_close_matches_bad_n.
Qed.

Lemma mapM_take {A B} (f : A → result B) (l : list A) (k : list B) n :
  mapM f l = Ok k → mapM f (take n l) = Ok (take n k).
Proof.
  revert k n. induction l as [|x l IH]; intros k n; simpl.
  { intros [= <-]. by destruct n. }
  destruct (f x) as [y|] eqn:Hy; simpl; [|done].
  destruct (mapM f l) as [k'|] eqn:Hk; simpl; [|done].
  intros [= <-]. destruct n as [|n]; [done|]. simpl.
  rewrite Hy. simpl. by rewrite (IH k' n).
Qed.

Lemma mapM_ext_elem {A B} (f g : A → result B) (l : list A) :
  (∀ x, x ∈ l → f x = g x) → mapM f l = mapM g l.
Proof.
  induction l as [|x l IH]; intros Hfg; [done|]. simpl.
  rewrite (Hfg x) by apply list_elem_of_here.
  rewrite IH; [done|]. intros y ?. apply Hfg. by apply list_elem_of_further.
Qed.

Lemma dict_get_missing k d : k ∉ map fst d → dict_get k d = Raise KeyError.
Proof.
  induction d as [|[k' v] d IH]; simpl; [done|].
  intros Hk. rewrite bool_decide_eq_false_2.
  - apply IH. intros ?. apply Hk. by apply list_elem_of_further.
  - intros ->. apply Hk. apply list_elem_of_here.
Qed.

Lemma dict_get_perm d d' k :
  d ≡ₚ d' → NoDup (map fst d) → dict_get k d = dict_get k d'.
Proof.
  intros Hp Hnd.
  assert (NoDup (map fst d')) as Hnd' by by rewrite <- Hp.
  destruct (decide (k ∈ map fst d)) as [Hin|Hout].
  - destruct (dict_get_key k d Hin) as (v & -> & Hv).
    symmetry. apply dict_get_elem; [done|]. by rewrite <- Hp.
  - rewrite !dict_get_missing; [done| |done]. by rewrite <- Hp.
Qed.

Lemma scored_antisym word c keys keys' p q :
  p ∈ scored word c keys → q ∈ scored word c keys' →
  tuple_ge p q → tuple_ge q p → p = q.
Proof.
  intros (x & -> & _)%elem_of_scored (y & -> & _)%elem_of_scored Hpq Hqp.
  apply tuple_ge_spec in Hpq as [Hlt|[He H1]];
    apply tuple_ge_spec in Hqp as [Hlt'|[He' H2]]; simpl in *.
  - exfalso. eapply Qlt_irrefl, Qlt_trans; eassumption.
  - exfalso. rewrite He' in Hlt. by apply Qlt_irrefl in Hlt.
  - exfalso. rewrite He in Hlt'. by apply Qlt_irrefl in Hlt'.
  - rewrite (compare_antisym x y) in H2.
    destruct (Str.compare x y) eqn:E; [|done..].
    by apply compare_eq in E as ->.
Qed.

Lemma nlargest_perm n word c keys keys' :
  keys ≡ₚ keys' →
  nlargest n (scored word c keys) = nlargest n (scored word c keys').
Proof.
  intros Hp. unfold nlargest. f_equal.
  apply (StronglySorted_unique_strong tuple_ge).
  - intros p q Hp1 Hq1. rewrite sorted_desc_perm in Hp1, Hq1.
    by apply (scored_antisym word c keys keys').
  - apply sorted_desc_sorted.
  - apply sorted_desc_sorted.
  - rewrite !sorted_desc_perm. unfold scored. by rewrite Hp.
Qed.

End retriever_more.

(** X11: [retrieve] returns exactly when the cutoff lies in [0,1] and
    [top_k >= 1]; otherwise it raises [ValueError], and it raises nothing
    else: a key that [get_close_matches] returns is always found. *)
Theorem retrieve_error (rs : RetrievalSystem) (query : str) (top_k : Z) :
  (valid_cutoff (cutoff rs) ∧ (1 ≤ top_k)%Z
   ∧ ∃ res, Retrieval.retrieve rs query top_k = Ok res)
  ∨ ((¬ valid_cutoff (cutoff rs) ∨ (top_k ≤ 0)%Z)
     ∧ Retrieval.retrieve rs query top_k = Raise ValueError).
Proof.
  destruct (decide (1 ≤ top_k)%Z) as [Hk|Hk].
  - destruct (Qle_bool 0 (cutoff rs) && Qle_bool (cutoff rs) 1) eqn:Hc.
    + apply valid_cutoff_bool in Hc. left. split_and!; [done..|].
      destruct (retrieve_Ok rs query top_k Hc Hk) as (res & ? & _). by exists res.
    + assert (¬ valid_cutoff (cutoff rs)) as Hbad.
      { rewrite valid_cutoff_bool. by rewrite Hc. }
      right. split; [by left | by apply retrieve_bad_cutoff].
  - right. split; [right; lia | apply retrieve_bad_top_k; lia].
Qed.

(** X12: asking for fewer results gives a prefix of what asking for more
    gives. *)
Theorem retrieve_prefix (rs : RetrievalSystem) (query : str) (k k' : Z)
    (res res' : list hit) :
  Retrieval.retrieve rs query k = Ok res →
  Retrieval.retrieve rs query k' = Ok res' →
  (k ≤ k')%Z →
  res = take (Z.to_nat k) res'.
Proof.
  intros Hres Hres' Hkk.
  destruct (retrieve_Ok_inv _ _ _ _ Hres) as [Hc Hk].
  unfold Retrieval.retrieve in *.
  rewrite get_close_matches_Ok in Hres, Hres' by (done || lia).
  simpl in *. unfold Difflib.nlargest in *.
  rewrite fmap_take in Hres, Hres'.
  set (l := snd <$> Difflib.sorted_desc _) in *.
  apply (mapM_take _ _ _ (Z.to_nat k)) in Hres'.
  rewrite take_take in Hres'.
  replace (Z.to_nat k `min` Z.to_nat k') with (Z.to_nat k) in Hres' by lia.
  congruence.
Qed.

Lemma retrieve_prefix_witness :
  [mkHit (py "ac") (py "second")]
  = take (Z.to_nat 1) [mkHit (py "ac") (py "second"); mkHit (py "ab") (py "first")].
Proof.
  apply (retrieve_prefix (Retrieval.init kb_ties (1 # 2)) (py "a") 1 3);
    [by vm_compute | by vm_compute | lia].
Defined.

(** X13: the order of the entries in the knowledge base has no influence
    on what [retrieve] returns: two retrievers with the same cutoff whose
    mappings hold the same pairs in another order give the same result. *)
Theorem retrieve_order_independent (rs rs' : RetrievalSystem)
    (query : str) (top_k : Z) :
  NoDup (map fst (knowledge_dict rs)) →
  knowledge_dict rs ≡ₚ knowledge_dict rs' →
  cutoff rs = cutoff rs' →
  Retrieval.retrieve rs query top_k = Retrieval.retrieve rs' query top_k.
Proof.
  intros Hnd Hp Hc. unfold Retrieval.retrieve, Difflib.get_close_matches.
  rewrite <- Hc.
  destruct (negb (0 <? top_k)%Z); [done|].
  destruct (negb _); [done|]. simpl.
  rewrite (nlargest_perm _ _ _ _ (map fst (knowledge_dict rs')))
    by by rewrite Hp.
  apply mapM_ext_elem. intros k _.
  by rewrite (dict_get_perm _ (knowledge_dict rs')).
Qed.

Lemma retrieve_order_independent_witness :
  Retrieval.retrieve (mkRetrievalSystem
                        [(py "ab", py "first"); (py "ac", py "second")] (1 # 2))
    (py "a") 3
  = Retrieval.retrieve (mkRetrievalSystem
                          [(py "ac", py "second"); (py "ab", py "first")] (1 # 2))
      (py "a") 3.
Proof.
  apply retrieve_order_independent; simpl.
  - apply (bool_decide_unpack _). by vm_compute.
  - apply Permutation_swap.
  - reflexivity.
Defined.

(** ** Scores: bounds and what they exclude *)

Section scores.
Import Difflib.
Implicit Types (a b x word : str).

Lemma Zpos_of_nat_S n : Z.pos (Pos.of_nat (S n)) = Z.of_nat (S n).
Proof. by rewrite <- positive_nat_Z, Nat2Pos.id. Qed.

Lemma calculate_ratio_bounds m t :
  2 * m ≤ t → (0 <= calculate_ratio m t)%Q ∧ (calculate_ratio m t <= 1)%Q.
Proof.
  intros Hm. destruct t as [|t]; [done|].
  unfold calculate_ratio, Qle. cbn [Qnum Qden]. rewrite Zpos_of_nat_S. lia.
Qed.

Lemma calculate_ratio_ge_half m t :
  (1 # 2 <= calculate_ratio m t)%Q → t ≤ 4 * m.
Proof.
  destruct t as [|t]; [lia|].
  unfold calculate_ratio, Qle. cbn [Qnum Qden]. rewrite Zpos_of_nat_S. lia.
Qed.

Lemma calculate_ratio_pos c m t :
  (0 < c)%Q → (c <= calculate_ratio m t)%Q → t = 0 ∨ 0 < m.
Proof.
  intros Hc Hle. destruct t as [|t]; [by left|]. right.
  destruct m as [|m]; [|lia]. exfalso.
  apply (Qlt_irrefl 0). eapply Qlt_le_trans; [done|].
  eapply Qle_trans; [done|]. by unfold calculate_ratio, Qle.
Qed.

Lemma matches_le_min a b :
  sum_list (map m_size (matching_blocks a b)) ≤ length a `min` length b.
Proof.
  pose proof (matching_blocks_sum_le a b).
  pose proof (common_le_l a b). pose proof (common_le_r a b). lia.
Qed.

Lemma ratio_bounds a b : (0 <= ratio a b)%Q ∧ (ratio a b <= 1)%Q.
Proof.
  unfold ratio. apply calculate_ratio_bounds.
  pose proof (matches_le_min a b). lia.
Qed.

Lemma common_pos_shared a b : 0 < common a b → ∃ ch, ch ∈ a ∧ ch ∈ b.
Proof.
  unfold common. intros [ch Hch]%gmultiset_size_pos_elem_of.
  apply gmultiset_elem_of_intersection in Hch as [Ha Hb].
  apply elem_of_list_to_set_disj in Ha, Hb. by exists ch.
Qed.

Lemma ratio_pos_shared c a b :
  (0 < c)%Q → (c <= ratio a b)%Q → a ≠ [] → ∃ ch, ch ∈ a ∧ ch ∈ b.
Proof.
  intros Hc Hle Ha. unfold ratio in Hle.
  destruct (calculate_ratio_pos _ _ _ Hc Hle) as [Ht|Hm].
  - destruct a; [done | simpl in Ht; lia].
  - apply common_pos_shared. pose proof (matching_blocks_sum_le a b). lia.
Qed.

Lemma ratio_half_lengths a b :
  (1 # 2 <= ratio a b)%Q → length a ≤ 3 * length b ∧ length b ≤ 3 * length a.
Proof.
  intros Hle%calculate_ratio_ge_half.
  pose proof (matches_le_min a b). lia.
Qed.

Lemma init_keys_nonempty (kl : list item) (c : Q) q v :
  (q, v) ∈ knowledge_dict (Retrieval.init kl c) → q ≠ [].
Proof.
  intros [Hin|(it & _ & [Hq _]%complete_spec & <- & _)]%load_elem; [|done].
  by apply elem_of_nil in Hin.
Qed.

End scores.

(** X14: the retriever of the assistant (cutoff 0.5) never returns an
    entry whose question is more than three times as long as the
    lower-cased query, or less than a third of it. *)
Theorem retrieve_length_window (knowledge_list : list item) (query : str)
    (top_k : Z) (res : list hit) (h : hit) :
  Retrieval.retrieve (Retrieval.init knowledge_list (1 # 2)) query top_k = Ok res →
  h ∈ res →
  length (question h) ≤ 3 * length (lower query)
  ∧ length (lower query) ≤ 3 * length (question h).
Proof.
  intros Hres Hh. destruct (retrieve_Ok_inv _ _ _ _ Hres) as [Hc Hk].
  destruct (retrieve_properties _ query top_k Hc Hk (init_NoDup knowledge_list _))
    as (res' & Hres' & _ & Hin & _).
  rewrite Hres in Hres'. injection Hres' as <-.
  destruct (Hin h Hh) as [_ Hs]. simpl in Hs.
  by apply ratio_half_lengths in Hs.
Qed.

Lemma retrieve_length_window_witness :
  length (py "how to make a latte") ≤ 3 * length (lower (py "Make Latte"))
  ∧ length (lower (py "Make Latte")) ≤ 3 * length (py "how to make a latte").
Proof.
  apply (retrieve_length_window kb_coffee (py "Make Latte") 1
           [mkHit (py "how to make a latte") (py "Pour steamed milk over espresso.")]
           (mkHit (py "how to make a latte") (py "Pour steamed milk over espresso."))).
  - by vm_compute.
  - apply list_elem_of_here.
Defined.

(** X15: with a cutoff above zero a loaded retriever returns only entries
    whose question shares a character with the lower-cased query; on the
    empty query it returns nothing. *)
Theorem retrieve_shares_character (knowledge_list : list item) (c : Q)
    (query : str) (top_k : Z) (res : list hit) :
  (0 < c)%Q →
  Retrieval.retrieve (Retrieval.init knowledge_list c) query top_k = Ok res →
  (∀ h, h ∈ res → ∃ ch, ch ∈ question h ∧ ch ∈ lower query)
  ∧ (query = [] → res = []).
Proof.
  intros Hpos Hres. destruct (retrieve_Ok_inv _ _ _ _ Hres) as [Hc Hk].
  destruct (retrieve_properties _ query top_k Hc Hk (init_NoDup knowledge_list _))
    as (res' & Hres' & _ & Hin & _).
  rewrite Hres in Hres'. injection Hres' as <-.
  assert (∀ h, h ∈ res → ∃ ch, ch ∈ question h ∧ ch ∈ lower query) as Hshare.
  { intros h Hh. destruct (Hin h Hh) as [Hd Hs]. simpl in Hs.
    apply (ratio_pos_shared c); [done..|]. by eapply init_keys_nonempty. }
  split; [done|]. intros ->. destruct res as [|h res]; [done|].
  destruct (Hshare h) as (ch & _ & Hch); [apply list_elem_of_here|].
  by apply elem_of_nil in Hch.
Qed.

Lemma retrieve_shares_character_witness :
  (∀ h, h ∈ [mkHit (py "how to make a latte") (py "Pour steamed milk over espresso.")] →
     ∃ ch, ch ∈ question h ∧ ch ∈ lower (py "Make Latte"))
  ∧ (py "Make Latte" = [] →
     [mkHit (py "how to make a latte") (py "Pour steamed milk over espresso.")] = []).
Proof.
  apply (retrieve_shares_character kb_coffee (1 # 2) (py "Make Latte") 1);
    [reflexivity | by vm_compute].
Defined.

(** X16: the similarity of src/retrieval_system.py is a number between 0
    and 1, whatever the two strings. *)
Theorem similarity_bounds (a b : str) :
  (0 <= RetrievalModule.similarity a b)%Q
  ∧ (RetrievalModule.similarity a b <= 1)%Q.
Proof.
  unfold RetrievalModule.similarity.
  destruct (ratio_bounds a b) as [H0 H1]. by split.
Qed.

(** ** The single-best retriever: threshold and missing fields *)

Section single_best_more.
Import RetrievalModule.
Implicit Types (kn : list item) (it : item).

Lemma best_loop_total query kn s0 a0 :
  Forall (λ it, is_Some (it !! "question"%string)
                ∧ is_Some (it !! "answer"%string)) kn →
  ∃ s a, best_loop query kn s0 a0 = Ok (s, a).
Proof.
  intros Hkn. revert s0 a0.
  induction Hkn as [|it kn [[q Hq] [ans Ha]] _ IH]; intros s0 a0; simpl; [eauto|].
  unfold getitem. rewrite Hq. simpl.
  destruct (negb _); [|apply IH]. rewrite Ha. simpl. apply IH.
Qed.

Lemma best_loop_raises query kn s0 a0 :
  Exists (λ it, it !! "question"%string = None) kn →
  best_loop query kn s0 a0 = Raise KeyError.
Proof.
  intros Hex. revert s0 a0.
  induction Hex as [it kn Hq|it kn _ IH]; intros s0 a0; simpl.
  - unfold getitem. by rewrite Hq.
  - unfold getitem. destruct (it !! "question"%string) as [q|]; simpl; [|done].
    destruct (negb _); [|apply IH].
    destruct (it !! "answer"%string) as [ans|]; simpl; [apply IH | done].
Qed.

Lemma best_loop_only_KeyError query kn s0 a0 e :
  best_loop query kn s0 a0 = Raise e → e = KeyError.
Proof.
  revert s0 a0. induction kn as [|it kn IH]; intros s0 a0; simpl; [done|].
  unfold getitem. destruct (it !! "question"%string) as [q|]; simpl; [|congruence].
  destruct (negb _); [|apply IH].
  destruct (it !! "answer"%string) as [ans|]; simpl; [apply IH | congruence].
Qed.

End single_best_more.

(** X17: on records that all have a question and an answer, the
    single-best [retrieve] returns, and it returns [None] exactly when no
    record scores strictly above one half. *)
Theorem single_best_threshold (knowledge : list item) (query : str) :
  Forall (λ it, is_Some (it !! "question"%string)
                ∧ is_Some (it !! "answer"%string)) knowledge →
  ∃ r, RetrievalModule.retrieve knowledge query = Ok r
    ∧ (r = None
       ↔ ∀ it q, it ∈ knowledge → it !! "question"%string = Some q →
           (RetrievalModule.similarity (lower query) (lower q) <= 1 # 2)%Q).
Proof.
  intros Hwf. unfold RetrievalModule.retrieve.
  destruct (best_loop_total query knowledge 0%Q None Hwf) as (s & a & E).
  rewrite E. simpl.
  apply best_loop_first_max in E as [(-> & -> & Hall)|Hex].
  - exists None. split; [by destruct (negb _)|]. split; [|done].
    intros _ it q [j Hj]%list_elem_of_lookup_1 Hq.
    eapply Qle_trans; [by eapply Hall | done].
  - destruct Hex as (i & it & q & ans & Hi & Hq & Ha & -> & -> & _ & _ & Hall).
    destruct (Qle_bool _ (1 # 2)) eqn:Hs; simpl.
    + exists None. split; [done|]. split; [|done].
      intros _ it' q' [j Hj]%list_elem_of_lookup_1 Hq'.
      apply Qle_bool_iff in Hs. eapply Qle_trans; [by eapply Hall | done].
    + exists (Some ans). split; [done|]. split; [done|].
      intros Hall'. exfalso.
      assert (Qle_bool (RetrievalModule.similarity (lower query) (lower q)) (1 # 2)
              = true); [|congruence].
      apply Qle_bool_iff. eapply Hall'; [|done]. by eapply list_elem_of_lookup_2.
Qed.

Lemma single_best_threshold_witness :
  ∃ r, RetrievalModule.retrieve
         [ {[ "question"%string := py "abcdef"; "answer"%string := py "yes" ]} ]
         (py "ab") = Ok r
    ∧ (r = None
       ↔ ∀ it q,
           it ∈ [ ({[ "question"%string := py "abcdef";
                      "answer"%string := py "yes" ]} : item) ] →
           it !! "question"%string = Some q →
           (RetrievalModule.similarity (lower (py "ab")) (lower q) <= 1 # 2)%Q).
Proof.
  apply single_best_threshold.
  repeat constructor; by eexists.
Defined.

(** X18: the single-best [retrieve] raises nothing but [KeyError], and it
    does raise it whenever some record has no question, wherever that
    record stands. *)
Theorem single_best_missing_question (knowledge : list item) (query : str) :
  (∀ e, RetrievalModule.retrieve knowledge query = Raise e → e = KeyError)
  ∧ (Exists (λ it, it !! "question"%string = None) knowledge →
     RetrievalModule.retrieve knowledge query = Raise KeyError).
Proof.
  unfold RetrievalModule.retrieve. split.
  - intros e. destruct (RetrievalModule.best_loop _ _ _ _) as [[s a]|e'] eqn:E;
      simpl; [done|].
    intros [= <-]. by eapply best_loop_only_KeyError.
  - intros Hex. by rewrite best_loop_raises.
Qed.

(** ** The matcher of src/fuzzy_matcher.py *)

Section matcher_more.
Import FuzzyMatcherModule.
Implicit Types (d : pron_dict) (text : str).

Lemma normalize_none d text :
  Forall (λ e, holds text e.2 = Ok false) d → normalize d text = Ok text.
Proof.
  induction 1 as [|[c v] d Hh _ IH]; [done|]. simpl in *. by rewrite Hh.
Qed.

Lemma normalize_first d1 d2 c v text :
  Forall (λ e, holds text e.2 = Ok false) d1 →
  holds text v = Ok true →
  normalize (d1 ++ (c, v) :: d2) text = Ok c.
Proof.
  intros Hd1 Hv. induction Hd1 as [|[c' v'] d1 Hh _ IH]; simpl in *.
  - by rewrite Hv.
  - by rewrite Hh.
Qed.

End matcher_more.

(** X19: [normalize] returns the canonical term of the first entry whose
    variants hold the text (as an element of a list, or as a substring of
    a string), and the text itself when no entry does; these are the only
    ways in which it returns. *)
Theorem normalize_first_entry (d : pron_dict) (text r : str) :
  FuzzyMatcherModule.normalize d text = Ok r
  ↔ (r = text ∧ Forall (λ e, FuzzyMatcherModule.holds text e.2 = Ok false) d)
    ∨ (∃ d1 v d2,
         d = d1 ++ (r, v) :: d2
         ∧ Forall (λ e, FuzzyMatcherModule.holds text e.2 = Ok false) d1
         ∧ FuzzyMatcherModule.holds text v = Ok true).
Proof.
  split.
  - induction d as [|[c v] d IH]; simpl.
    { intros [= <-]. left. by split. }
    destruct (FuzzyMatcherModule.holds text v) as [[]|] eqn:Hv; [| |done].
    + intros [= <-]. right. exists [], v, d. by split_and!.
    + intros [[-> Hd]|(d1 & v' & d2 & -> & Hd1 & Hv')]%IH.
      * left. split; [done|]. by constructor.
      * right. exists ((c, v) :: d1), v', d2. split_and!; [done| |done].
        by constructor.
  - intros [[-> Hd]|(d1 & v & d2 & -> & Hd1 & Hv)].
    + by apply normalize_none.
    + by apply normalize_first.
Qed.

(** X20: [fuzzy_match] never raises.  It returns a key of the table whose
    score against the text is at least 0.7 and is the largest among the
    keys, or, when no key reaches 0.7, the text itself. *)
Theorem fuzzy_match_result (d : pron_dict) (text : str) :
  ∃ r, FuzzyMatcherModule.fuzzy_match d text = Ok r
    ∧ ((r = text
        ∧ ∀ k, k ∈ map fst d → (Difflib.ratio k text < 7 # 10)%Q)
       ∨ (r ∈ map fst d
          ∧ (7 # 10 <= Difflib.ratio r text)%Q
          ∧ ∀ k, k ∈ map fst d → (Difflib.ratio k text <= Difflib.ratio r text)%Q)).
Proof.
  unfold FuzzyMatcherModule.fuzzy_match.
  rewrite get_close_matches_Ok by (by split || lia). simpl.
  set (cands := Difflib.scored text (7 # 10) (map fst d)).
  destruct (Difflib.nlargest (Z.to_nat 1) cands) as [|p top] eqn:Etop; simpl.
  - exists text. split; [done|]. left. split; [done|].
    intros k Hk. apply Qnot_le_lt. intros Hle.
    assert ((Difflib.ratio k text, k) ∈ cands) as Hin.
    { apply elem_of_scored. by exists k. }
    destruct (nlargest_complete (Z.to_nat 1) _ _ Hin) as [Hn|[Hlen _]];
      rewrite Etop in *; [by apply elem_of_nil in Hn | done].
  - assert (p ∈ cands) as Hp.
    { apply (nlargest_elem (Z.to_nat 1)). rewrite Etop. apply list_elem_of_here. }
    apply elem_of_scored in Hp as (x & -> & Hx & Hs). simpl.
    exists x. split; [done|]. right. split_and!; [done..|].
    intros k Hk.
    destruct (Qlt_le_dec (Difflib.ratio k text) (7 # 10)) as [Hlt|Hle].
    { apply Qlt_le_weak. by eapply Qlt_le_trans. }
    assert ((Difflib.ratio k text, k) ∈ cands) as Hin.
    { apply elem_of_scored. by exists k. }
    destruct (nlargest_complete (Z.to_nat 1) _ _ Hin) as [Hn|[_ Hge]];
      rewrite Etop in *.
    + pose proof (nlargest_length (Z.to_nat 1) cands) as Hl. rewrite Etop in Hl.
      change (Z.to_nat 1) with 1 in Hl.
      destruct top; [|cbn [length] in Hl; lia].
      apply list_elem_of_singleton in Hn as [= -> _]. apply Qle_refl.
    + by apply (tuple_ge_score _ _ (Hge _ (list_elem_of_here _ _))).
Qed.

(** ** The generative fallback: what is cut from the response *)

Section llm.
Import LLMHandler.
Implicit Types (sep piece s p : str).

Lemma split_from_nonempty sep skip piece s : split_from sep skip piece s ≠ [].
Proof.
  revert skip piece. induction s as [|c s IH]; intros skip piece; simpl; [done|].
  destruct skip; [|apply IH]. destruct (is_prefix sep (c :: s)); [done | apply IH].
Qed.

Lemma last_cons_nonempty {A} (x : A) (l : list A) : l ≠ [] → last (x :: l) = last l.
Proof. by destruct l. Qed.

(** The last piece of a split holds no separator: while a piece is being
    collected, no occurrence of the separator begins inside it. *)
Lemma split_from_last sep skip piece s p :
  sep ≠ [] →
  (skip = 0 → ∀ pre post, piece ++ s = pre ++ sep ++ post →
                length piece ≤ length pre) →
  (skip ≠ 0 → piece = []) →
  last (split_from sep skip piece s) = Some p →
  ¬ occurs_in sep p.
Proof.
  intros Hsep. revert skip piece.
  induction s as [|c s IH]; intros skip piece Hinv Hskip; simpl.
  { intros [= <-] (pre & post & E). destruct skip as [|n].
    - specialize (Hinv eq_refl pre post). rewrite app_nil_r in Hinv.
      specialize (Hinv E). rewrite E, !length_app in Hinv.
      destruct sep; [done | simpl in Hinv; lia].
    - rewrite Hskip in E by done. symmetry in E.
      apply app_eq_nil in E as [_ E]. by apply app_eq_nil in E as [E _]. }
  destruct skip as [|n].
  - destruct (is_prefix sep (c :: s)) eqn:Hp.
    + rewrite last_cons_nonempty by apply split_from_nonempty.
      apply IH; [|done]. intros _ pre post _. simpl. lia.
    + apply IH; [|done]. intros _ pre post E.
      rewrite <- app_assoc in E. simpl in E.
      specialize (Hinv eq_refl pre post E). rewrite length_app. simpl.
      destruct (decide (length pre = length piece)) as [Hlen|]; [|lia].
      apply app_inj_1 in E as [_ E]; [|done].
      assert (is_prefix sep (c :: s) = true); [|congruence].
      apply is_prefix_spec. by exists post.
  - assert (piece = []) as -> by by apply Hskip.
    apply IH; [|done]. intros _ pre post _. simpl. lia.
Qed.

Lemma strip_occurs sep s : occurs_in sep (strip s) → occurs_in sep s.
Proof.
  intros (p & q & E). destruct (strip_infix s) as (pre & post & Es).
  exists (pre ++ p), (q ++ post). rewrite Es at 1. rewrite E.
  by rewrite <- !app_assoc.
Qed.

End llm.

(** X21: whatever the model generates, [query] returns a text that does
    not contain the mark "Barista Buddy:" and has no whitespace at either
    end; the cutting of the response raises nothing. *)
Theorem llm_query_clean (generate : str → str) (text : str) :
  ∃ r, LLMHandler.query generate text = Ok r
    ∧ ¬ occurs_in LLMHandler.marker r
    ∧ strip r = r.
Proof.
  unfold LLMHandler.query. simpl.
  set (response := generate (LLMHandler.prompt text)).
  pose proof (split_from_nonempty LLMHandler.marker 0 [] response) as Hne.
  unfold LLMHandler.last_item.
  destruct (last (LLMHandler.split_from LLMHandler.marker 0 [] response))
    as [piece|] eqn:Hlast.
  - simpl. exists (strip piece). split_and!; [done| |apply strip_idemp].
    intros Hocc%strip_occurs. revert Hocc.
    apply (split_from_last LLMHandler.marker 0 [] response); [done| |done|done].
    intros _ pre post _. simpl. lia.
  - apply last_None in Hlast. done.
Qed.

(** The cut, on a response that repeats the mark. *)
Example llm_query_cuts :
  LLMHandler.query
    (λ prompt, prompt ++ py " Sure. Barista Buddy: Use a moka pot.  ")
    (py "how to brew")
  = Ok (py "Use a moka pot.").
Proof. by vm_compute. Qed.

(** ** [process_query]: outcomes and errors *)

Section orchestrator_more.
Implicit Types (app : BaristaBuddy) (raw q : str).

(** The outcome of one run: the answer and the calls made. *)
Lemma run_query_outcome app raw :
  run_query app raw
  = match correct_text (fuzzy_matcher app) raw with
    | Ok q =>
        if is_coffee_related (topic_filter app) q then
          match Retrieval.retrieve (retrieval app) q default_top_k with
          | Ok (r :: _) =>
              Ok (answer r,
                  [CorrectText raw; Printed q; IsCoffeeRelated q; Retrieve q])
          | Ok [] =>
              Ok (llm app q,
                  [CorrectText raw; Printed q; IsCoffeeRelated q; Retrieve q;
                   LLMQuery q])
          | Raise e => Raise e
          end
        else Ok (refusal, [CorrectText raw; Printed q; IsCoffeeRelated q])
    | Raise e => Raise e
    end.
Proof.
  unfold run_query, process_query.
  destruct (correct_text (fuzzy_matcher app) raw) as [q|e] eqn:Hq; [|done].
  rewrite (invoke_bind _ _ q) by done.
  rewrite (invoke_bind _ _ ()) by done.
  rewrite (invoke_bind _ _ (is_coffee_related (topic_filter app) q)) by done.
  simpl. destruct (is_coffee_related (topic_filter app) q); simpl; [|done].
  destruct (Retrieval.retrieve (retrieval app) q default_top_k)
    as [results|e] eqn:Hr; [|done].
  rewrite (invoke_bind _ _ results) by done. by destruct results.
Qed.

Lemma run_query_total app raw :
  pron_wf (fuzzy_matcher app) → valid_cutoff (cutoff (retrieval app)) →
  ∃ a log, run_query app raw = Ok (a, log).
Proof.
  intros Hwf Hc. destruct (process_query_run app raw Hwf Hc) as (q & _ & H).
  destruct (is_coffee_related (topic_filter app) q); [|eauto].
  destruct H as ([|r results] & _ & ->); eauto.
Qed.

End orchestrator_more.

(** X22: [process_query] ignores the capitals of what it hears.  Two
    queries that are equal when lower-cased, each answered by its own
    sample of the collaborator, raise the same exception or go through the
    same stages with the same arguments; they get the same answer when the
    collaborator is not called, and otherwise each gets what the
    collaborator answered, on the same text. *)
Theorem process_query_ignores_case (app app' : BaristaBuddy) (raw raw' : str) :
  same_core app app' → lower raw = lower raw' →
  match run_query app raw, run_query app' raw' with
  | Ok (a, log), Ok (a', log') =>
      tail log = tail log'
      ∧ ((∀ q, LLMQuery q ∉ log) → a = a')
      ∧ (∀ q, LLMQuery q ∈ log → a = llm app q ∧ a' = llm app' q)
  | Raise e, Raise e' => e = e'
  | _, _ => False
  end.
Proof.
  intros (Hf & Ht & Hr) Hl. rewrite !run_query_outcome, <- Hf, <- Ht, <- Hr.
  unfold correct_text. rewrite <- Hl.
  destruct (correct_loop (fuzzy_matcher app) (lower raw)) as [q|e]; [|done].
  destruct (is_coffee_related (topic_filter app) q).
  - destruct (Retrieval.retrieve (retrieval app) q default_top_k)
      as [[|r results]|e]; [| |done].
    + split_and!; [done| |].
      * intros Hno. exfalso. apply (Hno q). set_unfold. tauto.
      * intros t Ht'. set_unfold. by destruct Ht' as [|[|[|[|[[= ->]|]]]]].
    + split_and!; [done..|]. intros t Ht'. set_unfold.
      by destruct Ht' as [|[|[|[|]]]].
  - split_and!; [done..|]. intros t Ht'. set_unfold.
    by destruct Ht' as [|[|[|]]].
Qed.

Lemma process_query_ignores_case_witness :
  match run_query app_example (py "Espresso TONIC recipe"),
        run_query app_resampled (py "espresso tonic RECIPE") with
  | Ok (a, log), Ok (a', log') =>
      tail log = tail log'
      ∧ ((∀ q, LLMQuery q ∉ log) → a = a')
      ∧ (∀ q, LLMQuery q ∈ log → a = llm app_example q ∧ a' = llm app_resampled q)
  | Raise e, Raise e' => e = e'
  | _, _ => False
  end.
Proof.
  apply (process_query_ignores_case app_example app_resampled);
    [by split_and! | reflexivity].
Defined.

(** X23: for an assistant built by [BaristaBuddy.__init__], every query
    raises [IndexError] when a value of the pronunciation table is an empty
    list.  When none is, the normaliser and the retriever (cutoff 0.5,
    [top_k=3]) return for every query, and a query that the filter refuses
    or that the knowledge base answers is answered without a call of the
    collaborator. *)
Theorem process_query_error (keyword_lines : list str)
    (knowledge_list : list item) (pronunciation : pron_dict)
    (llm_response : str → str) (raw : str) :
  let app := BaristaBuddy_init keyword_lines knowledge_list pronunciation
               llm_response in
  (Exists (λ e, e.2 = VList []) pronunciation
   ∧ run_query app raw = Raise IndexError)
  ∨ (pron_wf pronunciation
     ∧ ∃ q results,
         correct_text pronunciation raw = Ok q
         ∧ Retrieval.retrieve (retrieval app) q default_top_k = Ok results
         ∧ (is_coffee_related (topic_filter app) q = false ∨ results ≠ [] →
            ∃ a log, run_query app raw = Ok (a, log) ∧ ∀ t, LLMQuery t ∉ log)).
Proof.
  intros app. destruct (pron_wf_or_not pronunciation) as [Hwf|Hex].
  - right. split; [done|].
    destruct (correct_loop_total pronunciation (lower raw) Hwf) as [q Hq].
    destruct (retrieve_Ok (retrieval app) q default_top_k valid_cutoff_half)
      as (results & Hres & _); [done|].
    exists q, results. split_and!; [done..|]. intros Hcase.
    rewrite run_query_outcome.
    change (fuzzy_matcher app) with pronunciation.
    unfold correct_text. rewrite Hq.
    destruct (is_coffee_related (topic_filter app) q) eqn:Hrel.
    + destruct Hcase as [|Hne]; [done|].
      rewrite Hres. destruct results as [|r results]; [done|].
      eexists _, _. split; [done|]. intros t Ht. set_unfold.
      by destruct Ht as [|[|[|[|]]]].
    + eexists _, _. split; [done|]. intros t Ht. set_unfold.
      by destruct Ht as [|[|[|]]].
  - left. split; [done|]. unfold run_query, process_query, invoke. simpl.
    unfold correct_text. by rewrite correct_loop_raises.
Qed.

(** ** The voice loop *)

Section voice_loop.
Implicit Types (app : BaristaBuddy) (script pre post : list heard) (h : heard).

Lemma exit_word_not_blank (query : str) :
  lower query ∈ exit_words → strip query ≠ [].
Proof.
  intros Hin Hs.
  assert (strip (lower query) = []) as Hs' by by rewrite strip_lower, Hs.
  unfold exit_words in Hin. rewrite !elem_of_cons in Hin.
  destruct Hin as [E|[E|[E|E]]];
    [rewrite E in Hs'; discriminate..|by apply elem_of_nil in E].
Qed.

Lemma run_loop_stop app h post :
  is_stop h → run_loop app (h :: post) = run_loop app [h].
Proof.
  destruct h as [query|]; [|done]. simpl. intros Hq.
  rewrite bool_decide_eq_false_2 by by apply exit_word_not_blank.
  by rewrite bool_decide_eq_true_2.
Qed.

Lemma run_loop_stops app pre h post :
  is_stop h → run_loop app (pre ++ h :: post) = run_loop app (pre ++ [h]).
Proof.
  intros Hh. induction pre as [|h' pre IH]; [by apply run_loop_stop|].
  simpl. destruct h' as [query|]; [|done]. by rewrite IH.
Qed.

Lemma run_loop_left app script spoken ended :
  run_loop app script = Ok (spoken, ended) →
  (ended = true ↔ Exists is_stop script)
  ∧ (ended = true → last spoken = Some farewell ∨ last spoken = Some exiting).
Proof.
  revert spoken ended. induction script as [|h script IH]; intros spoken ended; simpl.
  { intros [= <- <-]. split; [|done]. split; [done|]. by intros ?%Exists_nil. }
  destruct h as [query|].
  - case_bool_decide as Hb.
    + destruct (run_loop app script) as [[sp en]|] eqn:E; simpl; [|done].
      intros [= <- <-]. destruct (IH sp en eq_refl) as [Hiff Hlast]. split.
      * rewrite Hiff, Exists_cons. split; [by right|].
        intros [Hq|?]; [|done]. simpl in Hq. by apply exit_word_not_blank in Hq.
      * intros Hen. specialize (Hlast Hen).
        destruct sp; [by destruct Hlast | done].
    + case_bool_decide as Hx.
      * intros [= <- <-]. split; [|by left]. split; [|done].
        intros _. by apply Exists_cons_hd.
      * destruct (run_query app query) as [[a log]|]; simpl; [|done].
        destruct (run_loop app script) as [[sp en]|] eqn:E; simpl; [|done].
        intros [= <- <-]. destruct (IH sp en eq_refl) as [Hiff Hlast]. split.
        -- rewrite Hiff, Exists_cons. split; [by right|]. by intros [?|?].
        -- intros Hen. specialize (Hlast Hen).
           destruct sp; [by destruct Hlast | done].
  - intros [= <- <-]. split; [|by right]. split; [|done].
    intros _. by apply Exists_cons_hd.
Qed.

End voice_loop.

(** X24: once an exit word (in any capitals) is heard, or the interrupt
    comes, nothing that would be heard afterwards has any effect on the
    run. *)
Theorem run_stops (app : BaristaBuddy) (pre post : list heard) (h : heard) :
  is_stop h → run app (pre ++ h :: post) = run app (pre ++ [h]).
Proof.
  intros Hh. unfold run. by rewrite (run_loop_stops app pre h post).
Qed.

Lemma run_stops_witness :
  run app_example ([Heard (py "coffee")] ++ Heard (py "Goodbye")
                   :: [Heard (py "how to make espresso")])
  = run app_example ([Heard (py "coffee")] ++ [Heard (py "Goodbye")]).
Proof. apply run_stops. simpl. set_solver. Defined.

(** X25: a run begins with the greeting; it leaves the loop exactly when
    the interrupt or an exit word is among what is heard, and then its last
    words are one of the two goodbyes. *)
Theorem run_left (app : BaristaBuddy) (script : list heard)
    (spoken : list str) (ended : bool) :
  run app script = Ok (spoken, ended) →
  head spoken = Some greeting
  ∧ (ended = true ↔ Exists is_stop script)
  ∧ (ended = true → last spoken = Some farewell ∨ last spoken = Some exiting).
Proof.
  unfold run. destruct (run_loop app script) as [[sp en]|] eqn:E; simpl; [|done].
  intros [= <- <-]. destruct (run_loop_left app script sp en E) as [Hiff Hlast].
  split_and!; [done..|]. intros Hen. specialize (Hlast Hen).
  destruct sp; [by destruct Hlast | done].
Qed.

Lemma run_left_witness :
  head [greeting; py "LLM:coffee"; exiting] = Some greeting
  ∧ (true = true ↔ Exists is_stop [Heard (py "coffee"); KeyboardInterrupt])
  ∧ (true = true →
     last [greeting; py "LLM:coffee"; exiting] = Some farewell
     ∨ last [greeting; py "LLM:coffee"; exiting] = Some exiting).
Proof.
  apply (run_left app_example [Heard (py "coffee"); KeyboardInterrupt]).
  by vm_compute.
Defined.

(** X26: while nothing heard is an exit word or an interrupt, and the
    pronunciation table has no empty list, the loop goes on and speaks once
    for each utterance, in order: the request to repeat for a blank one,
    the answer of [process_query] for any other. *)
Theorem run_replies (app : BaristaBuddy) (script : list heard) :
  pron_wf (fuzzy_matcher app) → valid_cutoff (cutoff (retrieval app)) →
  Forall (λ h, ¬ is_stop h) script →
  ∃ replies,
    run app script = Ok (greeting :: replies, false)
    ∧ Forall2 (λ h reply,
                 ∃ query, h = Heard query
                   ∧ if bool_decide (strip query = [])
                     then reply = not_caught
                     else answer_of (run_query app query) = Ok reply)
        script replies.
Proof.
  intros Hwf Hc Hscript. unfold run.
  assert (∃ replies,
    run_loop app script = Ok (replies, false)
    ∧ Forall2 (λ h reply,
                 ∃ query, h = Heard query
                   ∧ if bool_decide (strip query = [])
                     then reply = not_caught
                     else answer_of (run_query app query) = Ok reply)
        script replies) as (replies & -> & HF).
  { induction Hscript as [|h script Hh _ (replies & IH & HF)]; [by exists []|].
    destruct h as [query|]; [|by destruct Hh]. simpl in *.
    destruct (bool_decide (strip query = [])) eqn:Hb.
    - rewrite IH. simpl. exists (not_caught :: replies). split; [done|].
      constructor; [|done]. exists query. by rewrite Hb.
    - rewrite bool_decide_eq_false_2 by done.
      destruct (run_query_total app query Hwf Hc) as (a & log & Hq).
      rewrite Hq, IH. simpl. exists (a :: replies). split; [done|].
      constructor; [|done]. exists query. rewrite Hb. by rewrite Hq. }
  by exists replies.
Qed.

Lemma run_replies_witness :
  ∃ replies,
    run app_example [Heard (py "   "); Heard (py "Coffee")]
    = Ok (greeting :: replies, false)
    ∧ Forall2 (λ h reply,
                 ∃ query, h = Heard query
                   ∧ if bool_decide (strip query = [])
                     then reply = not_caught
                     else answer_of (run_query app_example query) = Ok reply)
        [Heard (py "   "); Heard (py "Coffee")] replies.
Proof.
  apply run_replies.
  - apply table_tests_wf.
  - apply valid_cutoff_half.
  - apply Forall_cons; split; [|apply Forall_cons; split; [|apply Forall_nil]];
      simpl; apply (bool_decide_unpack _); by vm_compute.
Defined.

(** ** The score 1 *)

Section full_score.
Import Difflib.
Context (a b : str).

Lemma window_length_le (l : str) lo hi : length (window l lo hi) ≤ hi - lo.
Proof. unfold window. rewrite length_take. lia. Qed.

Lemma window_empty (l : str) lo : window l lo lo = [].
Proof. unfold window. by rewrite Nat.sub_diag. Qed.

Lemma blocks_sum_le_width fuel alo ahi blo bhi :
  alo ≤ ahi → ahi ≤ length a → blo ≤ bhi →
  sum_list (map m_size (blocks a b fuel alo ahi blo bhi))
  ≤ (ahi - alo) `min` (bhi - blo).
Proof.
  intros. pose proof (blocks_sum_le a b fuel alo ahi blo bhi).
  pose proof (common_le_l (window a alo ahi) (window b blo bhi)).
  pose proof (common_le_r (window a alo ahi) (window b blo bhi)).
  pose proof (window_length_le a alo ahi).
  pose proof (window_length_le b blo bhi). lia.
Qed.

(** Blocks that cover both windows entirely exist only between equal
    windows. *)
Lemma blocks_full_equal fuel alo ahi blo bhi :
  alo ≤ ahi → ahi ≤ length a → blo ≤ bhi →
  sum_list (map m_size (blocks a b fuel alo ahi blo bhi)) = ahi - alo →
  sum_list (map m_size (blocks a b fuel alo ahi blo bhi)) = bhi - blo →
  window a alo ahi = window b blo bhi.
Proof.
  revert alo ahi blo bhi.
  induction fuel as [|fuel IH]; intros alo ahi blo bhi Ha Hla Hb.
  { simpl. intros E1 E2. replace ahi with alo by lia. replace bhi with blo by lia.
    by rewrite !window_empty. }
  cbn [blocks].
  pose proof (find_longest_match_ok a b alo ahi blo bhi) as Hm.
  destruct (find_longest_match a b alo ahi blo bhi) as [i j k].
  destruct Hm as (? & ? & ? & ? & Hm); [done..|]. simpl in *.
  destruct (k =? 0).
  { simpl. intros E1 E2. replace ahi with alo by lia. replace bhi with blo by lia.
    by rewrite !window_empty. }
  rewrite map_cons, map_app, sum_list_cons_app. simpl.
  pose proof (blocks_sum_le_width fuel alo i blo j
                ltac:(lia) ltac:(lia) ltac:(lia)) as HL.
  pose proof (blocks_sum_le_width fuel (i + k) ahi (j + k) bhi
                ltac:(lia) ltac:(lia) ltac:(lia)) as HR.
  rewrite (window_split a alo i ahi), (window_split a i (i + k) ahi) by lia.
  rewrite (window_split b blo j bhi), (window_split b j (j + k) bhi) by lia.
  rewrite (window_match a b i j k) by done.
  destruct ((alo <? i) && (blo <? j)) eqn:Hc1;
    destruct ((i + k <? ahi) && (j + k <? bhi)) eqn:Hc2;
    simpl; intros E1 E2.
  - f_equal; [apply IH; lia|]. f_equal. apply IH; lia.
  - replace ahi with (i + k) by lia. replace bhi with (j + k) by lia.
    rewrite !window_empty. f_equal. apply IH; lia.
  - replace i with alo in * by lia. replace j with blo in * by lia.
    rewrite !window_empty. simpl. f_equal. apply IH; lia.
  - replace ahi with (i + k) by lia. replace bhi with (j + k) by lia.
    replace i with alo in * by lia. replace j with blo in * by lia.
    by rewrite !window_empty.
Qed.

Lemma ratio_one_equal : (ratio a b == 1)%Q → a = b.
Proof.
  unfold ratio. set (M := sum_list (map m_size (matching_blocks a b))).
  pose proof (matches_le_min a b) as HM. fold M in HM.
  destruct (length a + length b) as [|t] eqn:Ht.
  { intros _. destruct a, b; simpl in *; done || lia. }
  unfold calculate_ratio, Qeq. cbn [Qnum Qden]. rewrite Zpos_of_nat_S.
  intros E.
  assert (M = length a ∧ M = length b) as [E1 E2] by lia.
  pose proof (blocks_full_equal (S (length a)) 0 (length a) 0 (length b)) as Heq.
  rewrite !window_full in Heq. apply Heq; try lia.
  - unfold M, matching_blocks in E1. lia.
  - unfold M, matching_blocks in E2. lia.
Qed.

End full_score.

(** ** A string matched against itself *)

Section self_match.
Import Difflib.
Context (s : str).

Lemma indices_from_bounds c (l : str) j0 j :
  j ∈ indices_from c l j0 → j0 ≤ j.
Proof. by intros [? _]%indices_from_lookup. Qed.

Lemma indices_from_sorted c (l : str) j0 :
  StronglySorted lt (indices_from c l j0).
Proof.
  revert j0. induction l as [|x l IH]; intros j0; simpl; [constructor|].
  case_bool_decide; [|apply IH]. constructor; [apply IH|].
  apply Forall_forall. intros j Hj%indices_from_bounds. lia.
Qed.

Lemma indices_from_complete c (l : str) j0 j :
  l !! j = Some c → j0 + j ∈ indices_from c l j0.
Proof.
  revert j0 j. induction l as [|x l IH]; intros j0 [|j]; simpl; try done.
  - intros [= ->]. rewrite bool_decide_eq_true_2 by done.
    rewrite Nat.add_0_r. apply list_elem_of_here.
  - intros Hj. replace (j0 + S j) with (S j0 + j) by lia.
    case_bool_decide; [apply list_elem_of_further|]; by apply IH.
Qed.

Context (lo hi : nat).
Hypothesis (Hlo : lo ≤ hi) (Hhi : hi ≤ length s).

Lemma diag_run_step j c :
  s !! j = Some c → popular s c = false → lo ≤ j →
  diag_run s lo j = S (diag_run_before s lo j).
Proof.
  intros Hj Hc Hl. destruct j as [|j']; simpl; rewrite Hj, Hc.
  - by replace (lo <=? 0) with true by (symmetry; apply Nat.leb_le; lia).
  - by replace (lo <=? S j') with true by (symmetry; apply Nat.leb_le; lia).
Qed.

Lemma diag_run_popular j c :
  s !! j = Some c → popular s c = true → diag_run s lo j = 0.
Proof.
  intros Hj Hc. destruct j; simpl; rewrite Hj, Hc; by rewrite andb_false_r.
Qed.

Section row.
Context (r : nat) (c : ascii) (j2len : gmap nat nat).
Hypothesis (Hr : lo ≤ r < hi) (Hc : s !! r = Some c).
Hypothesis (Hpop : popular s c = false).
Hypothesis (Hrows : diag_rows s lo r j2len).

Lemma scan_row_diag rest newj2len best :
  StronglySorted lt rest →
  Forall (λ j, s !! j = Some c) rest →
  (∀ j k, newj2len !! j = Some k →
     (j < S r → k ≤ diag_run s lo j) ∧ (S r ≤ S j → k ≤ diag_run s lo r)) →
  diag_best s lo r best →
  (r ∈ rest ∧ newj2len !! r = None)
  ∨ ((∀ j, j ∈ rest → r < j) ∧ newj2len !! r = Some (diag_run s lo r)
     ∧ diag_run s lo r ≤ m_size best) →
  diag_rows s lo (S r) (scan_row rest r lo hi j2len newj2len best).1
  ∧ diag_best s lo (S r) (scan_row rest r lo hi j2len newj2len best).2.
Proof.
  intros Hsorted Hrest. revert newj2len best.
  induction Hrest as [|j rest Hj Hrest IH]; intros newj2len best Hnew Hbest Hstate.
  { simpl. destruct Hstate as [[Hin _]|(_ & Hdiag & Hsize)].
    { by apply elem_of_nil in Hin. }
    split.
    - split; [done|]. simpl. by rewrite Hdiag.
    - destruct Hbest as [Hd Hb]. split; [done|]. intros r' Hr'.
      destruct (decide (r' = r)) as [->|]; [done|]. apply Hb. lia. }
  apply StronglySorted_cons in Hsorted as [Hlt Hsorted].
  rewrite Forall_forall in Hlt.
  assert (r ∈ j :: rest → r = j ∨ (r ∈ rest ∧ j < r)) as Hsplit.
  { intros [->|Hin]%elem_of_cons; [by left|]. right. split; [done|]. by apply Hlt. }
  cbn [scan_row]. destruct (j <? lo) eqn:Hjlo.
  { apply Nat.ltb_lt in Hjlo. apply IH; [done..|].
    destruct Hstate as [[Hin Hnone]|(Hall & Hd & Hs)].
    - left. split; [|done]. destruct (Hsplit Hin) as [->|[? _]]; [lia | done].
    - right. split_and!; [|done..]. intros j' Hj'. apply Hall.
      by apply list_elem_of_further. }
  apply Nat.ltb_ge in Hjlo. destruct (hi <=? j) eqn:Hjhi.
  { apply Nat.leb_le in Hjhi. simpl.
    destruct Hstate as [[Hin Hnone]|(_ & Hdiag & Hsize)].
    { destruct (Hsplit Hin) as [->|[_ ?]]; lia. }
    split.
    - split; [done|]. simpl. by rewrite Hdiag.
    - destruct Hbest as [Hd Hb]. split; [done|]. intros r' Hr'.
      destruct (decide (r' = r)) as [->|]; [done|]. apply Hb. lia. }
  apply Nat.leb_gt in Hjhi.
  destruct Hrows as [Hcols Hdiagprev].
  set (k := j2len_get_pred j2len j + 1).
  pose proof (diag_run_step r c Hc Hpop ltac:(lia)) as Hrun_r.
  pose proof (diag_run_step j c Hj Hpop Hjlo) as Hrun_j.
  assert ((j < r → k ≤ diag_run s lo j) ∧ (r ≤ j → k ≤ diag_run s lo r)) as [Hk1 Hk2].
  { subst k. rewrite Hrun_j, Hrun_r. destruct j as [|j']; simpl.
    { split; intros; lia. }
    destruct (j2len !! j') as [k'|] eqn:Hk'; simpl; [|split; intros; lia].
    destruct (Hcols j' k' Hk') as [H1 H2]. split; intros.
    - specialize (H1 ltac:(lia)). lia.
    - specialize (H2 ltac:(lia)). lia. }
  assert (j = r → k = diag_run s lo r) as Hk3.
  { intros ->. subst k. rewrite Hrun_r, Hdiagprev. lia. }
  apply IH; [done|..].
  - intros j0 k0. destruct (decide (j = j0)) as [<-|Hne].
    + rewrite lookup_insert_eq. intros [= <-]. split; intros.
      * destruct (decide (j = r)) as [->|]; [by rewrite Hk3 | apply Hk1; lia].
      * apply Hk2. lia.
    + rewrite lookup_insert_ne by done. apply Hnew.
  - destruct Hbest as [Hd Hb]. destruct (m_size best <? k) eqn:Hupd; [|done].
    apply Nat.ltb_lt in Hupd. split; simpl.
    + destruct (decide (j = r)) as [->|Hne]; [done|]. exfalso.
      destruct (decide (j < r)).
      * specialize (Hk1 ltac:(lia)). specialize (Hb j ltac:(lia)). lia.
      * destruct Hstate as [[Hin _]|(_ & _ & Hsize)].
        -- destruct (Hsplit Hin) as [->|[_ ?]]; lia.
        -- specialize (Hk2 ltac:(lia)). lia.
    + intros r' Hr'. specialize (Hb r' Hr'). lia.
  - destruct (decide (j = r)) as [->|Hne].
    + right. split_and!.
      * intros j' Hj'. by apply Hlt.
      * rewrite lookup_insert_eq. f_equal. by apply Hk3.
      * rewrite <- Hk3 by done. destruct (m_size best <? k) eqn:Hupd; simpl.
        -- lia.
        -- apply Nat.ltb_ge in Hupd. lia.
    + destruct Hstate as [[Hin Hnone]|(Hall & Hd & Hs)].
      * left. destruct (Hsplit Hin) as [->|[? _]]; [done|].
        split; [done|]. by rewrite lookup_insert_ne.
      * right. split_and!.
        -- intros j' Hj'. apply Hall. by apply list_elem_of_further.
        -- by rewrite lookup_insert_ne.
        -- destruct (m_size best <? k) eqn:Hupd; simpl; [|done].
           apply Nat.ltb_lt in Hupd. lia.
Qed.

End row.

Lemma diag_run_below r : r < lo → diag_run s lo r = 0.
Proof.
  intros Hr. destruct r; simpl; destruct (s !! _); try done;
    by replace (lo <=? _) with false by (symmetry; apply Nat.leb_gt; lia).
Qed.

Lemma diag_run_before_below e : e ≤ lo → diag_run_before s lo e = 0.
Proof. destruct e; [done|]. intros He. apply diag_run_below. lia. Qed.

Lemma j2len_get_pred_empty e : j2len_get_pred ∅ e = 0.
Proof. destruct e; [done|]. simpl. by rewrite lookup_empty. Qed.

Lemma scan_rows_diag n e j2len best :
  lo ≤ e → e + n ≤ hi →
  diag_rows s lo e j2len → diag_best s lo e best →
  m_a (scan_rows s s (seq e n) lo hi j2len best)
  = m_b (scan_rows s s (seq e n) lo hi j2len best).
Proof.
  revert e j2len best.
  induction n as [|n IH]; intros e j2len best He Hn Hrows Hbest.
  { by destruct Hbest. }
  cbn [seq scan_rows].
  destruct (lookup_lt_is_Some_2 s e) as [c Hc]; [lia|]. rewrite Hc.
  destruct (scan_row (b2j_get s c) e lo hi j2len ∅ best) as [new best'] eqn:E.
  assert (diag_rows s lo (S e) new ∧ diag_best s lo (S e) best') as [Hrows' Hbest'].
  { unfold b2j_get in E. destruct (popular s c) eqn:Hpop.
    - simpl in E. injection E as <- <-. split.
      + split; [intros j k; by rewrite lookup_empty|].
        simpl. rewrite lookup_empty. simpl. by erewrite diag_run_popular.
      + destruct Hbest as [Hd Hb]. split; [done|]. intros r Hr.
        destruct (decide (r = e)) as [->|]; [|apply Hb; lia].
        erewrite diag_run_popular by done. lia.
    - pose proof (scan_row_diag e c j2len ltac:(lia) Hc Hpop Hrows
                    (indices_from c s 0) ∅ best) as Hrow.
      rewrite E in Hrow. apply Hrow.
      + apply indices_from_sorted.
      + apply Forall_forall. intros j [_ Hj]%indices_from_lookup.
        by rewrite Nat.sub_0_r in Hj.
      + intros j k. by rewrite lookup_empty.
      + done.
      + left. split; [|apply lookup_empty].
        by apply (indices_from_complete c s 0 e). }
  apply IH; [lia | lia | done | done].
Qed.

Lemma extend_left_self i k :
  lo ≤ i → i ≤ length s →
  extend_left s s lo lo i i k = mkMatch lo lo (k + (i - lo)).
Proof.
  revert k. induction i as [|i IH]; intros k Hi Hlen; simpl.
  { replace lo with 0 by lia. by rewrite Nat.add_0_r. }
  destruct (decide (lo ≤ i)) as [Hle|Hgt].
  - replace (lo <=? i) with true by (symmetry; apply Nat.leb_le; lia).
    destruct (lookup_lt_is_Some_2 s i) as [c Hc]; [lia|].
    unfold same_at. rewrite Hc, bool_decide_eq_true_2 by done. simpl.
    rewrite IH by lia. f_equal. lia.
  - replace (lo <=? i) with false by (symmetry; apply Nat.leb_gt; lia). simpl.
    replace lo with (S i) by lia. f_equal. lia.
Qed.

Lemma extend_right_self fuel k :
  lo + k ≤ hi → hi - (lo + k) ≤ fuel →
  extend_right s s hi hi lo lo fuel k = hi - lo.
Proof.
  revert k. induction fuel as [|fuel IH]; intros k Hk Hf; simpl; [lia|].
  destruct (decide (lo + k < hi)) as [Hlt|Hge].
  - replace (lo + k <? hi) with true by (symmetry; apply Nat.ltb_lt; lia).
    destruct (lookup_lt_is_Some_2 s (lo + k)) as [c Hc]; [lia|].
    unfold same_at. rewrite Hc, bool_decide_eq_true_2 by done. simpl.
    apply IH; lia.
  - replace (lo + k <? hi) with false by (symmetry; apply Nat.ltb_ge; lia).
    simpl. lia.
Qed.

(** The longest match of a window of [s] with the same window of [s] is
    the whole window. *)
Lemma find_longest_match_self :
  find_longest_match s s lo hi lo hi = mkMatch lo lo (hi - lo).
Proof.
  unfold find_longest_match.
  set (m0 := scan_rows s s (seq lo (hi - lo)) lo hi ∅ (mkMatch lo lo 0)).
  assert (is_match s s lo hi lo hi m0) as Hm0.
  { apply scan_rows_ok; try lia.
    - intros j k. by rewrite lookup_empty.
    - unfold is_match; simpl. split_and!; try lia. apply matches_at_0. }
  assert (m_a m0 = m_b m0) as Hdiag.
  { apply scan_rows_diag; try lia.
    - split; [intros j k; by rewrite lookup_empty|].
      by rewrite j2len_get_pred_empty, diag_run_before_below.
    - split; [done|]. intros r Hr. rewrite diag_run_below by done. simpl. lia. }
  destruct m0 as [i j k]. simpl in Hdiag. subst j.
  destruct Hm0 as (? & ? & _). simpl in *.
  rewrite extend_left_self by lia. simpl.
  rewrite extend_right_self by lia. done.
Qed.

End self_match.

Section self_ratio.
Import Difflib.
Context (s : str).

Lemma blocks_self fuel lo hi :
  lo ≤ hi → hi ≤ length s →
  sum_list (map m_size (blocks s s (S fuel) lo hi lo hi)) = hi - lo.
Proof.
  intros Hlo Hhi. cbn [blocks]. rewrite find_longest_match_self by done.
  destruct (hi - lo =? 0) eqn:Hk.
  { apply Nat.eqb_eq in Hk. simpl. lia. }
  replace (lo <? lo) with false by (symmetry; apply Nat.ltb_ge; lia).
  replace (lo + (hi - lo) <? hi) with false by (symmetry; apply Nat.ltb_ge; lia).
  simpl. lia.
Qed.

(** A string has the score 1 against itself. *)
Lemma ratio_self : (ratio s s == 1)%Q.
Proof.
  unfold ratio, matching_blocks. rewrite blocks_self by lia.
  rewrite Nat.sub_0_r. destruct (length s) as [|n]; [done|].
  unfold calculate_ratio, Qeq. cbn [Qnum Qden Nat.add].
  rewrite Zpos_of_nat_S. lia.
Qed.

End self_ratio.

(** X27: the similarity of two strings is 1 exactly when they are equal. *)
Theorem similarity_one_iff (a b : str) :
  (RetrievalModule.similarity a b == 1)%Q ↔ a = b.
Proof.
  unfold RetrievalModule.similarity. split.
  - apply ratio_one_equal.
  - intros ->. apply ratio_self.
Qed.

Section exact_match.
Import Difflib.

Lemma ratio_ge_one_equal a b : (1 <= ratio a b)%Q → a = b.
Proof.
  intros Hge. apply ratio_one_equal. apply Qle_antisym; [|done].
  by destruct (ratio_bounds a b).
Qed.

Lemma similarity_self_aux s :
  (RetrievalModule.similarity s s == 1)%Q.
Proof. apply ratio_self. Qed.

Lemma similarity_one_iff_aux a b :
  a = b → (RetrievalModule.similarity a b == 1)%Q.
Proof. intros ->. apply ratio_self. Qed.

Lemma similarity_le_one a b : (RetrievalModule.similarity a b <= 1)%Q.
Proof. by destruct (ratio_bounds a b). Qed.

Lemma valid_cutoff_le_self c s : valid_cutoff c → (c <= ratio s s)%Q.
Proof.
  intros [_ Hc]. eapply Qle_trans; [done|]. rewrite ratio_self. apply Qle_refl.
Qed.

End exact_match.

(** X28: when the lower-cased query is itself a stored question, [retrieve]
    returns that entry first, for every cutoff in [0,1] and every
    [top_k >= 1]. *)
Theorem retrieve_exact_match (knowledge_list : list item) (c : Q)
    (query : str) (top_k : Z) (a : str) :
  valid_cutoff c → (1 ≤ top_k)%Z →
  (lower query, a) ∈ knowledge_dict (Retrieval.init knowledge_list c) →
  ∃ rest, Retrieval.retrieve (Retrieval.init knowledge_list c) query top_k
          = Ok (mkHit (lower query) a :: rest).
Proof.
  intros Hc Hk Hin. set (rs := Retrieval.init knowledge_list c).
  destruct (retrieve_properties rs query top_k Hc Hk (init_NoDup _ _))
    as (res & Hres & _ & Hhits & Hsort & Hex & _ & _).
  assert (c <= score query (lower query))%Q as Hs
    by by apply valid_cutoff_le_self.
  assert (∀ x, (1 <= score query x)%Q → x = lower query) as Hone.
  { intros x Hx. by apply ratio_ge_one_equal. }
  assert (1 <= score query (lower query))%Q as Hself.
  { unfold score. rewrite ratio_self. apply Qle_refl. }
  destruct res as [|h0 rest].
  { destruct (Hex _ _ Hin Hs) as [Hn|[Hlen _]];
      [by apply elem_of_nil in Hn | simpl in Hlen; lia]. }
  exists rest. rewrite Hres. do 2 f_equal.
  assert (1 <= score query (question h0))%Q as H0.
  { destruct (Hex _ _ Hin Hs) as [Hn|[_ Hge]].
    - apply list_elem_of_lookup_1 in Hn as [[|i] Hi].
      + simpl in Hi. by injection Hi as ->.
      + eapply Qle_trans; [exact Hself|].
        by apply (tuple_ge_score _ _ (Hsort 0 (S i) h0 _ ltac:(lia) eq_refl Hi)).
    - eapply Qle_trans; [exact Hself|].
      by apply (tuple_ge_score _ _ (Hge h0 (list_elem_of_here _ _))). }
  apply Hone in H0. destruct (Hhits h0 (list_elem_of_here _ _)) as [Hd _].
  destruct h0 as [q0 a0]. simpl in *. subst q0. f_equal.
  pose proof (dict_get_elem _ _ _ (init_NoDup knowledge_list c) Hd).
  pose proof (dict_get_elem _ _ _ (init_NoDup knowledge_list c) Hin).
  congruence.
Qed.

Lemma retrieve_exact_match_witness :
  ∃ rest, Retrieval.retrieve (Retrieval.init kb_coffee (1 # 2))
            (py "How To Make Espresso") 3
          = Ok (mkHit (lower (py "How To Make Espresso"))
                  (py "Use finely ground coffee and nine bars.") :: rest).
Proof.
  apply retrieve_exact_match; [apply valid_cutoff_half | lia |].
  apply (bool_decide_unpack _). by vm_compute.
Defined.

(** X29: [fuzzy_match] returns a key of the table unchanged. *)
Theorem fuzzy_match_key (d : pron_dict) (k : str) :
  k ∈ map fst d → FuzzyMatcherModule.fuzzy_match d k = Ok k.
Proof.
  intros Hk. unfold FuzzyMatcherModule.fuzzy_match.
  rewrite get_close_matches_Ok by (by split || lia). simpl.
  set (cands := Difflib.scored k (7 # 10) (map fst d)).
  assert ((Difflib.ratio k k, k) ∈ cands) as Hin.
  { apply elem_of_scored. exists k. split_and!; [done..|].
    by apply valid_cutoff_le_self. }
  pose proof (nlargest_length (Z.to_nat 1) cands) as Hlen.
  pose proof (nlargest_complete (Z.to_nat 1) _ _ Hin) as Hcomp.
  change (Z.to_nat 1) with 1 in *.
  destruct (Difflib.nlargest 1 cands) as [|p [|p' top]] eqn:Etop;
    cbn [length] in Hlen; [| |lia].
  { destruct Hcomp as [Hn|[Hfull _]]; [by apply elem_of_nil in Hn | done]. }
  simpl. do 2 f_equal.
  destruct Hcomp as [Hn|[_ Hge]].
  { by apply list_elem_of_singleton in Hn as <-. }
  assert (p ∈ cands) as Hp.
  { apply (nlargest_elem 1). rewrite Etop. apply list_elem_of_here. }
  apply elem_of_scored in Hp as (x & -> & _ & _). simpl.
  apply ratio_ge_one_equal.
  pose proof (tuple_ge_score _ _ (Hge _ (list_elem_of_here _ _))) as Hle.
  simpl in Hle. eapply Qle_trans; [|exact Hle].
  rewrite ratio_self. apply Qle_refl.
Qed.

Lemma fuzzy_match_key_witness :
  FuzzyMatcherModule.fuzzy_match
    [(py "espresso", VList [SStr (py "expresso")]);
     (py "espressos", VList [])] (py "espresso")
  = Ok (py "espresso").
Proof. apply fuzzy_match_key. apply (bool_decide_unpack _). by vm_compute. Defined.

(** X30: on records that all have a question and an answer, when some
    question equals the query up to case, the single-best [retrieve]
    returns the answer of the first such record. *)
Theorem single_best_exact_match (knowledge : list item) (query : str) :
  Forall (λ it, is_Some (it !! "question"%string)
                ∧ is_Some (it !! "answer"%string)) knowledge →
  Exists (λ it, ∃ q, it !! "question"%string = Some q ∧ lower q = lower query)
    knowledge →
  ∃ i it q ans,
    knowledge !! i = Some it
    ∧ it !! "question"%string = Some q ∧ lower q = lower query
    ∧ it !! "answer"%string = Some ans
    ∧ RetrievalModule.retrieve knowledge query = Ok (Some ans)
    ∧ ∀ j it' q', j < i → knowledge !! j = Some it' →
        it' !! "question"%string = Some q' → lower q' ≠ lower query.
Proof.
  intros Hwf Hex. unfold RetrievalModule.retrieve.
  destruct (best_loop_total query knowledge 0%Q None Hwf) as (s & a & E).
  rewrite E. simpl.
  apply Exists_exists in Hex as (it0 & [j0 Hj0]%list_elem_of_lookup_1 & q0 & Hq0 & Hl0).
  assert (RetrievalModule.similarity (lower query) (lower q0) == 1)%Q as H1.
  { apply similarity_one_iff_aux. done. }
  apply best_loop_first_max in E as [(-> & _ & Hall)|Hbest].
  { exfalso. specialize (Hall j0 it0 q0 Hj0 Hq0). rewrite H1 in Hall. done. }
  destruct Hbest as (i & it & q & ans & Hi & Hq & Ha & -> & -> & _ & Hbefore & Hall).
  assert (RetrievalModule.similarity (lower query) (lower q) == 1)%Q as Hs.
  { apply Qle_antisym; [apply similarity_le_one|].
    eapply Qle_trans; [|exact (Hall j0 it0 q0 Hj0 Hq0)].
    rewrite H1. apply Qle_refl. }
  exists i, it, q, ans. split_and!; [done|done| |done| |].
  - symmetry. by apply ratio_one_equal.
  - replace (Qle_bool _ (1 # 2)) with false; [done|]. symmetry.
    apply not_true_is_false. intros Hle%Qle_bool_iff. rewrite Hs in Hle. done.
  - intros j it' q' Hj Hj' Hq' Hl'.
    pose proof (Hbefore j it' q' Hj Hj' Hq') as Hlt.
    rewrite Hs in Hlt. rewrite <- Hl', (similarity_self_aux (lower q')) in Hlt.
    by apply Qlt_irrefl in Hlt.
Qed.

Lemma single_best_exact_match_witness :
  ∃ i it q ans,
    [latte_old; mocha; latte_new] !! i = Some it
    ∧ it !! "question"%string = Some q ∧ lower q = lower (py "WHAT is a latte")
    ∧ it !! "answer"%string = Some ans
    ∧ RetrievalModule.retrieve [latte_old; mocha; latte_new] (py "WHAT is a latte")
      = Ok (Some ans)
    ∧ ∀ j it' q', j < i → [latte_old; mocha; latte_new] !! j = Some it' →
        it' !! "question"%string = Some q' → lower q' ≠ lower (py "WHAT is a latte").
Proof.
  apply single_best_exact_match.
  - repeat (apply Forall_cons; split; [split; eexists; by vm_compute|]).
    by apply Forall_nil.
  - apply Exists_cons_hd. eexists. split; reflexivity.
Defined.

(** The two retrievers on a question stored twice: the mapping of
    barista_buddy.py keeps the last answer, the list of
    src/retrieval_system.py yields the first. *)
Example exact_match_first_or_last :
  Retrieval.retrieve (Retrieval.init [latte_old; mocha; latte_new] (1 # 2))
    (py "WHAT is a latte") 1
  = Ok [mkHit (py "what is a latte") (py "new")]
  ∧ RetrievalModule.retrieve [latte_old; mocha; latte_new] (py "WHAT is a latte")
    = Ok (Some (py "old")).
Proof. split; by vm_compute. Qed.
